(** * computeStatistics.py: descriptive statistics with hand-written primitives

    A shallow embedding of [src/Ejercicio 1/computeStatistics.py] and the
    properties its specification states about it.

    Part I holds the definitions:
    - exceptions as a [result] type, Python's arithmetic as the class
      [Arith], with two instances: [binary64_arith] (IEEE 754 doubles,
      what CPython's [float] is) and [exact_arith] (rationals, the
      arithmetic without rounding);
    - the functions of the program, written once over [Arith];
    - the notions the specification uses to describe them.

    Part II holds the proofs: facts about the binary64 operations, the
    lemmas on sorting, counting and scanning, the properties of the
    specification, and further properties of the code.

    Both parts end with the two other programs of the repository,
    [src/Ejercicio 2/convertNumbers.py] and [src/Ejercicio 3/wordCount.py],
    each in a module of its own. *)

From Stdlib Require Import ZArith QArith Qpower Qfield Lqa Floats Ascii String Lia FunInd Recdef.
From stdpp Require Import base option list gmap.

#[local] Set Warnings "-inexact-float".

Local Open Scope Z_scope.

(** * Part I: definitions *)

(** ** Exceptions *)

(** The exceptions the program can raise in its computation.  [ValueError]
    is the one [parse_number] raises itself (the specification's
    InvalidNumberFormat); the others are raised by Python's operators. *)
Inductive exn : Set :=
  | ValueError
  | OverflowError
  | ZeroDivisionError
  | IndexError.

Inductive result (A : Type) : Type :=
  | Ok (a : A)
  | Raise (e : exn).
Arguments Ok {A} a.
Arguments Raise {A} e.

Global Instance result_ret : MRet result := fun A a => Ok a.
Global Instance result_bind : MBind result := fun A B f m =>
  match m with
  | Ok a => f a
  | Raise e => Raise e
  end.

Definition is_ok {A} (r : result A) : bool :=
  match r with Ok _ => true | Raise _ => false end.

(** ** Python's numbers

    [int] is unbounded: [Z].  [float] is left abstract in the class
    [Arith], which lists the operations the program applies to floats;
    conversions from [int] can raise. *)
Class Arith (F : Type) := {
  zero : F;                        (* 0.0 *)
  one : F;                         (* 1.0 *)
  half : F;                        (* 0.5 *)
  two : F;                         (* 2.0 *)
  fopp : F -> F;                   (* -x *)
  fadd : F -> F -> F;              (* x + y *)
  fsub : F -> F -> F;              (* x - y *)
  fmul : F -> F -> F;              (* x * y *)
  fquot : F -> F -> F;             (* x / y for y != 0 *)
  feqb : F -> F -> bool;           (* x == y *)
  fltb : F -> F -> bool;           (* x < y *)
  fleb : F -> F -> bool;           (* x <= y *)
  of_int : Z -> result F;          (* the implicit float(n) of a mixed operation *)
  int_truediv : Z -> Z -> result F (* n / m on two ints *)
}.

(** [x / y] on floats raises [ZeroDivisionError] when [y == 0.0]. *)
Definition fdiv {F} `{Arith F} (x y : F) : result F :=
  if feqb y zero then Raise ZeroDivisionError else Ok (fquot x y).

(** [x / n] for a float [x] and an int [n]: [n] is converted first. *)
Definition fdiv_int {F} `{Arith F} (x : F) (n : Z) : result F :=
  y ← of_int n; fdiv x y.

(** *** IEEE 754 binary64 *)

(** [float(n)]: round to nearest, ties to even; CPython raises
    [OverflowError] when the rounded value is not finite. *)
Definition Z_to_sf (n : Z) : spec_float := binary_normalize prec emax n 0 false.

Definition float_of_int (n : Z) : result float :=
  match Z_to_sf n with
  | S754_infinity _ => Raise OverflowError
  | sf => Ok (SF2Prim sf)
  end.

(** [n / m] on ints is the correctly rounded quotient of the two integers
    (not the quotient of the two rounded operands). *)
Definition Z_div_sf (n m : Z) : spec_float :=
  match n with
  | Z0 => S754_zero (m <? 0)
  | _ =>
    let '(q, e, l) := SFdiv_core_binary prec emax (Z.abs n) 0 (Z.abs m) 0 in
    binary_round_aux prec emax (xorb (n <? 0) (m <? 0)) q e l
  end.

Definition float_int_truediv (n m : Z) : result float :=
  if m =? 0 then Raise ZeroDivisionError
  else match Z_div_sf n m with
       | S754_infinity _ => Raise OverflowError
       | sf => Ok (SF2Prim sf)
       end.

Global Instance binary64_arith : Arith float := {|
  zero := 0%float;
  one := 1%float;
  half := 0.5%float;
  two := 2%float;
  fopp := PrimFloat.opp;
  fadd := PrimFloat.add;
  fsub := PrimFloat.sub;
  fmul := PrimFloat.mul;
  fquot := PrimFloat.div;
  feqb := PrimFloat.eqb;
  fltb := PrimFloat.ltb;
  fleb := PrimFloat.leb;
  of_int := float_of_int;
  int_truediv := float_int_truediv
|}.

(** *** Exact arithmetic *)

Definition Q_int_truediv (n m : Z) : result Q :=
  if m =? 0 then Raise ZeroDivisionError else Ok (inject_Z n / inject_Z m)%Q.

Global Instance exact_arith : Arith Q := {|
  zero := 0%Q;
  one := 1%Q;
  half := (1 # 2)%Q;
  two := 2%Q;
  fopp := Qopp;
  fadd := Qplus;
  fsub := Qminus;
  fmul := Qmult;
  fquot := Qdiv;
  feqb := Qeq_bool;
  fltb := fun x y => negb (Qle_bool y x);
  fleb := Qle_bool;
  of_int := fun n => Ok (inject_Z n);
  int_truediv := Q_int_truediv
|}.

(** ** What the proofs use of an arithmetic

    [ok] singles out the values the order behaves on: every rational, and
    every float but NaN. *)
Class ArithLaws (F : Type) `{Arith F} (ok : F -> Prop) := {
  ltb_irrefl x : fltb x x = false;
  ltb_trans x y z : fltb x y = true -> fltb y z = true -> fltb x z = true;
  leb_ltb x y : ok x -> ok y -> fleb x y = negb (fltb y x);
  leb_trans x y z : fleb x y = true -> fleb y z = true -> fleb x z = true;
  eqb_refl x : ok x -> feqb x x = true;
  eqb_sym x y : feqb x y = feqb y x;
  eqb_trans x y z : feqb x y = true -> feqb y z = true -> feqb x z = true;
  two_nonzero : feqb two zero = false
}.

(** ** parse_number *)

(** Characters are code points below 256. *)
Definition ord (c : ascii) : Z := Z.of_nat (nat_of_ascii c).

(** ["0" <= c <= "9"] *)
Definition is_digit (c : ascii) : bool := (ord "0" <=? ord c) && (ord c <=? ord "9").

(** What [str.strip()] removes: the code points below 256 for which
    [str.isspace()] holds. *)
Definition is_space (c : ascii) : bool :=
  let n := ord c in
  ((9 <=? n) && (n <=? 13)) || ((28 <=? n) && (n <=? 32)) || (n =? 133) || (n =? 160).

Fixpoint lstrip (s : list ascii) : list ascii :=
  match s with
  | c :: r => if is_space c then lstrip r else s
  | [] => []
  end.

Definition strip (s : list ascii) : list ascii := rev (lstrip (rev (lstrip s))).

(** The first [while] loop.  The cursor [i] is kept as the unread suffix
    [s[i:]], so [i < len(s)] reads "the suffix is not empty" and [s[i]] is
    its head. *)
Fixpoint scan_int (rest : list ascii) (int_part : Z) (has_digit : bool)
  : Z * bool * list ascii :=
  match rest with
  | c :: rest' =>
    if is_digit c
    then scan_int rest' (int_part * 10 + (ord c - ord "0")) true
    else (int_part, has_digit, rest)
  | [] => (int_part, has_digit, rest)
  end.

(** The second [while] loop, after the decimal point. *)
Fixpoint scan_frac (rest : list ascii) (frac_part frac_div : Z) (has_digit : bool)
  : Z * Z * bool * list ascii :=
  match rest with
  | c :: rest' =>
    if is_digit c
    then scan_frac rest' (frac_part * 10 + (ord c - ord "0")) (frac_div * 10) true
    else (frac_part, frac_div, has_digit, rest)
  | [] => (frac_part, frac_div, has_digit, rest)
  end.

(** The state of the scan when the last [if] is reached. *)
Record scanned := {
  sc_negative : bool;     (* sign == -1.0 *)
  sc_int_part : Z;
  sc_frac_part : Z;
  sc_frac_div : Z;
  sc_has_digit : bool;
  sc_rest : list ascii    (* s[i:] *)
}.

Definition scan (s : list ascii) : scanned :=
  let '(negative, rest) :=
    match s with
    | c :: r =>
      if Ascii.eqb c "-" then (true, r)
      else if Ascii.eqb c "+" then (false, r)
      else (false, s)
    | [] => (false, s)
    end in
  let '(int_part, has_digit, rest) := scan_int rest 0 false in
  let '(frac_part, frac_div, has_digit, rest) :=
    match rest with
    | c :: r =>
      if Ascii.eqb c "." then scan_frac r 0 1 has_digit
      else (0, 1, has_digit, rest)
    | [] => (0, 1, has_digit, rest)
    end in
  {| sc_negative := negative; sc_int_part := int_part;
     sc_frac_part := frac_part; sc_frac_div := frac_div;
     sc_has_digit := has_digit; sc_rest := rest |}.

Definition is_nil {A} (l : list A) : bool :=
  match l with [] => true | _ => false end.

Section Parse.
Context {F : Type} `{Arith F}.

Definition parse_number (token : string) : result F :=
  let s := strip (list_ascii_of_string token) in
  if is_nil s then Raise ValueError
  else
    let st := scan s in
    if negb (sc_has_digit st) || negb (is_nil (sc_rest st)) then Raise ValueError
    else
      let sign := if sc_negative st then fopp one else one in
      q ← int_truediv (sc_frac_part st) (sc_frac_div st);
      n ← of_int (sc_int_part st);
      Ok (fmul sign (fadd n q)).

End Parse.

(** ** Lists as Python has them *)

Definition loc := positive.

Section Program.
Context {F : Type} `{Arith F}.

(** [l[i]] for an index that is never negative (a [range] variable). *)
Definition get (l : list F) (i : nat) : result F :=
  match l !! i with
  | Some x => Ok x
  | None => Raise IndexError
  end.

(** [l[i]] for any int: a negative index counts from the end. *)
Definition py_index (l : list F) (i : Z) : result F :=
  let n := Z.of_nat (length l) in
  let j := if i <? 0 then i + n else i in
  if (j <? 0) || (n <=? j) then Raise IndexError else get l (Z.to_nat j).

(** List objects live in a store; a variable holds a reference. *)
Definition load (r : loc) (h : gmap loc (list F)) : list F := h !!! r.

Definition alloc (l : list F) (h : gmap loc (list F)) : loc * gmap loc (list F) :=
  let r := fresh (dom h) in (r, <[r := l]> h).

(** ** sqrt_newton *)

(** [for _ in range(k): guess = 0.5 * (guess + x / guess)] *)
Fixpoint newton_loop (k : nat) (x guess : F) : result F :=
  match k with
  | O => Ok guess
  | S k' => q ← fdiv x guess; newton_loop k' x (fmul half (fadd guess q))
  end.

Definition sqrt_newton (x : F) : result F :=
  if feqb x zero then Ok zero
  else
    let guess := if fleb one x then x else one in
    newton_loop 25 x guess.

(** ** selection_sort *)

(** [for j in range(j, j + k): if arr[j] < arr[min_index]: min_index = j] *)
Fixpoint find_min (arr : list F) (min_index j k : nat) : result nat :=
  match k with
  | O => Ok min_index
  | S k' =>
    aj ← get arr j;
    am ← get arr min_index;
    find_min arr (if fltb aj am then j else min_index) (S j) k'
  end.

(** [arr[i], arr[m] = arr[m], arr[i]] *)
Definition swap (arr : list F) (i m : nat) : result (list F) :=
  am ← get arr m;
  ai ← get arr i;
  Ok (<[m := ai]> (<[i := am]> arr)).

(** One round of the outer loop on the contents of [arr]. *)
Definition sort_step (a : list F) (n i : nat) : result (list F) :=
  m ← find_min a i (S i) (n - S i);
  swap a i m.

(** [for i in range(i, i + k)], each round written back to the list
    object [arr]. *)
Fixpoint sort_loop (arr : loc) (n i k : nat) (h : gmap loc (list F))
  : result (gmap loc (list F)) :=
  match k with
  | O => Ok h
  | S k' =>
    a' ← sort_step (load arr h) n i;
    sort_loop arr n (S i) k' (<[arr := a']> h)
  end.

Definition selection_sort (values : loc) (h : gmap loc (list F))
  : result (loc * gmap loc (list F)) :=
  let '(arr, h) := alloc (load values h) h in   (* arr = values[:] *)
  let n := length (load arr h) in
  h ← sort_loop arr n 0 n h;
  Ok (arr, h).

(** ** mean *)

Definition mean (values : list F) : result F :=
  let total := fold_left fadd values zero in
  fdiv_int total (Z.of_nat (length values)).

(** ** median *)

Definition median (sorted_vals : list F) : result F :=
  let n := Z.of_nat (length sorted_vals) in
  let mid := n / 2 in
  if n mod 2 =? 1 then py_index sorted_vals mid
  else
    a ← py_index sorted_vals (mid - 1);
    b ← py_index sorted_vals mid;
    fdiv (fadd a b) two.

(** ** mode *)

(** A [dict] with float keys: the entries in insertion order.  A key is
    found by [==]; an update keeps the key that was inserted first. *)
Fixpoint dict_get (d : list (F * Z)) (k : F) (default : Z) : Z :=
  match d with
  | [] => default
  | (k', c) :: d' => if feqb k' k then c else dict_get d' k default
  end.

Fixpoint dict_set (d : list (F * Z)) (k : F) (c : Z) : list (F * Z) :=
  match d with
  | [] => [(k, c)]
  | (k', c') :: d' =>
    if feqb k' k then (k', c) :: d' else (k', c') :: dict_set d' k c
  end.

Definition count_values (values : list F) : list (F * Z) :=
  fold_left (fun counts v => dict_set counts v (dict_get counts v 0 + 1)) values [].

Definition max_of_counts (counts : list (F * Z)) : Z :=
  fold_left (fun max_count c => if max_count <? c then c else max_count)
            (map snd counts) 0.

Definition mode (values : list F) : list F :=
  let counts := count_values values in
  let max_count := max_of_counts counts in
  if max_count <=? 1 then []
  else
    fold_left (fun modes kc => if snd kc =? max_count then modes ++ [fst kc] else modes)
              counts [].

(** ** variance *)

Definition variance (values : list F) (avg : F) : result F :=
  let total :=
    fold_left (fun total v => let diff := fsub v avg in fadd total (fmul diff diff))
              values zero in
  fdiv_int total (Z.of_nat (length values)).

(** ** build_report *)

(** The numbers [build_report] formats into its lines. *)
Record report := {
  r_count : Z;
  r_invalid : Z;
  r_mean : F;
  r_median : F;
  r_mode : list F;
  r_variance : F;
  r_std : F
}.

Definition build_report (values : loc) (invalid_count : Z) (h : gmap loc (list F))
  : result (report * gmap loc (list F)) :=
  '(sorted_vals, h) ← selection_sort values h;
  avg ← mean (load values h);
  med ← median (load sorted_vals h);
  let modes := mode (load values h) in
  var ← variance (load values h) avg;
  std ← sqrt_newton var;
  Ok ({| r_count := Z.of_nat (length (load values h));
         r_invalid := invalid_count;
         r_mean := avg; r_median := med; r_mode := modes;
         r_variance := var; r_std := std |}, h).

(** ** main, from the tokens on *)

(** [for t in tokens: try: values.append(parse_number(t))
     except ValueError: invalid += 1] *)
Fixpoint main_loop (tokens : list string) (values : loc) (invalid : Z)
         (h : gmap loc (list F)) : result (Z * gmap loc (list F)) :=
  match tokens with
  | [] => Ok (invalid, h)
  | t :: tokens' =>
    match parse_number t with
    | Ok v => main_loop tokens' values invalid (<[values := load values h ++ [v]]> h)
    | Raise ValueError => main_loop tokens' values (invalid + 1) h
    | Raise e => Raise e
    end
  end.

(** What [main] prints: the "No valid numbers found" lines or the report. *)
Inductive outcome :=
  | NoValidNumbers (invalid : Z)
  | Statistics (r : report).

Definition main (tokens : list string) : result outcome :=
  let '(values, h) := alloc [] ∅ in
  '(invalid, h) ← main_loop tokens values 0 h;
  if is_nil (load values h) then Ok (NoValidNumbers invalid)
  else
    '(r, _) ← build_report values invalid h;
    Ok (Statistics r).

End Program.

Arguments report F : clear implicits.
Arguments outcome F : clear implicits.

(** ** The notions of the specification *)

Section Specification.
Context {F : Type} `{Arith F}.

(** What is at index [q] after the elements at [i] and [m] were swapped. *)
Definition transpose (i m q : nat) : nat :=
  if decide (q = i) then m else if decide (q = m) then i else q.

(** The rounds of the outer loop on the contents of the list. *)
Fixpoint sort_rounds (a : list F) (n i k : nat) : result (list F) :=
  match k with
  | O => Ok a
  | S k' => a' ← sort_step a n i; sort_rounds a' n (S i) k'
  end.

(** Below [i] the list is in its final order: no later element is
    smaller than an element before [i]. *)
Definition settled (a : list F) (i : nat) : Prop :=
  forall (p q : nat) x y,
    (p < i)%nat -> (p < q)%nat -> a !! p = Some x -> a !! q = Some y ->
    fltb y x = false.

(** Each element is less than or equal to its successor. *)
Definition ascending (l : list F) : Prop :=
  forall i x y, l !! i = Some x -> l !! S i = Some y -> fleb x y = true.

(** How often [v] occurs in [l], where two values are the same when [==]
    says so. *)
Fixpoint occurrences (v : F) (l : list F) : Z :=
  match l with
  | [] => 0
  | x :: r => (if feqb x v then 1 else 0) + occurrences v r
  end.

(** The values of [l] without repetition, each at its first occurrence. *)
Fixpoint first_occurrences (l : list F) : list F :=
  match l with
  | [] => []
  | x :: r => x :: List.filter (fun y => negb (feqb x y)) (first_occurrences r)
  end.

(** The largest number of occurrences of a value of [l]; 0 for []. *)
Definition max_occurrences (l : list F) : Z :=
  fold_right Z.max 0 (map (fun v => occurrences v l) l).

(** What the specification says [mode] returns. *)
Definition modal_values (l : list F) : list F :=
  if max_occurrences l <=? 1 then []
  else List.filter (fun v => occurrences v l =? max_occurrences l)
                   (first_occurrences l).

(** Some element of [l] is [==] to [v]. *)
Definition has (v : F) (l : list F) : bool := existsb (fun x => feqb x v) l.

(** No two keys are [==]. *)
Fixpoint distinct (ks : list F) : Prop :=
  match ks with
  | [] => True
  | k :: r => has k r = false /\ distinct r
  end.

(** The dictionary of counts, once the first loop is over. *)
Definition counts_of (l : list F) (ks : list F) : list (F * Z) :=
  map (fun k => (k, occurrences k l)) ks.

(** The values and the number of invalid tokens the loop of [main]
    ends with. *)
Fixpoint parse_tokens (tokens : list string) : result (list F * Z) :=
  match tokens with
  | [] => Ok ([], 0)
  | t :: tokens' =>
    match parse_number t with
    | Ok v => '(vs, k) ← parse_tokens tokens'; Ok (v :: vs, k)
    | Raise ValueError => '(vs, k) ← parse_tokens tokens'; Ok (vs, k + 1)
    | Raise e => Raise e
    end
  end.

(** The list object [main] creates. *)
Definition values_loc : loc := fresh (dom (∅ : gmap loc (list F))).

End Specification.

Arguments values_loc : clear implicits.

(** One Newton–Raphson step, [guess = 0.5 * (guess + x / guess)]. *)
Definition newton_step {F} `{Arith F} (x guess : F) : result F :=
  q ← fdiv x guess; Ok (fmul half (fadd guess q)).

(** [max(x, y)] *)
Definition fmax {F} `{Arith F} (x y : F) : F := if fltb x y then y else x.

(** [min(vs) <= med <= max(vs)]: [med] lies between a smallest and a
    largest value of [vs]. *)
Definition median_within {F} `{Arith F} (vs : list F) (med : F) : Prop :=
  exists lo hi,
    lo ∈ vs /\ hi ∈ vs /\
    (forall v, v ∈ vs -> fleb lo v = true /\ fleb v hi = true) /\
    fleb lo med = true /\ fleb med hi = true.

(** ** Classes of floats *)

(** The classes of [spec_float] the proofs tell apart. *)
Definition sf_nan (x : spec_float) : bool :=
  match x with S754_nan => true | _ => false end.

(** Not NaN, and with the sign [s]. *)
Definition sf_signed (s : bool) (x : spec_float) : bool :=
  match x with
  | S754_zero s' | S754_infinity s' | S754_finite s' _ _ => Bool.eqb s s'
  | S754_nan => false
  end.

Definition sf_finite (x : spec_float) : bool :=
  match x with
  | S754_zero _ | S754_finite _ _ _ => true
  | _ => false
  end.

Definition not_nan (x : float) : bool := negb (sf_nan (Prim2SF x)).
Definition is_finite (x : float) : bool := sf_finite (Prim2SF x).
(** Not NaN and not negative: [+0.0], a positive number or [+inf]. *)
Definition nonneg (x : float) : bool := sf_signed false (Prim2SF x).

(** A positive number: finite, not zero, sign +. *)
Definition positive_finite (x : float) : bool :=
  match Prim2SF x with
  | S754_finite false _ _ => true
  | _ => false
  end.

(** ** Sums of rationals *)

(** The sum of a list, as mathematics writes it. *)
Fixpoint sumQ (l : list Q) : Q :=
  match l with
  | [] => 0
  | x :: r => x + sumQ r
  end.

(** ** The text of a number *)

(** The digits [s] starts with, and what follows them. *)
Fixpoint digits_prefix (s : list ascii) : list ascii :=
  match s with
  | c :: r => if is_digit c then c :: digits_prefix r else []
  | [] => []
  end.

Fixpoint skip_digits (s : list ascii) : list ascii :=
  match s with
  | c :: r => if is_digit c then skip_digits r else s
  | [] => []
  end.

(** [value = value * 10 + digit], digit after digit. *)
Definition decimal (ds : list ascii) (value : Z) : Z :=
  fold_left (fun value c => value * 10 + (ord c - ord "0")) ds value.

Definition is_sign (c : ascii) : bool := Ascii.eqb c "-" || Ascii.eqb c "+".
Definition is_dot (c : ascii) : bool := Ascii.eqb c ".".

(** The five conditions of the specification, on the stripped token. *)
Definition well_formed (s : list ascii) : bool :=
  negb (is_nil s)                                               (* not empty *)
  && forallb (fun c => is_digit c || is_sign c || is_dot c) s   (* only [0-9+-.] *)
  && (Z.of_nat (length (List.filter is_dot s)) <=? 1)           (* at most one point *)
  && forallb (fun c => negb (is_sign c)) (tail s)               (* a sign only in front *)
  && existsb is_digit s.                                        (* a digit *)

(** The last [if] of [parse_number] lets the token through. *)
Definition accepted (s : list ascii) : bool :=
  negb (is_nil s) && sc_has_digit (scan s) && is_nil (sc_rest (scan s)).

(** The same on the token without its sign, [has_digit] being what the
    scan has seen before. *)
Definition accepted_body (has_digit : bool) (body : list ascii) : bool :=
  let has_digit := has_digit || negb (is_nil (digits_prefix body)) in
  match skip_digits body with
  | c :: r =>
    if is_dot c
    then (has_digit || negb (is_nil (digits_prefix r))) && is_nil (skip_digits r)
    else false
  | [] => has_digit
  end.

(** The conditions on the token without its sign. *)
Definition well_formed_body (has_digit : bool) (body : list ascii) : bool :=
  forallb (fun c => is_digit c || is_dot c) body
  && (Z.of_nat (length (List.filter is_dot body)) <=? 1)
  && (has_digit || existsb is_digit body).

(** The parts of a number as the specification names them. *)
Definition negative (s : list ascii) : bool :=
  match s with
  | c :: _ => Ascii.eqb c "-"
  | [] => false
  end.

Definition unsigned (s : list ascii) : list ascii :=
  match s with
  | c :: r => if is_sign c then r else s
  | [] => []
  end.

Definition integer_digits (s : list ascii) : list ascii :=
  digits_prefix (unsigned s).

Definition fraction_digits (s : list ascii) : list ascii :=
  match skip_digits (unsigned s) with
  | c :: r => if is_dot c then digits_prefix r else []
  | [] => []
  end.

Definition integer_part (s : list ascii) : Z := decimal (integer_digits s) 0.
Definition fractional_part (s : list ascii) : Z := decimal (fraction_digits s) 0.
Definition divisor (s : list ascii) : Z := 10 ^ Z.of_nat (length (fraction_digits s)).

(** ** Tokens at the edge of binary64 *)

(** A one followed by 309 zeros. *)
Definition huge_token : string :=
  String "1" (string_of_list_ascii (repeat "0"%char 309)).

(** A one followed by 308 zeros: the float 1e308. *)
Definition big_token : string :=
  String "1" (string_of_list_ascii (repeat "0"%char 308)).

(** The token 0.00...01 with 200 digits after the point: the float 1e-200. *)
Definition tiny_token : string :=
  String "0" (String "." (string_of_list_ascii (repeat "0"%char 199 ++ ["1"%char]))).

(** ** More of the program

    [read_tokens], and the notions the further properties of Part II are
    stated with. *)

(** [s.rstrip()], the second half of [strip]. *)
Definition rstrip (s : list ascii) : list ascii := rev (lstrip (rev s)).

(** [line.split()]: the maximal runs of characters that are not white
    space, in the order of the line; [word] is the run being read. *)
Fixpoint split_words (word : list ascii) (s : list ascii) : list string :=
  match s with
  | [] => if is_nil word then [] else [string_of_list_ascii word]
  | c :: r =>
    if is_space c
    then (if is_nil word then split_words [] r
          else string_of_list_ascii word :: split_words [] r)
    else split_words (word ++ [c]) r
  end.

Definition split (line : string) : list string :=
  split_words [] (list_ascii_of_string line).

(** [for line in f: tokens.extend(line.split())], the file object being
    the list of its lines. *)
Definition read_tokens (f : list string) : list string :=
  fold_left (fun tokens line => tokens ++ split line) f [].

(** No character of [s] is white space. *)
Definition no_space (s : list ascii) : bool := forallb (fun c => negb (is_space c)) s.

(** The line is empty or ends with white space, as every line of a text
    file but the last one does (with its newline). *)
Definition ends_line (line : string) : bool :=
  match rev (list_ascii_of_string line) with
  | c :: _ => is_space c
  | [] => true
  end.

(** The float [y] is the integer [n], without rounding. *)
Definition float_is_int (y : float) (n : Z) : Prop :=
  match Prim2SF y with
  | S754_zero _ => n = 0
  | S754_finite s m e => e <= 0 /\ cond_Zopp s (Z.pos m) = n * 2 ^ (- e)
  | _ => False
  end.

(** [t] does not start with a sign or with white space. *)
Definition starts_plain (t : string) : bool :=
  match t with
  | String c _ => negb (is_sign c) && negb (is_space c)
  | EmptyString => true
  end.

(** The report [r] with another number of invalid tokens. *)
Definition with_invalid {F} (invalid : Z) (r : report F) : report F :=
  {| r_count := r_count r; r_invalid := invalid;
     r_mean := r_mean r; r_median := r_median r; r_mode := r_mode r;
     r_variance := r_variance r; r_std := r_std r |}.

(** [parse_number] returns a value for the token [t]. *)
Definition parses {F} `{Arith F} (t : string) : bool := is_ok (parse_number (F:=F) t).

(** The sum of the counts of a dictionary. *)
Definition total_count {F} (counts : list (F * Z)) : Z :=
  fold_right Z.add 0 (map snd counts).

(** The number is at most 1: zero, or [m * 2^e] with [m <= 2^(-e)]. *)
Definition sf_le_one (x : spec_float) : bool :=
  match x with
  | S754_zero _ => true
  | S754_finite _ m e => (e <=? 0) && (Z.pos m <=? 2 ^ (- e))
  | _ => false
  end.

(** The value of a finite float in units of [2^-1074], the smallest
    positive float: an integer. *)
Definition sf_units (x : spec_float) : Z :=
  match x with
  | S754_finite s m e => cond_Zopp s (Z.pos m * 2 ^ (e + 1074))
  | _ => 0
  end.

(** [n] units can be written with a mantissa of 53 bits: [n] is a float,
    were there no largest exponent. *)
Definition in_format (n : Z) : Prop :=
  exists m e, n = m * 2 ^ (e + 1074) /\ 0 <= m < 2 ^ 53 /\ -1074 <= e.

(** The float a rounding packs the mantissa [m2] and the exponent [E]
    into. *)
Definition sf_pack (s : bool) (m2 E : Z) : spec_float :=
  match m2 with
  | 0 => S754_zero s
  | Z.pos p =>
    if m2 =? 2 ^ 53
    then (if E + 1 <=? 971 then S754_finite s 4503599627370496 (E + 1)
          else S754_infinity s)
    else (if E <=? 971 then S754_finite s p E else S754_infinity s)
  | Z.neg _ => S754_nan
  end.

(** The value of a finite float in units of [2^-1074]; [1.0] is
    [2^1074] units. *)
Definition units (x : float) : Z := sf_units (Prim2SF x).

(** * convertNumbers.py *)

#[local] Set Warnings "-funind-cannot-define-principle,-funind-cannot-build-inversion".

Module ConvertNumbers.

Definition HEX_DIGITS : list ascii := list_ascii_of_string "0123456789ABCDEF".

(** ** parse_int *)

(** The [while] loop, on the unread suffix [s[i:]]. *)
Fixpoint parse_int_loop (rest : list ascii) (value : Z) : result Z :=
  match rest with
  | [] => Ok value
  | ch :: rest' =>
    if (ord ch <? ord "0") || (ord "9" <? ord ch) then Raise ValueError
    else parse_int_loop rest' (value * 10 + (ord ch - ord "0"))
  end.

Definition parse_int (token : string) : result Z :=
  let s := strip (list_ascii_of_string token) in
  if is_nil s then Raise ValueError
  else
    let '(sign, rest) :=
      match s with
      | c :: r =>
        if Ascii.eqb c "-" then (-1, r)
        else if Ascii.eqb c "+" then (1, r)
        else (1, s)
      | [] => (1, s)
      end in
    if is_nil rest then Raise ValueError
    else value ← parse_int_loop rest 0; Ok (sign * value).

(** ** to_binary *)

(** [while n > 0: digits.append("1" if (n % 2) == 1 else "0"); n //= 2] *)
Function to_binary_loop (n : Z) (digits : list ascii) {measure Z.to_nat n}
  : list ascii :=
  if 0 <? n
  then to_binary_loop (n / 2) (digits ++ [if n mod 2 =? 1 then "1"%char else "0"%char])
  else digits.
Proof.
  intros n _ Hn. apply Z.ltb_lt in Hn.
  assert (0 <= n / 2 < n); [|lia]. split; [apply Z.div_pos; lia|apply Z.div_lt; lia].
Defined.

Definition to_binary (n : Z) : string :=
  if n =? 0 then "0"%string
  else
    let '(sign, n) := if n <? 0 then ("-"%string, - n) else (EmptyString, n) in
    let digits := to_binary_loop n [] in
    (sign ++ string_of_list_ascii (rev digits))%string.

(** ** to_hex *)

(** [while n > 0: digits.append(HEX_DIGITS[n % 16]); n //= 16] *)
Function to_hex_loop (n : Z) (digits : list ascii) {measure Z.to_nat n}
  : result (list ascii) :=
  if 0 <? n
  then
    match py_index HEX_DIGITS (n mod 16) with
    | Ok d => to_hex_loop (n / 16) (digits ++ [d])
    | Raise e => Raise e
    end
  else Ok digits.
Proof.
  intros n _ Hn _ _. apply Z.ltb_lt in Hn.
  assert (0 <= n / 16 < n); [|lia]. split; [apply Z.div_pos; lia|apply Z.div_lt; lia].
Defined.

Definition to_hex (n : Z) : result string :=
  if n =? 0 then Ok "0"%string
  else
    let '(sign, n) := if n <? 0 then ("-"%string, - n) else (EmptyString, n) in
    digits ← to_hex_loop n [];
    Ok (sign ++ string_of_list_ascii (rev digits))%string.

(** ** build_report *)

(** A line of the table: the three columns of a converted token, or the
    error line of a token that was skipped. *)
Inductive line :=
  | Row (n : Z) (b h : string)
  | ErrorLine (t : string).

(** CPython does not write the decimal digits of an int that has more of
    them than [sys.get_int_max_str_digits()] allows: [str], [format] and
    an f-string raise [ValueError].  The limit [max_str_digits] is 4300
    unless the interpreter was configured otherwise, and 0 stands for no
    limit.  An int has more than [k] digits when it is [10^k] or more in
    absolute value. *)
Definition exceeds_str_digits (max_str_digits n : Z) : bool :=
  (0 <? max_str_digits) && (10 ^ max_str_digits <=? Z.abs n).

(** The body of the [try]: the f-string of the row formats [n] first. *)
Definition convert (max_str_digits : Z) (t : string) : result line :=
  n ← parse_int t;
  let b := to_binary n in
  h ← to_hex n;
  if exceeds_str_digits max_str_digits n then Raise ValueError
  else Ok (Row n b h).

(** [for t in tokens: try: ... except ValueError: ...] *)
Fixpoint build_report_loop (max_str_digits : Z) (tokens : list string)
         (lines : list line) (valid_count invalid_count : Z)
  : result (list line * Z * Z) :=
  match tokens with
  | [] => Ok (lines, valid_count, invalid_count)
  | t :: tokens' =>
    match convert max_str_digits t with
    | Ok row =>
      build_report_loop max_str_digits tokens' (lines ++ [row])
                        (valid_count + 1) invalid_count
    | Raise ValueError =>
      build_report_loop max_str_digits tokens' (lines ++ [ErrorLine t])
                        valid_count (invalid_count + 1)
    | Raise e => Raise e
    end
  end.

(** The lines after the five lines of the heading, and the two counts. *)
Definition build_report (max_str_digits : Z) (tokens : list string)
  : result (list line * Z * Z) :=
  build_report_loop max_str_digits tokens [] 0 0.

End ConvertNumbers.

(** What a string of digits denotes in base [base], [digit_value]
    giving the value of a digit. *)
Definition radix_value (base : Z) (digit_value : ascii -> Z) (ds : list ascii) : Z :=
  fold_left (fun v c => v * base + digit_value c) ds 0.

(** The value of a decimal digit. *)
Definition digit_value (c : ascii) : Z := ord c - ord "0".

(** The value of a hexadecimal digit, ["0"] to ["9"] and ["A"] to ["F"]. *)
Definition hex_digit_value (c : ascii) : Z :=
  if is_digit c then ord c - ord "0" else ord c - ord "A" + 10.

Definition is_hex_digit (c : ascii) : bool :=
  is_digit c || ((ord "A" <=? ord c) && (ord c <=? ord "F")).

Definition is_bit (c : ascii) : bool := Ascii.eqb c "0" || Ascii.eqb c "1".

(** What a numeral with an optional minus sign denotes. *)
Definition signed_value (base : Z) (digit_value : ascii -> Z) (s : string) : Z :=
  match list_ascii_of_string s with
  | c :: r => if Ascii.eqb c "-" then - radix_value base digit_value r
              else radix_value base digit_value (c :: r)
  | [] => 0
  end.



(** * wordCount.py *)

Module WordCount.

Definition is_letter_or_digit (ch : ascii) : bool :=
  ((ord "a" <=? ord ch) && (ord ch <=? ord "z"))
  || ((ord "A" <=? ord ch) && (ord ch <=? ord "Z"))
  || ((ord "0" <=? ord ch) && (ord ch <=? ord "9")).

(** [str.lower()] on a code point below 256: the capitals A to Z, and the
    capitals of Latin-1 (192 to 222 without the multiplication sign 215),
    have their small letter 32 places further. *)
Definition lower_char (c : ascii) : ascii :=
  let n := ord c in
  if ((65 <=? n) && (n <=? 90)) || ((192 <=? n) && (n <=? 222) && negb (n =? 215))
  then ascii_of_nat (Z.to_nat (n + 32))
  else c.

(** [s.lower()] for a string of such characters: character by
    character. *)
Definition lower (s : list ascii) : list ascii := map lower_char s.

(** ** normalize_word *)

(** The two indices are kept as the window [s[left:right+1]] between
    them: [left <= right] reads "the window is not empty", [s[left]] is its
    first character and [s[right]] its last one.

    [while left <= right and not is_letter_or_digit(s[left]): left += 1] *)
Fixpoint left_loop (window : list ascii) : list ascii :=
  match window with
  | c :: r => if negb (is_letter_or_digit c) then left_loop r else window
  | [] => []
  end.

(** [while right >= left and not is_letter_or_digit(s[right]): right -= 1],
    on the window read from its end. *)
Fixpoint right_loop_rev (window_rev : list ascii) : list ascii :=
  match window_rev with
  | c :: r => if negb (is_letter_or_digit c) then right_loop_rev r else window_rev
  | [] => []
  end.

Definition right_loop (window : list ascii) : list ascii :=
  rev (right_loop_rev (rev window)).

Definition normalize_word (raw : string) : string :=
  let s := strip (list_ascii_of_string raw) in
  if is_nil s then EmptyString
  else
    let window := right_loop (left_loop s) in
    if is_nil window then EmptyString    (* left > right *)
    else string_of_list_ascii (lower window).

(** ** count_words *)

(** The dictionary [counts]: its entries in insertion order. *)

(** [word in counts] *)
Fixpoint contains (counts : list (string * Z)) (word : string) : bool :=
  match counts with
  | [] => false
  | (k, _) :: counts' => String.eqb k word || contains counts' word
  end.

(** [counts[word] += 1], for a key of the dictionary. *)
Fixpoint increment (counts : list (string * Z)) (word : string) : list (string * Z) :=
  match counts with
  | [] => []
  | (k, c) :: counts' =>
    if String.eqb k word then (k, c + 1) :: counts' else (k, c) :: increment counts' word
  end.

Fixpoint count_words_loop (tokens : list string) (counts : list (string * Z))
         (valid invalid : Z) : list (string * Z) * Z * Z :=
  match tokens with
  | [] => (counts, valid, invalid)
  | token :: tokens' =>
    let word := normalize_word token in
    if String.eqb word EmptyString                      (* not word *)
    then count_words_loop tokens' counts valid (invalid + 1)
    else
      let counts :=
        if contains counts word then increment counts word
        else counts ++ [(word, 1)] in                   (* counts[word] = 1 *)
      count_words_loop tokens' counts (valid + 1) invalid
  end.

Definition count_words (tokens : list string) : list (string * Z) * Z * Z :=
  count_words_loop tokens [] 0 0.

End WordCount.

(** [counts.get(word, 0)] *)
Fixpoint count_of (counts : list (string * Z)) (word : string) : Z :=
  match counts with
  | [] => 0
  | (k, c) :: counts' => if String.eqb k word then c else count_of counts' word
  end.

(** A small letter of ASCII or a digit. *)
Definition is_small_or_digit (c : ascii) : bool :=
  ((ord "a" <=? ord c) && (ord c <=? ord "z")) || is_digit c.

(** The first and the last character of [w], if any, are letters or
    digits. *)
Definition trimmed (w : list ascii) : Prop :=
  (forall c, head w = Some c -> WordCount.is_letter_or_digit c = true)
  /\ (forall c, last w = Some c -> WordCount.is_letter_or_digit c = true).

(** What holds of every entry of the dictionary of [count_words]. *)
Definition entry_ok (kc : string * Z) : Prop :=
  1 <= snd kc /\ fst kc <> EmptyString /\ WordCount.normalize_word (fst kc) = fst kc.

(** The number of tokens whose normal form is [w]. *)
Definition occurrences_of (w : string) (tokens : list string) : Z :=
  Z.of_nat (length (List.filter (fun t => String.eqb (WordCount.normalize_word t) w) tokens)).

(** A capital letter of ASCII made small; any other character as it
    is. *)
Definition ascii_lower (c : ascii) : ascii :=
  let n := ord c in
  if (65 <=? n) && (n <=? 90) then ascii_of_nat (Z.to_nat (n + 32)) else c.

(** * Part II: proofs *)

(** * Facts about binary64

    [SpecFloat] gives the operations of IEEE 754 on [spec_float];
    [FloatAxioms] states that the primitive floats implement them. *)

Ltac fold_pos_compare :=
  repeat match goal with
  | |- context [PosDef.Pos.compare_cont Eq ?a ?b] =>
    change (PosDef.Pos.compare_cont Eq a b) with (Pos.compare a b)
  | H : context [PosDef.Pos.compare_cont Eq ?a ?b] |- _ =>
    change (PosDef.Pos.compare_cont Eq a b) with (Pos.compare a b) in H
  end.

Ltac cmp_cases :=
  fold_pos_compare;
  repeat match goal with
  | |- context [Z.compare ?a ?b] => destruct (Z.compare_spec a b)
  | |- context [Pos.compare ?a ?b] => destruct (Pos.compare_spec a b)
  | H : context [Z.compare ?a ?b] |- _ => destruct (Z.compare_spec a b)
  | H : context [Pos.compare ?a ?b] |- _ => destruct (Pos.compare_spec a b)
  end.

Ltac sf_cases x := destruct x as [[]|[]| |[] ? ?].

Lemma SFcompare_refl x : sf_nan x = false -> SFcompare x x = Some Eq.
Proof.
  sf_cases x; simpl; try done; intros _; cmp_cases; simpl; try done; lia.
Qed.

Lemma SFcompare_antisym x y :
  SFcompare y x = option_map CompOpp (SFcompare x y).
Proof.
  sf_cases x; sf_cases y; simpl; try done; cmp_cases; simpl; try done; lia.
Qed.

Lemma SFltb_trans x y z :
  SFltb x y = true -> SFltb y z = true -> SFltb x z = true.
Proof.
  unfold SFltb.
  sf_cases x; sf_cases y; sf_cases z;
    simpl; try done; intros; cmp_cases; simpl in *; try done; try lia.
Qed.

Lemma SFleb_trans x y z :
  SFleb x y = true -> SFleb y z = true -> SFleb x z = true.
Proof.
  unfold SFleb.
  sf_cases x; sf_cases y; sf_cases z;
    simpl; try done; intros; cmp_cases; simpl in *; try done; try lia.
Qed.

Lemma SFeqb_trans x y z :
  SFeqb x y = true -> SFeqb y z = true -> SFeqb x z = true.
Proof.
  unfold SFeqb.
  sf_cases x; sf_cases y; sf_cases z;
    simpl; try done; intros; cmp_cases; simpl in *; try done; try lia.
Qed.

(** ** Sign and class of rounded results *)

Lemma iter_pos_invariant {A} (P : A -> Prop) (f : A -> A) :
  (forall x, P x -> P (f x)) -> forall n x, P x -> P (SpecFloat.iter_pos f n x).
Proof.
  intros Hf n. induction n as [n IH|n IH|]; simpl; intros x Hx; auto.
Qed.

Lemma shr_1_nonneg mrs : 0 <= shr_m mrs -> 0 <= shr_m (shr_1 mrs).
Proof.
  destruct mrs as [m r s]. simpl.
  destruct m as [|[p|p|]|[p|p|]]; simpl; lia.
Qed.

Lemma shr_nonneg mrs e n : 0 <= shr_m mrs -> 0 <= shr_m (fst (shr mrs e n)).
Proof.
  intros Hm. destruct n as [|p|p]; simpl; try done.
  apply (iter_pos_invariant (fun x => 0 <= shr_m x)); auto using shr_1_nonneg.
Qed.

Lemma shr_record_of_loc_m m l : shr_m (shr_record_of_loc m l) = m.
Proof. destruct l as [|[]]; reflexivity. Qed.

Lemma shr_fexp_nonneg p e m ex l :
  0 <= m -> 0 <= shr_m (fst (shr_fexp p e m ex l)).
Proof.
  intros Hm. unfold shr_fexp. apply shr_nonneg. by rewrite shr_record_of_loc_m.
Qed.

Lemma round_nearest_even_nonneg m l : 0 <= m -> 0 <= round_nearest_even m l.
Proof.
  intros Hm. destruct l as [|[]]; simpl; try lia. destruct (Z.even m); lia.
Qed.

Lemma binary_round_aux_signed p e sx mx ex lx :
  0 <= mx -> sf_signed sx (binary_round_aux p e sx mx ex lx) = true.
Proof.
  intros Hm. unfold binary_round_aux.
  pose proof (shr_fexp_nonneg p e mx ex lx Hm) as H1.
  destruct (shr_fexp p e mx ex lx) as [mrs' e'] eqn:E1. simpl in H1.
  pose proof (shr_fexp_nonneg p e _ e' loc_Exact
                (round_nearest_even_nonneg _ (loc_of_shr_record mrs') H1)) as H2.
  destruct (shr_fexp p e _ e' loc_Exact) as [mrs'' e''] eqn:E2. simpl in H2.
  destruct (shr_m mrs'') as [|m|m]; simpl.
  - by destruct sx.
  - destruct (e'' <=? e - p); simpl; by destruct sx.
  - lia.
Qed.

Lemma binary_round_signed p e sx mx ex :
  sf_signed sx (binary_round p e sx mx ex) = true.
Proof.
  unfold binary_round. destruct (shl_align _ _ _) as [mz ez].
  by apply binary_round_aux_signed.
Qed.

Lemma sf_signed_not_nan s x : sf_signed s x = true -> sf_nan x = false.
Proof. by destruct x. Qed.

Lemma binary_normalize_not_nan p e m ex sz :
  sf_nan (binary_normalize p e m ex sz) = false.
Proof.
  destruct m; simpl; try done; eapply sf_signed_not_nan, binary_round_signed.
Qed.

Lemma SFmul_self_signed p e x :
  sf_nan x = false -> sf_signed false (SFmul p e x x) = true.
Proof.
  sf_cases x; simpl; try done; intros _; by apply binary_round_aux_signed.
Qed.

Lemma SFadd_signed p e x y :
  sf_signed false x = true -> sf_signed false y = true ->
  sf_signed false (SFadd p e x y) = true.
Proof.
  sf_cases x; sf_cases y; simpl; try done; intros _ _.
  apply binary_round_signed.
Qed.

Lemma SFadd_not_nan p e x y :
  sf_nan x = false -> sf_finite y = true -> sf_nan (SFadd p e x y) = false.
Proof.
  sf_cases x; sf_cases y; simpl; try done; intros _ _;
    first [ apply binary_normalize_not_nan
          | eapply sf_signed_not_nan, binary_round_signed ].
Qed.

Lemma SFsub_not_nan p e x y :
  sf_finite x = true -> sf_nan y = false -> sf_nan (SFsub p e x y) = false.
Proof.
  sf_cases x; sf_cases y; simpl; try done; intros _ _;
    first [ apply binary_normalize_not_nan
          | eapply sf_signed_not_nan, binary_round_signed ].
Qed.

Lemma SFdiv_core_binary_nonneg p e m1 e1 m2 e2 :
  0 <= m1 -> 0 < m2 -> 0 <= fst (fst (SFdiv_core_binary p e m1 e1 m2 e2)).
Proof.
  intros H1 H2. unfold SFdiv_core_binary.
  set (s := _ - _ - _). set (m' := match s with Z0 => _ | Zpos _ => _ | Zneg _ => _ end).
  assert (0 <= m') as Hm'.
  { subst m'. destruct s; try lia. by apply Z.shiftl_nonneg. }
  pose proof (Z.div_pos m' m2 Hm' H2) as Hq. unfold Z.div in Hq.
  by destruct (Z.div_eucl m' m2) as [q r].
Qed.

Lemma SFdiv_signed p e x m ex :
  sf_signed false x = true ->
  sf_signed false (SFdiv p e x (S754_finite false m ex)) = true.
Proof.
  sf_cases x; simpl; try done; intros _.
  match goal with |- context [SFdiv_core_binary ?a ?b ?c ?d ?f ?g] =>
    pose proof (SFdiv_core_binary_nonneg a b c d f g) as Hq;
    destruct (SFdiv_core_binary a b c d f g) as [[q e'] l] end.
  apply binary_round_aux_signed. simpl in Hq. apply Hq; lia.
Qed.

Lemma SFdiv_not_nan p e x s m ex :
  sf_nan x = false -> sf_nan (SFdiv p e x (S754_finite s m ex)) = false.
Proof.
  sf_cases x; destruct s; simpl; try done; intros _.
  all: match goal with |- context [SFdiv_core_binary ?a ?b ?c ?d ?f ?g] =>
    pose proof (SFdiv_core_binary_nonneg a b c d f g) as Hq;
    destruct (SFdiv_core_binary a b c d f g) as [[q e'] l] end.
  all: eapply sf_signed_not_nan, binary_round_aux_signed; simpl in Hq; apply Hq; lia.
Qed.

Lemma digits2_pos_size p : digits2_pos p = Pos.size p.
Proof. induction p; simpl; congruence. Qed.

Lemma digits2_pos_iter_xO p k :
  digits2_pos (Pos.iter xO p k) = (digits2_pos p + k)%positive.
Proof.
  induction k using Pos.peano_ind.
  - simpl. lia.
  - rewrite Pos.iter_succ. simpl. rewrite IHk. lia.
Qed.

Lemma digits2_pos_bound p n :
  0 <= n -> Z.pos p < 2 ^ n -> Z.pos (digits2_pos p) <= n.
Proof.
  intros Hn Hp. rewrite digits2_pos_size.
  pose proof (Pos.size_le p) as Hle.
  apply Pos2Z.pos_le_pos in Hle. rewrite Pos2Z.inj_pow in Hle.
  change (Z.pos p~0) with (2 * Z.pos p) in Hle.
  destruct (Z.le_gt_cases (Z.pos (Pos.size p)) n) as [|Hgt]; [done|].
  assert (2 ^ (n + 1) <= 2 ^ Z.pos (Pos.size p)) by (apply Z.pow_le_mono_r; lia).
  rewrite Z.pow_add_r in * by lia. lia.
Qed.

(** A rounding step that has nothing to round. *)
Lemma binary_round_aux_exact m ex :
  Z.pos (digits2_pos m) = 53 -> -1074 <= ex <= 971 ->
  binary_round_aux prec emax false (Z.pos m) ex loc_Exact = S754_finite false m ex.
Proof.
  intros Hd He. unfold binary_round_aux, shr_fexp. simpl Zdigits2. rewrite Hd.
  assert (fexp prec emax (53 + ex) - ex = 0) as ->.
  { unfold fexp, SpecFloat.emin, prec, emax. lia. }
  simpl. rewrite Hd.
  assert (fexp prec emax (53 + ex) - ex = 0) as ->.
  { unfold fexp, SpecFloat.emin, prec, emax. lia. }
  simpl. change (emax - prec) with 971.
  destruct (Z.leb_spec ex 971); [done|lia].
Qed.

Lemma Z_to_sf_small p :
  Z.pos p < 2 ^ 53 ->
  exists m e, binary_normalize prec emax (Z.pos p) 0 false = S754_finite false m e
              /\ valid_binary (S754_finite false m e) = true.
Proof.
  intros Hp. pose proof (digits2_pos_bound p 53 ltac:(lia) Hp) as Hd.
  unfold binary_normalize, binary_round.
  assert (fexp prec emax (Z.pos (digits2_pos p) + 0) = Z.pos (digits2_pos p) - 53) as ->.
  { unfold fexp, SpecFloat.emin, prec, emax. lia. }
  unfold shl_align.
  destruct (Z.pos (digits2_pos p) - 53 - 0) as [|k|k] eqn:Ek; try lia.
  - exists p, 0. rewrite binary_round_aux_exact by lia. split; [done|].
    unfold valid_binary, bounded, canonical_mantissa, fexp, SpecFloat.emin, prec, emax.
    apply andb_true_iff; split; [apply Z.eqb_eq|apply Z.leb_le]; lia.
  - exists (Pos.iter xO p k), (Z.pos (digits2_pos p) - 53).
    assert (Z.pos (digits2_pos (Pos.iter xO p k)) = 53) as Hk.
    { rewrite digits2_pos_iter_xO. lia. }
    rewrite binary_round_aux_exact by lia. split; [done|].
    unfold valid_binary, bounded, canonical_mantissa. rewrite Hk.
    unfold fexp, SpecFloat.emin, prec, emax.
    apply andb_true_iff; split; [apply Z.eqb_eq|apply Z.leb_le]; lia.
Qed.

(** ** The primitive floats *)

Lemma float_ltb_irrefl x : PrimFloat.ltb x x = false.
Proof.
  rewrite FloatAxioms.ltb_spec. unfold SFltb.
  destruct (sf_nan (Prim2SF x)) eqn:E.
  - by destruct (Prim2SF x).
  - by rewrite SFcompare_refl.
Qed.

Lemma float_ltb_trans x y z :
  PrimFloat.ltb x y = true -> PrimFloat.ltb y z = true -> PrimFloat.ltb x z = true.
Proof. rewrite !FloatAxioms.ltb_spec. apply SFltb_trans. Qed.

Lemma float_leb_ltb x y :
  not_nan x = true -> not_nan y = true ->
  PrimFloat.leb x y = negb (PrimFloat.ltb y x).
Proof.
  unfold not_nan. rewrite FloatAxioms.leb_spec, FloatAxioms.ltb_spec. unfold SFleb, SFltb.
  rewrite (SFcompare_antisym (Prim2SF x) (Prim2SF y)).
  destruct (Prim2SF x) as [[]|[]| |[] ? ?], (Prim2SF y) as [[]|[]| |[] ? ?];
    simpl; try done; intros _ _; cmp_cases; done.
Qed.

Lemma float_leb_trans x y z :
  PrimFloat.leb x y = true -> PrimFloat.leb y z = true -> PrimFloat.leb x z = true.
Proof. rewrite !FloatAxioms.leb_spec. apply SFleb_trans. Qed.

Lemma float_eqb_refl x : not_nan x = true -> PrimFloat.eqb x x = true.
Proof.
  unfold not_nan. rewrite FloatAxioms.eqb_spec. unfold SFeqb. intros Hx.
  rewrite SFcompare_refl; [done|]. by destruct (sf_nan (Prim2SF x)).
Qed.

Lemma float_eqb_sym x y : PrimFloat.eqb x y = PrimFloat.eqb y x.
Proof.
  rewrite !FloatAxioms.eqb_spec. unfold SFeqb.
  rewrite (SFcompare_antisym (Prim2SF x) (Prim2SF y)).
  by destruct (SFcompare (Prim2SF x) (Prim2SF y)) as [[]|].
Qed.

Lemma float_eqb_trans x y z :
  PrimFloat.eqb x y = true -> PrimFloat.eqb y z = true -> PrimFloat.eqb x z = true.
Proof. rewrite !FloatAxioms.eqb_spec. apply SFeqb_trans. Qed.

Lemma float_ltb_not_nan x y : PrimFloat.ltb x y = true -> not_nan y = true.
Proof.
  rewrite FloatAxioms.ltb_spec. unfold not_nan, SFltb.
  by destruct (Prim2SF x) as [[]|[]| |[] ? ?], (Prim2SF y) as [[]|[]| |[] ? ?].
Qed.

(** ** The laws of the two arithmetics *)

Global Instance binary64_laws : ArithLaws float (fun x => not_nan x = true).
Proof.
  split; simpl.
  - apply float_ltb_irrefl.
  - apply float_ltb_trans.
  - apply float_leb_ltb.
  - apply float_leb_trans.
  - apply float_eqb_refl.
  - apply float_eqb_sym.
  - apply float_eqb_trans.
  - reflexivity.
Qed.

Global Instance exact_laws : ArithLaws Q (fun _ => True).
Proof.
  split; simpl.
  - intros x. apply negb_false_iff, Qle_bool_iff, Qle_refl.
  - intros x y z Hxy Hyz.
    apply negb_true_iff, not_true_iff_false in Hxy, Hyz.
    apply negb_true_iff, not_true_iff_false. rewrite Qle_bool_iff in *.
    intros Hzx. apply Hyz. apply Qnot_le_lt in Hxy.
    apply Qlt_le_weak. eapply Qle_lt_trans; eauto.
  - intros x y _ _. by rewrite negb_involutive.
  - intros x y z. rewrite !Qle_bool_iff. apply Qle_trans.
  - intros x _. apply Qeq_bool_iff. reflexivity.
  - intros x y. apply eq_true_iff_eq. rewrite !Qeq_bool_iff. split; intros E; by symmetry.
  - intros x y z. rewrite !Qeq_bool_iff. intros -> ->. reflexivity.
  - reflexivity.
Qed.

(** * The result monad *)

Lemma bind_Ok {A B} (f : A -> result B) (m : result A) (b : B) :
  m ≫= f = Ok b <-> exists a, m = Ok a /\ f a = Ok b.
Proof.
  destruct m as [a|e]; simpl.
  - split; [by exists a|]. by intros (a' & [= ->] & ?).
  - split; [done|]. by intros (a' & ? & ?).
Qed.

(** * selection_sort *)

Section Sorting.
Context {F : Type} `{Arith F} (ok : F -> Prop) `{!ArithLaws F ok}.
Local Open Scope nat_scope.

Lemma get_Ok (l : list F) i x : get l i = Ok x <-> l !! i = Some x.
Proof. unfold get. destruct (l !! i); split; intros; by simplify_eq. Qed.

Lemma get_lt (l : list F) i : i < length l -> exists x, get l i = Ok x /\ l !! i = Some x.
Proof.
  intros Hi. destruct (lookup_lt_is_Some_2 l i Hi) as [x Hx].
  exists x. split; [by apply get_Ok|done].
Qed.

(** The inner loop returns the index of an element that none of the
    elements it has looked at is smaller than. *)
Lemma find_min_spec (l : list F) k : forall m j xm,
  l !! m = Some xm -> j + k <= length l ->
  exists m' x',
    find_min l m j k = Ok m' /\ l !! m' = Some x' /\
    (m' = m \/ j <= m' < j + k) /\
    (forall z, fltb z xm = false -> fltb z x' = false) /\
    (forall p xp, j <= p < j + k -> l !! p = Some xp -> fltb xp x' = false).
Proof.
  induction k as [|k IH]; intros m j xm Hm Hjk; simpl.
  - exists m, xm. repeat split; auto. intros; lia.
  - destruct (get_lt l j ltac:(lia)) as (aj & -> & Hj). simpl.
    rewrite (proj2 (get_Ok l m xm) Hm). simpl.
    destruct (fltb aj xm) eqn:Hlt.
    + destruct (IH j (S j) aj Hj ltac:(lia)) as (m' & x' & -> & Hm' & Hpos & Hle & Hall).
      exists m', x'. repeat split; auto.
      * lia.
      * intros z Hz. apply Hle. destruct (fltb z aj) eqn:Hzj; [|done].
        by rewrite (ltb_trans z aj xm Hzj Hlt) in Hz.
      * intros p xp Hp Hxp. destruct (decide (p = j)) as [->|].
        -- simplify_eq. apply Hle, ltb_irrefl.
        -- apply (Hall p); [lia|done].
    + destruct (IH m (S j) xm Hm ltac:(lia)) as (m' & x' & -> & Hm' & Hpos & Hle & Hall).
      exists m', x'. repeat split; auto.
      * lia.
      * intros p xp Hp Hxp. destruct (decide (p = j)) as [->|].
        -- simplify_eq. by apply Hle.
        -- apply (Hall p); [lia|done].
Qed.

Lemma swap_spec (l : list F) i m xi xm :
  l !! i = Some xi -> l !! m = Some xm ->
  exists l', swap l i m = Ok l' /\ l' ≡ₚ l /\ length l' = length l /\
             forall q, l' !! q = l !! transpose i m q.
Proof.
  intros Hi Hm. unfold swap.
  rewrite (proj2 (get_Ok l m xm) Hm), (proj2 (get_Ok l i xi) Hi). simpl.
  eexists. split; [done|]. split; [|split].
  - by apply Permutation_insert_swap.
  - by rewrite !length_insert.
  - intros q. unfold transpose.
    pose proof (lookup_lt_Some _ _ _ Hi). pose proof (lookup_lt_Some _ _ _ Hm).
    destruct (decide (q = m)) as [->|Hqm].
    + rewrite list_lookup_insert_eq by (by rewrite length_insert).
      destruct (decide (m = i)) as [->|]; congruence.
    + rewrite list_lookup_insert_ne by done.
      destruct (decide (q = i)) as [->|Hqi].
      * by rewrite list_lookup_insert_eq.
      * by rewrite list_lookup_insert_ne.
Qed.

Lemma sort_step_spec (a : list F) i :
  i < length a -> settled a i ->
  exists a', sort_step a (length a) i = Ok a' /\ a' ≡ₚ a /\ settled a' (S i).
Proof.
  intros Hi Hset. unfold sort_step.
  destruct (lookup_lt_is_Some_2 a i Hi) as [xi Hxi].
  destruct (find_min_spec a (length a - S i) i (S i) xi Hxi ltac:(lia))
    as (m & xm & -> & Hm & Hpos & Hle & Hall). simpl.
  destruct (swap_spec a i m xi xm Hxi Hm) as (a' & -> & Hperm & Hlen & Hlook).
  exists a'. split; [done|]. split; [done|].
  intros p q x y Hp Hpq. rewrite !Hlook. unfold transpose.
  intros Hx Hy.
  assert (q < length a) as Hq.
  { rewrite <- Hlen. apply (lookup_lt_Some a' q y). by rewrite Hlook. }
  destruct (decide (p = i)) as [->|Hne].
  - simplify_eq. destruct (decide (q = i)); [lia|].
    destruct (decide (q = m)) as [->|].
    + simplify_eq. apply Hle, ltb_irrefl.
    + apply (Hall q); [lia|done].
  - destruct (decide (p = m)); [lia|].
    apply (Hset p (transpose i m q)); [lia| |done|done].
    unfold transpose. repeat case_decide; lia.
Qed.

Lemma sort_rounds_spec k : forall (a : list F) i,
  i + k = length a -> settled a i ->
  exists a', sort_rounds a (length a) i k = Ok a' /\ a' ≡ₚ a /\
             settled a' (length a).
Proof.
  induction k as [|k IH]; intros a i Hik Hset; simpl.
  - exists a. replace (length a) with i by lia. auto.
  - destruct (sort_step_spec a i ltac:(lia) Hset) as (a1 & -> & Hperm & Hset1). simpl.
    pose proof (Permutation_length Hperm) as Hlen.
    destruct (IH a1 (S i) ltac:(lia) Hset1) as (a' & Hrun & Hperm' & Hset').
    rewrite Hlen in Hrun, Hset'.
    exists a'. split; [done|]. split; [by etrans|done].
Qed.

(** The loop on the list object does the rounds on its contents and
    touches no other object. *)
Lemma sort_loop_rounds (arr : loc) n k : forall i (h : gmap loc (list F)) a,
  h !! arr = Some a ->
  sort_loop arr n i k h = a' ← sort_rounds a n i k; Ok (<[arr := a']> h).
Proof.
  induction k as [|k IH]; intros i h a Ha; simpl.
  - by rewrite insert_id.
  - unfold load. rewrite (lookup_total_correct _ _ _ Ha).
    destruct (sort_step a n i) as [a1|e]; simpl; [|done].
    rewrite (IH (S i) _ a1) by apply lookup_insert_eq.
    destruct (sort_rounds a1 n (S i) k); simpl; [|done].
    by rewrite insert_insert_eq.
Qed.

Lemma settled_ascending (l : list F) :
  Forall ok l -> settled l (length l) -> ascending l.
Proof.
  intros Hok Hset i x y Hx Hy.
  rewrite leb_ltb.
  - rewrite (Hset i (S i) x y); auto. by apply lookup_lt_Some in Hx.
  - eapply Forall_lookup_1; eauto.
  - eapply Forall_lookup_1; eauto.
Qed.

(** [selection_sort] returns a new list object that holds a settled
    permutation of the values; the store is otherwise as it was. *)
Lemma selection_sort_runs (values : loc) (h : gmap loc (list F)) vs :
  h !! values = Some vs ->
  exists arr sorted,
    selection_sort values h = Ok (arr, <[arr := sorted]> h) /\
    h !! arr = None /\
    sorted ≡ₚ vs /\ settled sorted (length sorted).
Proof.
  intros Hvs. unfold selection_sort, alloc, load.
  rewrite (lookup_total_correct _ _ _ Hvs).
  set (arr := fresh (dom h)).
  assert (h !! arr = None) as Hfresh.
  { apply not_elem_of_dom. apply is_fresh. }
  rewrite lookup_total_insert_eq.
  rewrite (sort_loop_rounds arr _ _ _ _ vs) by apply lookup_insert_eq.
  destruct (sort_rounds_spec (length vs) vs 0 eq_refl) as (sorted & -> & Hperm & Hset).
  { intros p q x y Hp. lia. }
  simpl. rewrite insert_insert_eq.
  rewrite <- (Permutation_length Hperm) in Hset.
  by exists arr, sorted.
Qed.

Lemma selection_sort_spec (values : loc) (h : gmap loc (list F)) vs :
  h !! values = Some vs -> Forall ok vs ->
  exists arr sorted,
    selection_sort values h = Ok (arr, <[arr := sorted]> h) /\
    h !! arr = None /\
    sorted ≡ₚ vs /\ settled sorted (length sorted) /\ ascending sorted.
Proof.
  intros Hvs Hok.
  destruct (selection_sort_runs values h vs Hvs) as (arr & sorted & Hrun & Hfresh & Hperm & Hset).
  exists arr, sorted. repeat split; auto.
  apply settled_ascending; [|done]. by rewrite Hperm.
Qed.

(** In a settled list an element is below every later one. *)
Lemma settled_le (s : list F) p q x y :
  Forall ok s -> settled s (length s) -> (p <= q)%nat ->
  s !! p = Some x -> s !! q = Some y -> fleb x y = true.
Proof.
  intros Hok Hset Hpq Hx Hy.
  rewrite leb_ltb by (eapply Forall_lookup_1; eauto).
  destruct (decide (p = q)) as [->|Hne].
  - simplify_eq. by rewrite ltb_irrefl.
  - rewrite (Hset p q x y); auto; [|lia]. by apply lookup_lt_Some in Hx.
Qed.

(** Its first element is a minimum and its last a maximum. *)
Lemma settled_bounds (s : list F) :
  Forall ok s -> settled s (length s) -> s <> [] ->
  exists lo hi,
    s !! 0 = Some lo /\ s !! (length s - 1) = Some hi /\
    forall i x, s !! i = Some x -> fleb lo x = true /\ fleb x hi = true.
Proof.
  intros Hok Hset Hne.
  assert (0 < length s) as Hlen by (destruct s; [done|simpl; lia]).
  destruct (lookup_lt_is_Some_2 s 0 Hlen) as [lo Hlo].
  destruct (lookup_lt_is_Some_2 s (length s - 1) ltac:(lia)) as [hi Hhi].
  exists lo, hi. do 2 (split; [done|]). intros i x Hx.
  pose proof (lookup_lt_Some _ _ _ Hx). split.
  - apply (settled_le s 0 i lo x); auto. lia.
  - apply (settled_le s i (length s - 1) x hi); auto. lia.
Qed.

(** ** median on a settled list *)

Lemma py_index_Ok (l : list F) (i : nat) x :
  l !! i = Some x -> py_index l (Z.of_nat i) = Ok x.
Proof.
  intros Hx. pose proof (lookup_lt_Some _ _ _ Hx) as Hi. unfold py_index.
  destruct (Z.ltb_spec (Z.of_nat i) 0); [lia|]. simpl.
  destruct (Z.ltb_spec (Z.of_nat i) 0); [lia|].
  destruct (Z.leb_spec (Z.of_nat (length l)) (Z.of_nat i)); [lia|]. simpl.
  rewrite Nat2Z.id. by apply get_Ok.
Qed.

Lemma median_odd (s : list F) :
  (Z.of_nat (length s) mod 2 = 1)%Z ->
  exists x, s !! (length s / 2) = Some x /\ median s = Ok x.
Proof.
  intros Hodd.
  assert (length s / 2 < length s) as Hmid.
  { apply Nat.div_lt; [|lia]. destruct s; [done|simpl; lia]. }
  destruct (lookup_lt_is_Some_2 s _ Hmid) as [x Hx].
  exists x. split; [done|]. unfold median. rewrite Hodd. simpl.
  rewrite <- (py_index_Ok s _ x Hx). f_equal.
  by rewrite Nat2Z.inj_div.
Qed.

Lemma median_even (s : list F) :
  s <> [] -> (Z.of_nat (length s) mod 2 = 0)%Z ->
  exists a b,
    s !! (length s / 2 - 1) = Some a /\ s !! (length s / 2) = Some b /\
    median s = Ok (fquot (fadd a b) two).
Proof.
  intros Hne Heven.
  assert (0 < length s) as Hlen by (destruct s; [done|simpl; lia]).
  assert (Z.of_nat (length s / 2) = Z.of_nat (length s) / 2)%Z as Hdiv
    by (by rewrite Nat2Z.inj_div).
  assert (1 <= length s / 2 < length s) as Hmid.
  { split; [|apply Nat.div_lt; lia].
    apply Nat2Z.inj_le. rewrite Hdiv.
    pose proof (Z.div_mod (Z.of_nat (length s)) 2 ltac:(lia)). lia. }
  destruct (lookup_lt_is_Some_2 s (length s / 2 - 1) ltac:(lia)) as [a Ha].
  destruct (lookup_lt_is_Some_2 s (length s / 2) ltac:(lia)) as [b Hb].
  exists a, b. split; [done|]. split; [done|].
  unfold median. rewrite Heven. simpl.
  rewrite <- Hdiv.
  replace (Z.of_nat (length s / 2) - 1)%Z with (Z.of_nat (length s / 2 - 1)) by lia.
  rewrite (py_index_Ok s _ a Ha), (py_index_Ok s _ b Hb). simpl.
  unfold fdiv. by rewrite two_nonzero.
Qed.

End Sorting.

(** * mode *)

Section Counting.
Context {F : Type} `{Arith F} (ok : F -> Prop) `{!ArithLaws F ok}.

Lemma feqb_equiv a b x : feqb a b = true -> feqb x a = feqb x b.
Proof.
  intros Hab. apply eq_true_iff_eq. split; intros Hx.
  - by apply (eqb_trans x a b).
  - apply (eqb_trans x b a); [done|]. by rewrite eqb_sym.
Qed.

Lemma occurrences_app v p q :
  occurrences v (p ++ q) = occurrences v p + occurrences v q.
Proof. induction p as [|x p IH]; simpl; [done|]. rewrite IH. lia. Qed.

Lemma occurrences_equiv a b l :
  feqb a b = true -> occurrences a l = occurrences b l.
Proof.
  intros Hab. induction l as [|x l IH]; simpl; [done|].
  by rewrite IH, (feqb_equiv a b x Hab).
Qed.

Lemma occurrences_has v l : has v l = false -> occurrences v l = 0.
Proof.
  unfold has. induction l as [|x l IH]; simpl; [done|].
  intros [-> Hl]%orb_false_iff. by rewrite IH.
Qed.

Lemma has_filter v x l :
  feqb x v = false ->
  has v (List.filter (fun y => negb (feqb x y)) l) = has v l.
Proof.
  intros Hxv. unfold has. induction l as [|y l IH]; simpl; [done|].
  destruct (feqb x y) eqn:Hxy; simpl; rewrite IH; [|done].
  destruct (feqb y v) eqn:Hyv; [|done].
  by rewrite (eqb_trans x y v Hxy Hyv) in Hxv.
Qed.

Lemma has_first_occurrences v l : has v (first_occurrences l) = has v l.
Proof.
  induction l as [|x l IH]; [done|].
  change (has v (first_occurrences (x :: l)))
    with (feqb x v || has v (List.filter (fun y => negb (feqb x y)) (first_occurrences l))).
  change (has v (x :: l)) with (feqb x v || has v l).
  destruct (feqb x v) eqn:Hxv; simpl; [done|].
  by rewrite (has_filter v x _ Hxv).
Qed.

Lemma has_elem v l : has v l = true <-> exists x, x ∈ l /\ feqb x v = true.
Proof.
  unfold has. rewrite existsb_exists. by setoid_rewrite list_elem_of_In.
Qed.

Lemma first_occurrences_subseteq l : first_occurrences l ⊆ l.
Proof.
  induction l as [|x l IH]; simpl; [done|].
  intros y [->|Hy]%elem_of_cons; [left|right].
  apply IH. apply list_elem_of_In in Hy. apply filter_In in Hy as [Hy _].
  by apply list_elem_of_In.
Qed.

Lemma first_occurrences_snoc p v :
  first_occurrences (p ++ [v]) =
  first_occurrences p ++ (if has v p then [] else [v]).
Proof.
  induction p as [|x p IH]; simpl; [done|].
  rewrite IH, List.filter_app. f_equal. f_equal.
  unfold has. simpl. destruct (existsb _ p); simpl.
  - by rewrite orb_true_r.
  - rewrite orb_false_r. by destruct (feqb x v).
Qed.

Lemma has_sym_false k x l :
  feqb x k = true -> has k l = false -> has x l = false.
Proof.
  intros Hxk. unfold has. induction l as [|y l IH]; simpl; [done|].
  intros [Hy Hl]%orb_false_iff. rewrite IH by done.
  by rewrite (feqb_equiv x k y Hxk), Hy.
Qed.

Lemma has_filter_false k (f : F -> bool) l :
  has k l = false -> has k (List.filter f l) = false.
Proof.
  unfold has. induction l as [|y l IH]; simpl; [done|].
  intros [Hy Hl]%orb_false_iff. destruct (f y); simpl; rewrite ?Hy; auto.
Qed.

Lemma distinct_filter (f : F -> bool) ks : distinct ks -> distinct (List.filter f ks).
Proof.
  induction ks as [|k ks IH]; simpl; [done|]. intros [Hk Hks].
  destruct (f k); simpl; auto using has_filter_false.
Qed.

Lemma has_filter_self x l :
  has x (List.filter (fun y => negb (feqb x y)) l) = false.
Proof.
  unfold has. induction l as [|y l IH]; simpl; [done|].
  destruct (feqb x y) eqn:Hxy; simpl; [done|].
  by rewrite IH, eqb_sym, Hxy.
Qed.

Lemma distinct_first_occurrences l : distinct (first_occurrences l).
Proof.
  induction l as [|x l IH]; simpl; [done|].
  split; [apply has_filter_self|by apply distinct_filter].
Qed.

Lemma dict_get_counts p ks v :
  dict_get (counts_of p ks) v 0 = if has v ks then occurrences v p else 0.
Proof.
  induction ks as [|k ks IH]; simpl; [done|].
  unfold has in *. simpl. destruct (feqb k v) eqn:Hkv; simpl; [|done].
  by apply occurrences_equiv.
Qed.

Lemma map_has_false (g : F -> Z) v c ks :
  has v ks = false ->
  map (fun k => (k, if feqb k v then c else g k)) ks = map (fun k => (k, g k)) ks.
Proof.
  unfold has. induction ks as [|k ks IH]; simpl; [done|].
  intros [-> Hks]%orb_false_iff. by rewrite IH.
Qed.

Lemma dict_set_map (g : F -> Z) ks v c :
  distinct ks ->
  dict_set (map (fun k => (k, g k)) ks) v c =
  map (fun k => (k, if feqb k v then c else g k)) ks ++
  (if has v ks then [] else [(v, c)]).
Proof.
  induction ks as [|k ks IH]; simpl; [done|]. intros [Hk Hks].
  unfold has in *. simpl. destruct (feqb k v) eqn:Hkv; simpl.
  - rewrite app_nil_r. f_equal. symmetry. apply map_has_false.
    apply (has_sym_false k v ks); [|done]. by rewrite eqb_sym.
  - f_equal. by apply IH.
Qed.

Lemma count_values_spec l :
  Forall ok l -> count_values l = counts_of l (first_occurrences l).
Proof.
  induction l as [|v p IH] using rev_ind; [done|].
  intros [Hp Hv]%Forall_app. rewrite Forall_singleton in Hv.
  unfold count_values in *. rewrite fold_left_app. simpl. rewrite IH by done.
  rewrite dict_get_counts, has_first_occurrences.
  unfold counts_of at 1. rewrite dict_set_map by apply distinct_first_occurrences.
  rewrite has_first_occurrences, first_occurrences_snoc.
  unfold counts_of. rewrite map_app. f_equal.
  - apply map_ext. intros k. f_equal. rewrite occurrences_app. simpl.
    rewrite (eqb_sym v k). destruct (feqb k v) eqn:Hkv.
    + destruct (has v p) eqn:Hhas.
      * rewrite (occurrences_equiv k v p Hkv). lia.
      * rewrite (occurrences_has k p); [lia|].
        by apply (has_sym_false v k p).
    + lia.
  - destruct (has v p) eqn:Hhas; simpl; [done|].
    rewrite occurrences_app. simpl. rewrite (eqb_refl v Hv).
    rewrite (occurrences_has v p Hhas). do 2 f_equal.
Qed.

Lemma fold_left_max l : forall a,
  0 <= a ->
  fold_left (fun max_count c => if max_count <? c then c else max_count) l a =
  Z.max a (fold_right Z.max 0 l).
Proof.
  induction l as [|c l IH]; intros a Ha; simpl; [lia|].
  destruct (Z.ltb_spec a c); rewrite IH by lia; lia.
Qed.

Lemma fold_right_max_ub xs x : x ∈ xs -> x <= fold_right Z.max 0 xs.
Proof.
  induction xs as [|y xs IH]; simpl; [by intros ?%elem_of_nil|].
  intros [->|Hx]%elem_of_cons; [lia|]. specialize (IH Hx). lia.
Qed.

Lemma fold_right_max_lub xs n :
  0 <= n -> (forall x, x ∈ xs -> x <= n) -> fold_right Z.max 0 xs <= n.
Proof.
  intros Hn. induction xs as [|y xs IH]; simpl; [done|]. intros Hall.
  apply Z.max_lub; [apply Hall; left|]. apply IH. intros x Hx. apply Hall. by right.
Qed.

Lemma fold_right_max_nonneg xs : 0 <= fold_right Z.max 0 xs.
Proof. induction xs; simpl; lia. Qed.

Lemma max_of_counts_spec l :
  Forall ok l ->
  max_of_counts (counts_of l (first_occurrences l)) = max_occurrences l.
Proof.
  intros Hok. unfold max_of_counts, max_occurrences, counts_of.
  rewrite fold_left_max by done. rewrite map_map. simpl.
  rewrite Z.max_r by apply fold_right_max_nonneg.
  apply Z.le_antisymm; (apply fold_right_max_lub; [apply fold_right_max_nonneg|]).
  - intros c (k & -> & Hk)%list_elem_of_fmap.
    apply fold_right_max_ub, list_elem_of_fmap. exists k. split; [done|].
    by apply first_occurrences_subseteq.
  - intros c (v & -> & Hv)%list_elem_of_fmap.
    assert (has v (first_occurrences l) = true) as (k & Hk & Hkv)%has_elem.
    { rewrite has_first_occurrences. apply has_elem. exists v. split; [done|].
      apply eqb_refl. by eapply Forall_forall in Hok. }
    rewrite <- (occurrences_equiv k v l Hkv).
    apply fold_right_max_ub, list_elem_of_fmap. by exists k.
Qed.

Lemma fold_left_modes (m : Z) d : forall acc,
  fold_left (fun modes (kc : F * Z) => if snd kc =? m then modes ++ [fst kc] else modes)
            d acc =
  acc ++ map fst (List.filter (fun kc : F * Z => snd kc =? m) d).
Proof.
  induction d as [|[k c] d IH]; intros acc; simpl; [by rewrite app_nil_r|].
  rewrite IH. destruct (c =? m); simpl; [|done]. by rewrite <- app_assoc.
Qed.

Lemma filter_counts_of (m : Z) l ks :
  map fst (List.filter (fun kc : F * Z => snd kc =? m) (counts_of l ks)) =
  List.filter (fun v => occurrences v l =? m) ks.
Proof.
  induction ks as [|k ks IH]; simpl; [done|].
  destruct (occurrences k l =? m); simpl; by rewrite IH.
Qed.

(** [mode] computes the modal values of the specification. *)
Lemma mode_modal_values l : Forall ok l -> mode l = modal_values l.
Proof.
  intros Hok. unfold mode, modal_values.
  rewrite count_values_spec, max_of_counts_spec by done.
  destruct (max_occurrences l <=? 1); [done|].
  by rewrite fold_left_modes, filter_counts_of.
Qed.

End Counting.

(** * mean and variance on binary64 *)

Section Binary64.
Local Open Scope float_scope.

Lemma float_mul_self_nonneg x : not_nan x = true -> nonneg (x * x) = true.
Proof.
  unfold not_nan, nonneg. rewrite mul_spec. intros Hx.
  apply SFmul_self_signed. by destruct (sf_nan (Prim2SF x)).
Qed.

Lemma float_add_nonneg x y :
  nonneg x = true -> nonneg y = true -> nonneg (x + y) = true.
Proof. unfold nonneg. rewrite add_spec. apply SFadd_signed. Qed.

Lemma float_add_not_nan x y :
  not_nan x = true -> is_finite y = true -> not_nan (x + y) = true.
Proof.
  unfold not_nan, is_finite. rewrite add_spec. intros Hx Hy.
  unfold SF64add. rewrite SFadd_not_nan; [done| |done]. by destruct (sf_nan (Prim2SF x)).
Qed.

Lemma float_sub_not_nan x y :
  is_finite x = true -> not_nan y = true -> not_nan (x - y) = true.
Proof.
  unfold not_nan, is_finite. rewrite sub_spec. intros Hx Hy.
  unfold SF64sub. rewrite SFsub_not_nan; [done|done|]. by destruct (sf_nan (Prim2SF y)).
Qed.

Lemma float_div_nonneg x y :
  nonneg x = true -> positive_finite y = true -> nonneg (x / y) = true.
Proof.
  unfold nonneg, positive_finite. rewrite div_spec.
  destruct (Prim2SF y) as [| | |[] m e]; try done. intros Hx _.
  by apply SFdiv_signed.
Qed.

Lemma float_div_not_nan x y :
  not_nan x = true -> positive_finite y = true -> not_nan (x / y) = true.
Proof.
  unfold not_nan, positive_finite. rewrite div_spec.
  destruct (Prim2SF y) as [| | |[] m e]; try done. intros Hx _.
  unfold SF64div. rewrite SFdiv_not_nan; [done|]. by destruct (sf_nan (Prim2SF x)).
Qed.

Lemma positive_finite_nonzero y : positive_finite y = true -> (y =? 0) = false.
Proof.
  unfold positive_finite. rewrite FloatAxioms.eqb_spec.
  by destruct (Prim2SF y) as [| | |[] m e].
Qed.

(** The length of a list converts to a positive float without rounding. *)
Lemma float_of_int_small (n : Z) :
  (0 < n < 2 ^ 53)%Z ->
  exists y, float_of_int n = Ok y /\ positive_finite y = true.
Proof.
  intros Hn. destruct n as [|p|p]; try lia.
  destruct (Z_to_sf_small p ltac:(lia)) as (m & e & Hsf & Hvalid).
  unfold float_of_int, Z_to_sf. rewrite Hsf.
  eexists. split; [done|].
  unfold positive_finite. by rewrite Prim2SF_SF2Prim.
Qed.

Lemma float_fdiv_int_nonneg x (n : Z) :
  (0 < n < 2 ^ 53)%Z -> nonneg x = true ->
  exists r, fdiv_int x n = Ok r /\ nonneg r = true.
Proof.
  intros Hn Hx. destruct (float_of_int_small n Hn) as (y & Hy & Hpos).
  unfold fdiv_int, fdiv. simpl. rewrite Hy. simpl.
  rewrite (positive_finite_nonzero y Hpos).
  eexists. split; [done|]. by apply float_div_nonneg.
Qed.

Lemma float_fdiv_int_not_nan x (n : Z) :
  (0 < n < 2 ^ 53)%Z -> not_nan x = true ->
  exists r, fdiv_int x n = Ok r /\ not_nan r = true.
Proof.
  intros Hn Hx. destruct (float_of_int_small n Hn) as (y & Hy & Hpos).
  unfold fdiv_int, fdiv. simpl. rewrite Hy. simpl.
  rewrite (positive_finite_nonzero y Hpos).
  eexists. split; [done|]. by apply float_div_not_nan.
Qed.

Lemma sum_not_nan (l : list float) : forall total,
  Forall (fun x => is_finite x = true) l -> not_nan total = true ->
  not_nan (fold_left PrimFloat.add l total) = true.
Proof.
  induction l as [|v l IH]; intros total Hl Ht; simpl; [done|].
  inversion Hl; subst. apply IH; [done|]. by apply float_add_not_nan.
Qed.

Lemma squares_nonneg (l : list float) avg : forall total,
  Forall (fun x => is_finite x = true) l -> not_nan avg = true ->
  nonneg total = true ->
  nonneg (fold_left (fun total v => let diff := v - avg in total + diff * diff)
                    l total) = true.
Proof.
  induction l as [|v l IH]; intros total Hl Ha Ht; simpl; [done|].
  inversion Hl; subst. apply IH; [done|done|].
  apply float_add_nonneg; [done|].
  apply float_mul_self_nonneg. by apply float_sub_not_nan.
Qed.

Lemma float_mean_ok (l : list float) :
  (0 < length l)%nat -> (Z.of_nat (length l) < 2 ^ 53)%Z ->
  Forall (fun x => is_finite x = true) l ->
  exists avg, mean l = Ok avg /\ not_nan avg = true.
Proof.
  intros Hpos Hlen Hl. unfold mean.
  apply float_fdiv_int_not_nan; [lia|]. by apply sum_not_nan.
Qed.

Lemma float_variance_nonneg (l : list float) avg :
  (0 < length l)%nat -> (Z.of_nat (length l) < 2 ^ 53)%Z ->
  Forall (fun x => is_finite x = true) l -> not_nan avg = true ->
  exists var, variance l avg = Ok var /\ nonneg var = true.
Proof.
  intros Hpos Hlen Hl Ha. unfold variance.
  apply float_fdiv_int_nonneg; [lia|]. by apply squares_nonneg.
Qed.

Lemma nonneg_leb x : nonneg x = true -> (0 <=? x) = true.
Proof.
  unfold nonneg. rewrite FloatAxioms.leb_spec.
  by destruct (Prim2SF x) as [[]|[]| |[] m e].
Qed.

End Binary64.

(** * mean and variance in exact arithmetic *)

Section Exact.
Local Open Scope Q_scope.

Lemma fold_left_Qplus (l : list Q) : forall a, fold_left Qplus l a == a + sumQ l.
Proof.
  induction l as [|v l IH]; intros a; simpl; [lra|]. rewrite IH. lra.
Qed.

Lemma fold_left_squares (l : list Q) avg : forall a,
  fold_left (fun total v => let diff := v - avg in total + diff * diff) l a ==
  a + sumQ (map (fun v => (v - avg) * (v - avg)) l).
Proof.
  induction l as [|v l IH]; intros a; simpl; [lra|]. rewrite IH. lra.
Qed.

Lemma sumQ_nonneg (l : list Q) : Forall (fun x => 0 <= x) l -> 0 <= sumQ l.
Proof. induction 1; simpl; lra. Qed.

Lemma sumQ_zero (l : list Q) :
  Forall (fun x => 0 <= x) l -> sumQ l == 0 -> Forall (fun x => x == 0) l.
Proof.
  induction 1 as [|x l Hx Hl IH]; simpl; intros Hsum; [done|].
  pose proof (sumQ_nonneg l Hl). constructor; [lra|]. apply IH. lra.
Qed.

Lemma sumQ_all_zero (l : list Q) : Forall (fun x => x == 0) l -> sumQ l == 0.
Proof. induction 1 as [|x l Hx Hl IH]; simpl; lra. Qed.

Lemma sumQ_const (l : list Q) c :
  Forall (fun x => x == c) l -> sumQ l == inject_Z (Z.of_nat (length l)) * c.
Proof.
  induction 1 as [|x l Hx Hl IH]; [change (0 == 0 * c); lra|].
  cbn [sumQ length].
  rewrite Nat2Z.inj_succ, IH, Hx. unfold Z.succ. rewrite inject_Z_plus.
  change (inject_Z 1) with 1. lra.
Qed.

Lemma Qsquare_nonneg (a : Q) : 0 <= a * a.
Proof.
  destruct (Qlt_le_dec a 0).
  - assert (a * a == (- a) * (- a)) as -> by ring.
    apply Qmult_le_0_compat; lra.
  - apply Qmult_le_0_compat; lra.
Qed.

Lemma Qsquare_zero (a : Q) : a * a == 0 -> a == 0.
Proof. intros E. by destruct (Qmult_integral _ _ E). Qed.

Lemma squares_nonneg_Q (l : list Q) avg :
  Forall (fun x => 0 <= x) (map (fun v => (v - avg) * (v - avg)) l).
Proof. apply Forall_fmap, Forall_forall. intros x _. apply Qsquare_nonneg. Qed.

Lemma inject_Z_length_pos (l : list Q) :
  l <> [] -> 0 < inject_Z (Z.of_nat (length l)).
Proof.
  intros Hl. change 0 with (inject_Z 0). rewrite <- Zlt_Qlt.
  destruct l; [done|]. simpl. lia.
Qed.

Lemma exact_fdiv_int (x : Q) (n : Z) :
  (0 < n)%Z -> fdiv_int x n = Ok (x / inject_Z n).
Proof.
  intros Hn. unfold fdiv_int, fdiv. simpl.
  destruct (Qeq_bool (inject_Z n) 0) eqn:E; [|done].
  apply Qeq_bool_iff in E. unfold Qeq in E. simpl in E. lia.
Qed.

Lemma exact_mean (l : list Q) :
  l <> [] ->
  mean l = Ok (fold_left Qplus l 0 / inject_Z (Z.of_nat (length l))).
Proof. intros Hl. unfold mean. apply exact_fdiv_int. destruct l; [done|]. simpl. lia. Qed.

Lemma exact_variance (l : list Q) avg :
  l <> [] ->
  variance l avg =
  Ok (fold_left (fun total v => let diff := v - avg in total + diff * diff) l 0
      / inject_Z (Z.of_nat (length l))).
Proof. intros Hl. unfold variance. apply exact_fdiv_int. destruct l; [done|]. simpl. lia. Qed.

(** Without rounding the variance is a mean of squares: it is not
    negative, and it is zero exactly when all values are equal. *)
Lemma exact_variance_spec (l : list Q) :
  l <> [] ->
  exists avg var,
    mean l = Ok avg /\ variance l avg = Ok var /\ 0 <= var /\
    (var == 0 <-> forall x y, x ∈ l -> y ∈ l -> x == y).
Proof.
  intros Hl. eexists _, _. split; [by apply exact_mean|].
  split; [by apply exact_variance|].
  set (n := inject_Z (Z.of_nat (length l))).
  set (avg := fold_left Qplus l 0 / n).
  pose proof (inject_Z_length_pos l Hl) as Hn. fold n in Hn.
  pose proof (fold_left_squares l avg 0) as Hsq.
  pose proof (squares_nonneg_Q l avg) as Hnn.
  pose proof (sumQ_nonneg _ Hnn) as Hsum.
  set (total := fold_left (fun total v => let diff := v - avg in total + diff * diff)
                          l 0) in *.
  assert (0 <= total) as Htot by lra.
  split.
  { apply Qle_shift_div_l; [done|]. lra. }
  assert (total / n == 0 <-> total == 0) as ->.
  { split; intros E.
    - rewrite <- (Qmult_div_r total n) by lra. rewrite E. lra.
    - rewrite E. unfold Qdiv. lra. }
  split.
  - intros E x y Hx Hy.
    assert (sumQ (map (fun v => (v - avg) * (v - avg)) l) == 0) as Hz by lra.
    pose proof (sumQ_zero _ Hnn Hz) as Hall.
    rewrite Forall_fmap, Forall_forall in Hall.
    pose proof (Hall x Hx) as Ex. pose proof (Hall y Hy) as Ey. simpl in Ex, Ey.
    apply Qsquare_zero in Ex, Ey. lra.
  - intros Hsame. destruct l as [|c l']; [done|].
    assert (Forall (fun x => x == c) (c :: l')) as Hc.
    { apply Forall_forall. intros x Hx. apply Hsame; [done|left]. }
    assert (avg == c) as Havg.
    { subst avg. rewrite fold_left_Qplus, (sumQ_const _ c Hc). fold n.
      field. lra. }
    rewrite Hsq. rewrite sumQ_all_zero; [lra|].
    apply Forall_fmap, Forall_forall. intros x Hx. simpl.
    rewrite Forall_forall in Hc. rewrite (Hc x Hx), Havg. lra.
Qed.

End Exact.

(** * parse_number *)

(** ** What the loops compute *)

Lemma scan_int_spec rest : forall int_part has_digit,
  scan_int rest int_part has_digit =
  (decimal (digits_prefix rest) int_part,
   has_digit || negb (is_nil (digits_prefix rest)),
   skip_digits rest).
Proof.
  induction rest as [|c rest IH]; intros int_part has_digit; simpl.
  - by rewrite orb_false_r.
  - destruct (is_digit c); simpl.
    + rewrite IH. simpl. by rewrite orb_true_r.
    + by rewrite orb_false_r.
Qed.

Lemma scan_frac_spec rest : forall frac_part frac_div has_digit,
  scan_frac rest frac_part frac_div has_digit =
  (decimal (digits_prefix rest) frac_part,
   frac_div * 10 ^ Z.of_nat (length (digits_prefix rest)),
   has_digit || negb (is_nil (digits_prefix rest)),
   skip_digits rest).
Proof.
  induction rest as [|c rest IH]; intros frac_part frac_div has_digit.
  - simpl. by rewrite orb_false_r, Z.mul_1_r.
  - cbn [scan_frac digits_prefix skip_digits]. destruct (is_digit c).
    + rewrite IH. cbn [length is_nil negb decimal fold_left].
      rewrite Nat2Z.inj_succ, Z.pow_succ_r by lia.
      rewrite orb_true_r. do 3 f_equal. lia.
    + simpl. by rewrite orb_false_r, Z.mul_1_r.
Qed.

(** ** Which tokens are rejected *)

Lemma is_digit_not_dot c : is_digit c = true -> is_dot c = false.
Proof.
  unfold is_digit, is_dot. destruct (Ascii.eqb_spec c "."); [subst; done|done].
Qed.

Lemma is_digit_not_sign c : is_digit c = true -> is_sign c = false.
Proof.
  unfold is_digit, is_sign.
  destruct (Ascii.eqb_spec c "-"); [subst; done|].
  destruct (Ascii.eqb_spec c "+"); [subst; done|done].
Qed.

Lemma skip_digits_nil r :
  is_nil (skip_digits r) = forallb is_digit r.
Proof. induction r as [|c r IH]; simpl; [done|]. by destruct (is_digit c). Qed.

Lemma digits_prefix_all r :
  forallb is_digit r = true -> negb (is_nil (digits_prefix r)) = existsb is_digit r.
Proof. destruct r as [|c r]; simpl; [done|]. by destruct (is_digit c). Qed.

Lemma all_digits_no_dot r :
  forallb is_digit r =
  forallb (fun c => is_digit c || is_dot c) r
  && (Z.of_nat (length (List.filter is_dot r)) <=? 0).
Proof.
  induction r as [|c r IH]; simpl; [done|].
  destruct (is_digit c) eqn:Hd; simpl.
  - by rewrite (is_digit_not_dot c Hd).
  - destruct (is_dot c); simpl; [|done].
    rewrite andb_comm. symmetry. apply andb_false_intro1. apply Z.leb_gt. lia.
Qed.

Lemma accepted_body_spec body : forall has_digit,
  accepted_body has_digit body = well_formed_body has_digit body.
Proof.
  induction body as [|c r IH]; intros has_digit.
  - unfold accepted_body, well_formed_body. simpl. by rewrite !orb_false_r.
  - destruct (is_digit c) eqn:Hd.
    + transitivity (accepted_body true r).
      { unfold accepted_body. simpl. rewrite Hd. simpl. by rewrite orb_true_r. }
      rewrite IH. unfold well_formed_body. simpl.
      rewrite Hd, (is_digit_not_dot c Hd). simpl. by rewrite orb_true_r.
    + unfold accepted_body, well_formed_body. simpl. rewrite Hd. simpl.
      rewrite orb_false_r. destruct (is_dot c) eqn:Hdot; simpl; [|done].
      rewrite skip_digits_nil, all_digits_no_dot.
      replace (Z.of_nat (S (length (List.filter is_dot r))) <=? 1)
        with (Z.of_nat (length (List.filter is_dot r)) <=? 0)
        by (apply eq_true_iff_eq; rewrite !Z.leb_le; lia).
      destruct (forallb _ r && _) eqn:Hall; simpl; [|by rewrite andb_false_r].
      rewrite andb_true_r. f_equal. apply digits_prefix_all.
      by rewrite all_digits_no_dot.
Qed.

Lemma is_sign_not_dot c : is_sign c = true -> is_dot c = false.
Proof.
  unfold is_sign, is_dot. destruct (Ascii.eqb_spec c "."); [subst; done|done].
Qed.

Lemma forallb_unsigned tl :
  forallb (fun c => is_digit c || is_sign c || is_dot c) tl
  && forallb (fun c => negb (is_sign c)) tl
  = forallb (fun c => is_digit c || is_dot c) tl.
Proof.
  induction tl as [|c tl IH]; simpl; [done|]. rewrite <- IH.
  destruct (is_digit c) eqn:Hd.
  - rewrite (is_digit_not_sign c Hd). simpl. done.
  - simpl. destruct (is_sign c) eqn:Hs; simpl.
    + rewrite (is_sign_not_dot c Hs). simpl. by rewrite andb_false_r.
    + by destruct (is_dot c).
Qed.

Lemma accepted_well_formed s : accepted s = well_formed s.
Proof.
  destruct s as [|c0 tl]; [done|].
  unfold accepted, scan.
  set (body := match c0 :: tl with
               | c :: r => if Ascii.eqb c "-" then (true, r)
                           else if Ascii.eqb c "+" then (false, r) else (false, c0 :: tl)
               | [] => (false, c0 :: tl)
               end).
  assert (snd body = if is_sign c0 then tl else c0 :: tl) as Hbody.
  { subst body. unfold is_sign. simpl.
    by destruct (Ascii.eqb c0 "-"), (Ascii.eqb c0 "+"). }
  destruct body as [negative rest]. simpl in Hbody. subst rest.
  rewrite scan_int_spec. simpl negb at 1. rewrite andb_true_l.
  transitivity (accepted_body false (if is_sign c0 then tl else c0 :: tl)).
  { unfold accepted_body. simpl orb.
    destruct (skip_digits _) as [|c r]; simpl; [by rewrite andb_true_r|].
    unfold is_dot. destruct (Ascii.eqb c "."); simpl.
    - by rewrite scan_frac_spec.
    - by rewrite andb_false_r. }
  rewrite accepted_body_spec. unfold well_formed_body, well_formed.
  cbn [is_nil negb andb tail forallb existsb List.filter].
  destruct (is_sign c0) eqn:Hs.
  - assert (is_digit c0 = false) as Hd.
    { destruct (is_digit c0) eqn:Hd; [|done]. by rewrite (is_digit_not_sign c0 Hd) in Hs. }
    pose proof (is_sign_not_dot c0 Hs) as Hdot.
    rewrite Hd, Hdot. simpl.
    rewrite <- (forallb_unsigned tl).
    destruct (forallb _ tl), (forallb _ tl), (_ <=? 1); done.
  - simpl.
    rewrite <- (forallb_unsigned tl).
    rewrite orb_false_r.
    destruct (is_digit c0 || is_dot c0), (forallb _ tl), (forallb _ tl), (_ <=? 1);
      simpl; rewrite ?andb_false_r; done.
Qed.

(** * main *)

Section Engine.
Context {F : Type} `{Arith F} (ok : F -> Prop) `{!ArithLaws F ok}.

Lemma main_loop_spec tokens (values : loc) : forall invalid (h : gmap loc (list F)) vs0,
  h !! values = Some vs0 ->
  main_loop tokens values invalid h =
  '(vs, k) ← parse_tokens tokens; Ok (invalid + k, <[values := vs0 ++ vs]> h).
Proof.
  induction tokens as [|t tokens IH]; intros invalid h vs0 Hv; simpl.
  - by rewrite Z.add_0_r, app_nil_r, insert_id.
  - destruct (parse_number t) as [v|[]]; try done.
    + unfold load. rewrite (lookup_total_correct _ _ _ Hv).
      rewrite (IH _ _ (vs0 ++ [v])) by apply lookup_insert_eq.
      destruct (parse_tokens tokens) as [[vs k]|e]; simpl; [|done].
      by rewrite insert_insert_eq, <- app_assoc.
    + rewrite (IH _ _ vs0 Hv).
      destruct (parse_tokens tokens) as [[vs k]|e]; simpl; [|done].
      do 2 f_equal. lia.
Qed.

Lemma main_spec tokens :
  main tokens =
  '(vs, invalid) ← parse_tokens tokens;
  if is_nil vs then Ok (NoValidNumbers invalid)
  else '(r, _) ← build_report (values_loc F) invalid {[values_loc F := vs]};
       Ok (Statistics r).
Proof.
  unfold main, alloc. fold (values_loc F).
  rewrite (main_loop_spec tokens (values_loc F) 0 _ []) by apply lookup_insert_eq.
  destruct (parse_tokens tokens) as [[vs k]|e]; simpl; [|done].
  rewrite insert_insert_eq, insert_empty. unfold load.
  by rewrite lookup_total_singleton.
Qed.

Lemma build_report_spec (values : loc) invalid (h : gmap loc (list F)) vs :
  h !! values = Some vs ->
  exists arr sorted,
    h !! arr = None /\ sorted ≡ₚ vs /\ settled sorted (length sorted) /\
    build_report values invalid h =
    avg ← mean vs;
    med ← median sorted;
    var ← variance vs avg;
    std ← sqrt_newton var;
    Ok ({| r_count := Z.of_nat (length vs); r_invalid := invalid;
           r_mean := avg; r_median := med; r_mode := mode vs;
           r_variance := var; r_std := std |}, <[arr := sorted]> h).
Proof.
  intros Hvs.
  destruct (selection_sort_runs ok values h vs Hvs)
    as (arr & sorted & Hrun & Hfresh & Hperm & Hset).
  exists arr, sorted. repeat split; auto.
  unfold build_report. rewrite Hrun. simpl. unfold load.
  assert (arr <> values) as Hne by congruence.
  rewrite lookup_total_insert_ne by done.
  rewrite (lookup_total_correct _ _ _ Hvs), lookup_total_insert_eq.
  done.
Qed.

(** Tokens that are all rejected leave the list of values empty. *)
Lemma parse_tokens_all_invalid tokens :
  Forall (fun t => parse_number (F:=F) t = Raise ValueError) tokens ->
  parse_tokens tokens = Ok ([], Z.of_nat (length tokens)).
Proof.
  induction 1 as [|t tokens Ht Hts IH]; simpl; [done|].
  rewrite Ht, IH. simpl. do 2 f_equal. lia.
Qed.

Lemma parse_tokens_none_valid tokens :
  Forall (fun t => is_ok (parse_number (F:=F) t) = false) tokens ->
  forall vs k, parse_tokens tokens = Ok (vs, k) -> vs = [].
Proof.
  induction 1 as [|t tokens Ht Hts IH]; simpl; intros vs k Hrun; [by simplify_eq|].
  destruct (parse_number t) as [v|[]]; try done.
  destruct (parse_tokens tokens) as [[vs' k']|e]; simpl in *; [|done].
  simplify_eq. by eapply IH.
Qed.

End Engine.

(** * The properties of the specification *)

(** C1: for the ten tokens 4 8 6 5 3 2 8 9 2 5 the program, parsing every
    token and then building the report, reports count 10, no invalid token,
    mean 5.2, median 5.0, the modal values 8, 5 and 2 (the set {2, 5, 8}, in
    the order of their first occurrence), variance 5.76 and standard
    deviation 2.4. *)
Theorem main_ten_tokens :
  main (F:=float) ["4"; "8"; "6"; "5"; "3"; "2"; "8"; "9"; "2"; "5"]%string =
  Ok (Statistics {| r_count := 10; r_invalid := 0;
                    r_mean := 5.2%float; r_median := 5%float;
                    r_mode := [8; 5; 2]%float;
                    r_variance := 5.76%float; r_std := 2.4%float |}).
Proof. vm_compute. reflexivity. Qed.

(** When every token is rejected with [ValueError], the program takes
    the "No valid numbers found" branch, and counts every token as
    invalid; when no token parses to a value, no report with statistics is
    produced. *)
Theorem main_no_valid_numbers :
  forall (tokens : list string),
    (Forall (fun t => parse_number (F:=float) t = Raise ValueError) tokens ->
     main (F:=float) tokens = Ok (NoValidNumbers (Z.of_nat (length tokens))))
    /\ (Forall (fun t => is_ok (parse_number (F:=float) t) = false) tokens ->
        forall r, main (F:=float) tokens <> Ok (Statistics r)).
Proof.
  intros tokens. split.
  - intros Hall. rewrite main_spec.
    by rewrite parse_tokens_all_invalid.
  - intros Hnone r. rewrite main_spec.
    pose proof (parse_tokens_none_valid tokens Hnone) as Hvs.
    destruct (parse_tokens tokens) as [[vs k]|e]; simpl; [|done].
    by rewrite (Hvs vs k eq_refl).
Qed.

Lemma main_no_valid_numbers_witness :
  main (F:=float) ["x"; "y"]%string = Ok (NoValidNumbers 2)
  /\ forall r, main (F:=float) ["x"; "y"]%string <> Ok (Statistics r).
Proof.
  split.
  - apply (proj1 (main_no_valid_numbers ["x"; "y"]%string)).
    repeat constructor.
  - apply (proj2 (main_no_valid_numbers ["x"; "y"]%string)).
    repeat constructor.
Defined.

(** C2: neither of the two tokens [x] and [1000...0], a one followed by
    309 zeros, parses to a number, and yet the program does not take the
    "No valid numbers found" branch: [parse_number] leaves the second
    token with [OverflowError], which the [except ValueError] of [main]
    does not catch, and [main] ends with that exception. *)
Theorem main_no_valid_numbers_overflow :
  Forall (fun t => is_ok (parse_number (F:=float) t) = false) ["x"%string; huge_token]
  /\ parse_number (F:=float) huge_token = Raise OverflowError
  /\ main (F:=float) ["x"%string; huge_token] = Raise OverflowError.
Proof. split; [repeat constructor|]. split; vm_compute; reflexivity. Qed.

(** ** parse_number: rejected tokens *)

Lemma float_int_truediv_not_ValueError n m : float_int_truediv n m <> Raise ValueError.
Proof.
  unfold float_int_truediv. destruct (m =? 0); [done|]. by destruct (Z_div_sf n m).
Qed.

Lemma float_of_int_not_ValueError n : float_of_int n <> Raise ValueError.
Proof. unfold float_of_int. by destruct (Z_to_sf n). Qed.

(** The token is rejected with [ValueError] exactly when it breaks one of
    the five conditions. *)
Lemma parse_number_rejects_iff (token : string) :
  parse_number (F:=float) token = Raise ValueError <->
  well_formed (strip (list_ascii_of_string token)) = false.
Proof.
  rewrite <- accepted_well_formed. unfold parse_number, accepted.
  set (s := strip (list_ascii_of_string token)).
  destruct (is_nil s); simpl; [done|].
  destruct (sc_has_digit (scan s)); simpl; [|done].
  destruct (is_nil (sc_rest (scan s))); simpl; [|done].
  split; [|done]. intros Hrun.
  pose proof (float_int_truediv_not_ValueError (sc_frac_part (scan s)) (sc_frac_div (scan s))).
  destruct (float_int_truediv _ _) as [q|e]; simpl in *; [|congruence].
  pose proof (float_of_int_not_ValueError (sc_int_part (scan s))).
  destruct (float_of_int _) as [n|e]; simpl in *; [done|congruence].
Qed.

Lemma scan_frac_div_pos s : 0 < sc_frac_div (scan s).
Proof.
  unfold scan. destruct (match s with [] => _ | _ => _ end) as [negative rest].
  rewrite scan_int_spec. destruct (skip_digits rest) as [|c r]; simpl; [lia|].
  destruct (Ascii.eqb c "."); simpl; [|lia].
  rewrite scan_frac_spec. simpl. lia.
Qed.

(** Without rounding, and so without overflow, every well-formed token has
    a value. *)
Lemma parse_number_exact_total (token : string) :
  well_formed (strip (list_ascii_of_string token)) = true ->
  exists v, parse_number (F:=Q) token = Ok v.
Proof.
  rewrite <- accepted_well_formed. unfold parse_number, accepted.
  set (s := strip (list_ascii_of_string token)).
  destruct (is_nil s); simpl; [done|].
  destruct (sc_has_digit (scan s)); simpl; [|done].
  destruct (is_nil (sc_rest (scan s))); simpl; [|done]. intros _.
  unfold Q_int_truediv. pose proof (scan_frac_div_pos s).
  destruct (Z.eqb_spec (sc_frac_div (scan s)) 0); [lia|]. simpl. eauto.
Qed.

(** C3: [parse_number] raises [ValueError] for the empty token, "12.3.4",
    "12a" and "--5", and in general exactly for the tokens that break one of
    the five conditions; but a token that breaks none of them does not always
    have a value: for a one followed by 309 zeros the conversion of the
    integer part to a float raises [OverflowError], which [main] does not
    catch. *)
Theorem parse_number_overflow :
  (parse_number (F:=float) "" = Raise ValueError
   /\ parse_number (F:=float) "12.3.4" = Raise ValueError
   /\ parse_number (F:=float) "12a" = Raise ValueError
   /\ parse_number (F:=float) "--5" = Raise ValueError)
  /\ well_formed (strip (list_ascii_of_string huge_token)) = true
  /\ parse_number (F:=float) huge_token = Raise OverflowError
  /\ main (F:=float) ["1"; huge_token; "2"]%string = Raise OverflowError.
Proof. vm_compute. repeat split; reflexivity. Qed.

(** ** parse_number: the value *)

Lemma scan_parts s :
  sc_negative (scan s) = negative s /\
  sc_int_part (scan s) = integer_part s /\
  sc_frac_part (scan s) = fractional_part s /\
  sc_frac_div (scan s) = divisor s.
Proof.
  unfold scan, integer_part, fractional_part, divisor, fraction_digits, integer_digits.
  set (body := match s with [] => _ | _ => _ end).
  assert (body = (negative s, unsigned s)) as ->.
  { subst body. destruct s as [|c r]; [done|]. unfold negative, unsigned, is_sign.
    by destruct (Ascii.eqb c "-"), (Ascii.eqb c "+"). }
  rewrite scan_int_spec. destruct (skip_digits (unsigned s)) as [|c r]; simpl; [done|].
  unfold is_dot. destruct (Ascii.eqb c "."); simpl; [|done].
  rewrite scan_frac_spec. simpl. repeat split. lia.
Qed.

(** C4: the value of an accepted token is
    [sign * (integer part + fractional part / divisor)]: the sign is -1.0
    after a leading "-" and 1.0 otherwise, the integer part and the
    fractional part are accumulated from their digits as
    [value * 10 + digit], and the divisor is the power of ten of the number
    of fraction digits.  "12.5" has the value 12.5 and "-3" the value -3.0. *)
Theorem parse_number_value :
  (forall (F : Type) (A : Arith F) (token : string) (v : F),
     parse_number token = Ok v ->
     let s := strip (list_ascii_of_string token) in
     exists n q,
       of_int (integer_part s) = Ok n /\
       int_truediv (fractional_part s) (divisor s) = Ok q /\
       v = fmul (if negative s then fopp one else one) (fadd n q))
  /\ parse_number (F:=float) "12.5" = Ok 12.5%float
  /\ parse_number (F:=float) "-3" = Ok (-3)%float.
Proof.
  split; [|split; vm_compute; reflexivity].
  intros F A token v. unfold parse_number.
  set (s := strip (list_ascii_of_string token)). simpl.
  destruct (is_nil s); [done|].
  destruct (negb _ || negb _); [done|].
  destruct (scan_parts s) as (-> & -> & -> & ->).
  intros (q & Hq & (n & Hn & [= <-])%bind_Ok)%bind_Ok.
  by exists n, q.
Qed.

Lemma parse_number_value_witness :
  exists n q : float,
    of_int (integer_part (strip (list_ascii_of_string "12.5"%string))) = Ok n /\
    int_truediv (fractional_part (strip (list_ascii_of_string "12.5"%string)))
                (divisor (strip (list_ascii_of_string "12.5"%string))) = Ok q /\
    12.5%float = fmul (if negative (strip (list_ascii_of_string "12.5"%string))
                       then fopp one else one) (fadd n q).
Proof.
  apply (proj1 parse_number_value float binary64_arith "12.5"%string 12.5%float).
  vm_compute. reflexivity.
Defined.

(** ** mode *)

(** C5: [mode] returns no value when no value occurs more than once;
    otherwise it returns the values that occur as often as the most frequent
    one, in the order of their first occurrence.  So mode([1,2,2,3]) is [2],
    mode([1,2,3]) is empty and mode([1,1,2,2]) is [1, 2]. *)
Theorem mode_correct :
  (forall l : list float,
     Forall (fun x => not_nan x = true) l -> mode l = modal_values l)
  /\ mode [1; 2; 2; 3]%float = [2]%float
  /\ mode [1; 2; 3]%float = []
  /\ mode [1; 1; 2; 2]%float = [1; 2]%float.
Proof.
  split; [|repeat split; vm_compute; reflexivity].
  intros l Hl. by apply (mode_modal_values (fun x => not_nan x = true)).
Qed.

Lemma mode_correct_witness :
  mode [4; 8; 6; 5; 3; 2; 8; 9; 2; 5]%float =
  modal_values [4; 8; 6; 5; 3; 2; 8; 9; 2; 5]%float.
Proof.
  apply (proj1 mode_correct). repeat constructor.
Defined.

(** ** sqrt_newton *)

Lemma iter_Raise {A} (f : A -> result A) k e :
  Nat.iter k (fun r => r ≫= f) (Raise e) = Raise e.
Proof. induction k as [|k IH]; simpl; [done|]. by rewrite IH. Qed.

Lemma newton_loop_iter {F} `{Arith F} (x : F) k : forall guess,
  newton_loop k x guess = Nat.iter k (fun r => r ≫= newton_step x) (Ok guess).
Proof.
  induction k as [|k IH]; intros guess; [done|].
  rewrite Nat.iter_succ_r. cbn [newton_loop].
  change (Ok guess ≫= newton_step x) with (newton_step x guess).
  unfold newton_step. destruct (fdiv x guess) as [q|e]; simpl.
  - apply IH.
  - by rewrite iter_Raise.
Qed.

Lemma float_ltb_zero_nonzero x :
  PrimFloat.ltb 0 x = true -> PrimFloat.eqb x 0 = false.
Proof.
  rewrite FloatAxioms.ltb_spec, FloatAxioms.eqb_spec. unfold SFltb, SFeqb.
  rewrite (SFcompare_antisym (Prim2SF 0) (Prim2SF x)).
  by destruct (SFcompare (Prim2SF 0) (Prim2SF x)) as [[]|].
Qed.

(** C8: [sqrt_newton] returns 0.0 when [x == 0]; for [x > 0] it returns
    what 25 Newton–Raphson steps make of the first guess [max(x, 1.0)]:
    there is no test that ends the iteration earlier.  The square root of 0
    is 0 and that of 4 is 2. *)
Theorem sqrt_newton_iterates :
  (forall x : float,
     (feqb x zero = true -> sqrt_newton x = Ok zero)
     /\ (fltb zero x = true ->
         sqrt_newton x =
         Nat.iter 25 (fun r => r ≫= newton_step x) (Ok (fmax x one))))
  /\ sqrt_newton 0%float = Ok 0%float
  /\ sqrt_newton 4%float = Ok 2%float.
Proof.
  split; [|split; vm_compute; reflexivity].
  intros x. unfold sqrt_newton. split.
  - by intros ->.
  - intros Hpos. simpl in Hpos. simpl feqb.
    rewrite (float_ltb_zero_nonzero x Hpos).
    rewrite newton_loop_iter. do 2 f_equal. unfold fmax.
    rewrite (leb_ltb (F:=float) one x); [|done|by apply (float_ltb_not_nan 0%float)].
    by destruct (fltb x one).
Qed.

Lemma sqrt_newton_iterates_witness :
  sqrt_newton 0%float = Ok zero
  /\ sqrt_newton 2%float =
     Nat.iter 25 (fun r => r ≫= newton_step 2%float) (Ok (fmax 2%float one)).
Proof.
  split.
  - apply (proj1 (proj1 sqrt_newton_iterates 0%float)). reflexivity.
  - apply (proj2 (proj1 sqrt_newton_iterates 2%float)). reflexivity.
Defined.

(** ** selection_sort *)



(** ** median *)

Section Median.
Context {F : Type} `{Arith F} (ok : F -> Prop) `{!ArithLaws F ok}.

(** The median of the sorted copy: the middle element for an odd count,
    and the midpoint of the two central elements for an even count. *)
Lemma median_of_sorted (values : loc) (h : gmap loc (list F)) vs :
  h !! values = Some vs -> vs <> [] -> Forall ok vs ->
  exists arr sorted lo hi,
    selection_sort values h = Ok (arr, <[arr := sorted]> h) /\
    h !! arr = None /\ sorted ≡ₚ vs /\ ascending sorted /\
    lo ∈ vs /\ hi ∈ vs /\
    (forall v, v ∈ vs -> fleb lo v = true /\ fleb v hi = true) /\
    (Z.of_nat (length vs) mod 2 = 1 ->
     exists med,
       sorted !! (length vs / 2)%nat = Some med /\ median sorted = Ok med /\
       fleb lo med = true /\ fleb med hi = true) /\
    (Z.of_nat (length vs) mod 2 = 0 ->
     exists a b,
       sorted !! (length vs / 2 - 1)%nat = Some a /\
       sorted !! (length vs / 2)%nat = Some b /\
       fleb a b = true /\
       median sorted = Ok (fquot (fadd a b) two) /\
       (forall m, fleb a m = true -> fleb m b = true ->
                  fleb lo m = true /\ fleb m hi = true)).
Proof.
  intros Hvs Hne Hok.
  destruct (selection_sort_spec ok values h vs Hvs Hok)
    as (arr & sorted & Hrun & Hfresh & Hperm & Hset & Hasc).
  assert (Forall ok sorted) as Hoks by (by rewrite Hperm).
  assert (sorted <> []) as Hnes.
  { intros ->. by apply Permutation_nil_l in Hperm. }
  destruct (settled_bounds ok sorted Hoks Hset Hnes) as (lo & hi & Hlo & Hhi & Hbounds).
  pose proof (Permutation_length Hperm) as Hlen.
  exists arr, sorted, lo, hi.
  do 4 (split; [done|]).
  split; [rewrite <- Hperm; exact (list_elem_of_lookup_2 _ _ _ Hlo)|].
  split; [rewrite <- Hperm; exact (list_elem_of_lookup_2 _ _ _ Hhi)|].
  split; [|split].
  - intros v Hv. rewrite <- Hperm in Hv.
    apply list_elem_of_lookup in Hv as [i Hi]. by apply (Hbounds i v).
  - intros Hodd. rewrite <- Hlen in Hodd |- *.
    destruct (median_odd sorted Hodd) as (med & Hmed & Hrunm).
    exists med. do 2 (split; [done|]). exact (Hbounds _ med Hmed).
  - intros Heven. rewrite <- Hlen in Heven |- *.
    destruct (median_even ok sorted Hnes Heven) as (a & b & Ha & Hb & Hrunm).
    exists a, b. do 2 (split; [done|]).
    split; [|split; [done|]].
    + apply (settled_le ok sorted (length sorted / 2 - 1) (length sorted / 2) a b);
        auto. lia.
    + intros m Ham Hmb. split.
      * exact (leb_trans lo a m (proj1 (Hbounds _ a Ha)) Ham).
      * exact (leb_trans m b hi Hmb (proj2 (Hbounds _ b Hb))).
Qed.

End Median.

Lemma median_overflow :
  parse_number (F:=float) big_token = Ok 1e308%float
  /\ (exists r, main (F:=float) [big_token; big_token] = Ok (Statistics r)
                /\ r_median r = infinity)
  /\ ~ median_within [1e308; 1e308]%float infinity.
Proof.
  split; [vm_compute; reflexivity|]. split.
  - eexists. split; [vm_compute; reflexivity|reflexivity].
  - intros (lo & hi & _ & Hhi & _ & _ & Hle).
    apply elem_of_cons in Hhi as [->|Hhi]; [by vm_compute in Hle|].
    apply elem_of_cons in Hhi as [->|Hhi]; [by vm_compute in Hle|].
    by apply elem_of_nil in Hhi.
Qed.

(** ** variance *)

(** In binary64 the variance of equal values need not be 0, and the
    variance of different values can be 0: the mean of three times 0.1 is
    not 0.1, and the squares of the deviations of 0 and 1e-200 from their
    mean are too small for a float. *)
Lemma variance_zero_iff_identical_fails :
  (parse_number (F:=float) "0.1" = Ok 0.1%float
   /\ exists r, main (F:=float) ["0.1"; "0.1"; "0.1"]%string = Ok (Statistics r)
                /\ feqb (r_variance r) zero = false)
  /\ (parse_number (F:=float) "0" = Ok 0%float
      /\ parse_number (F:=float) tiny_token = Ok 1e-200%float
      /\ feqb 0%float 1e-200%float = false
      /\ exists r, main (F:=float) ["0"; tiny_token]%string = Ok (Statistics r)
                   /\ feqb (r_variance r) zero = true).
Proof.
  split; [split|split; [|split; [|split]]]; try (vm_compute; reflexivity).
  - eexists. split; [vm_compute; reflexivity|vm_compute; reflexivity].
  - eexists. split; [vm_compute; reflexivity|vm_compute; reflexivity].
Qed.

(** C6, as the code has it: the variance, the sum of the squared
    deviations from the mean divided by the number of values, is never
    negative.  Without rounding it is 0 exactly when all values are
    equal. *)
Theorem variance_nonneg :
  (forall l : list float,
     l <> [] -> Z.of_nat (length l) < 2 ^ 53 ->
     Forall (fun x => is_finite x = true) l ->
     exists avg var,
       mean l = Ok avg /\ variance l avg = Ok var /\ fleb zero var = true)
  /\ (forall l : list Q,
        l <> [] ->
        exists avg var,
          mean l = Ok avg /\ variance l avg = Ok var /\ (0 <= var)%Q /\
          (var == 0 <-> forall x y, x ∈ l -> y ∈ l -> x == y)%Q).
Proof.
  split.
  - intros l Hne Hlen Hfin.
    assert (0 < length l)%nat as Hpos by (destruct l; [done|simpl; lia]).
    destruct (float_mean_ok l Hpos Hlen Hfin) as (avg & Hmean & Havg).
    destruct (float_variance_nonneg l avg Hpos Hlen Hfin Havg) as (var & Hvar & Hnn).
    exists avg, var. do 2 (split; [done|]). by apply nonneg_leb.
  - apply exact_variance_spec.
Qed.

Lemma variance_nonneg_witness :
  (exists avg var,
     mean [1; 2]%float = Ok avg /\ variance [1; 2]%float avg = Ok var /\
     fleb zero var = true)
  /\ (exists avg var,
        mean [1 # 1; 2 # 1]%Q = Ok avg /\ variance [1 # 1; 2 # 1]%Q avg = Ok var /\
        (0 <= var)%Q /\
        (var == 0 <-> forall x y, x ∈ [1 # 1; 2 # 1]%Q -> y ∈ [1 # 1; 2 # 1]%Q -> x == y)%Q).
Proof.
  split.
  - apply (proj1 variance_nonneg [1; 2]%float).
    + discriminate.
    + reflexivity.
    + repeat constructor.
  - apply (proj2 variance_nonneg [1 # 1; 2 # 1]%Q). discriminate.
Defined.

(** ** The guard of main *)

Lemma float_fdiv_int_ok (x : float) (n : Z) :
  0 < n < 2 ^ 53 -> exists r, fdiv_int x n = Ok r.
Proof.
  intros Hn. destruct (float_of_int_small n Hn) as (y & Hy & Hpos).
  unfold fdiv_int, fdiv. simpl. rewrite Hy. simpl.
  rewrite (positive_finite_nonzero y Hpos). eauto.
Qed.

Lemma is_nil_false {A} (l : list A) : l <> [] -> is_nil l = false.
Proof. by destruct l. Qed.

(** C10: [mean] and [variance] divide by the length of their argument and
    [median] indexes it: on the empty list they raise.  [main] calls them
    only when the list of values is not empty, and then none of the three
    raises. *)
Theorem statistics_guarded :
  (mean ([] : list float) = Raise ZeroDivisionError
   /\ (forall avg, variance ([] : list float) avg = Raise ZeroDivisionError)
   /\ median ([] : list float) = Raise IndexError)
  /\ forall (tokens : list string) (vs : list float) (invalid : Z),
       parse_tokens tokens = Ok (vs, invalid) ->
       (vs = [] -> main (F:=float) tokens = Ok (NoValidNumbers invalid))
       /\ (vs <> [] -> Z.of_nat (length vs) < 2 ^ 53 ->
           exists sorted avg med var,
             sorted ≡ₚ vs /\
             mean vs = Ok avg /\ median sorted = Ok med /\ variance vs avg = Ok var /\
             main (F:=float) tokens =
             std ← sqrt_newton var;
             Ok (Statistics {| r_count := Z.of_nat (length vs); r_invalid := invalid;
                               r_mean := avg; r_median := med; r_mode := mode vs;
                               r_variance := var; r_std := std |})).
Proof.
  split; [split; [reflexivity|split; [intros avg; reflexivity|reflexivity]]|].
  intros tokens vs invalid Hparse. rewrite main_spec, Hparse. simpl. split.
  - by intros ->.
  - intros Hne Hlen.
    assert (0 < Z.of_nat (length vs) < 2 ^ 53) as Hn.
    { split; [|done]. destruct vs; [done|simpl; lia]. }
    destruct (build_report_spec (F:=float) (fun x => not_nan x = true)
                (values_loc float) invalid
                {[values_loc float := vs]} vs (lookup_singleton_eq _ _))
      as (arr & sorted & _ & Hperm & _ & Hrun).
    assert (sorted <> []) as Hnes.
    { intros ->. by apply Permutation_nil_l in Hperm. }
    assert (exists avg, mean vs = Ok avg) as (avg & Hmean)
      by (by apply float_fdiv_int_ok).
    assert (exists var, variance vs avg = Ok var) as (var & Hvar)
      by (by apply float_fdiv_int_ok).
    assert (exists med, median sorted = Ok med) as (med & Hmed).
    { destruct (Z.eq_dec (Z.of_nat (length sorted) mod 2) 1) as [Ho|Hno].
      - destruct (median_odd sorted Ho) as (med & _ & Hm). eauto.
      - assert (Z.of_nat (length sorted) mod 2 = 0) as He.
        { pose proof (Z.mod_pos_bound (Z.of_nat (length sorted)) 2 ltac:(lia)). lia. }
        destruct (median_even (fun x => not_nan x = true) sorted Hnes He)
          as (a & b & _ & _ & Hm). eauto. }
    exists sorted, avg, med, var. do 4 (split; [done|]).
    rewrite (is_nil_false vs Hne), Hrun, Hmean. simpl.
    rewrite Hmed. simpl. rewrite Hvar. simpl.
    by destruct (sqrt_newton var).
Qed.

Lemma statistics_guarded_witness :
  main (F:=float) ["x"; "y"]%string = Ok (NoValidNumbers 2)
  /\ exists sorted avg med var,
       sorted ≡ₚ [1; 2]%float /\
       mean [1; 2]%float = Ok avg /\ median sorted = Ok med /\
       variance [1; 2]%float avg = Ok var /\
       main (F:=float) ["1"; "x"; "2"]%string =
       std ← sqrt_newton var;
       Ok (Statistics {| r_count := Z.of_nat (length [1; 2]%float); r_invalid := 1;
                         r_mean := avg; r_median := med; r_mode := mode [1; 2]%float;
                         r_variance := var; r_std := std |}).
Proof.
  split.
  - apply (proj1 (proj2 statistics_guarded ["x"; "y"]%string [] 2
                        ltac:(vm_compute; reflexivity))).
    reflexivity.
  - apply (proj2 (proj2 statistics_guarded ["1"; "x"; "2"]%string [1; 2]%float 1
                        ltac:(vm_compute; reflexivity))).
    + discriminate.
    + reflexivity.
Defined.

(** * Further properties of the program

    What the code shows beyond its specification: how the tokens are
    read, what [parse_number] does with signs and white space, which
    exceptions leave [main], and more on sorting and on the modes; then
    what rounding does to the median and to the square root. *)

Lemma forallb_rev {A} (f : A -> bool) (l : list A) : forallb f (rev l) = forallb f l.
Proof.
  induction l as [|x l IH]; simpl; [done|].
  rewrite forallb_app, IH. simpl. destruct (f x), (forallb f l); reflexivity.
Qed.

Lemma lstrip_spaces ws s : forallb is_space ws = true -> lstrip (ws ++ s) = lstrip s.
Proof.
  induction ws as [|c ws IH]; simpl; [done|].
  intros [Hc Hws]%andb_true_iff. rewrite Hc. auto.
Qed.

Lemma lstrip_snoc s c : is_space c = false -> lstrip (s ++ [c]) = lstrip s ++ [c].
Proof.
  intros Hc. induction s as [|d s IH]; simpl; [by rewrite Hc|].
  by destruct (is_space d).
Qed.

Lemma lstrip_app s t : lstrip s <> [] -> lstrip (s ++ t) = lstrip s ++ t.
Proof.
  induction s as [|d s IH]; simpl; [done|].
  by destruct (is_space d).
Qed.

Lemma lstrip_all_spaces s : forallb is_space s = true -> lstrip s = [].
Proof.
  induction s as [|c s IH]; simpl; [done|].
  intros [Hc Hws]%andb_true_iff. rewrite Hc. auto.
Qed.

Lemma lstrip_nil_spaces s : lstrip s = [] -> forallb is_space s = true.
Proof.
  induction s as [|c s IH]; simpl; [done|].
  destruct (is_space c); [auto|done].
Qed.

Lemma strip_cons c s : is_space c = false -> strip (c :: s) = c :: rstrip s.
Proof.
  intros Hc. unfold strip, rstrip. simpl. rewrite Hc. simpl.
  rewrite lstrip_snoc by done. by rewrite rev_app_distr.
Qed.

Lemma strip_spaces ws1 s ws2 :
  forallb is_space ws1 = true -> forallb is_space ws2 = true ->
  strip (ws1 ++ s ++ ws2) = strip s.
Proof.
  intros H1 H2. unfold strip. rewrite lstrip_spaces by done.
  destruct (lstrip s) as [|c r] eqn:E.
  - rewrite lstrip_spaces; [|by apply lstrip_nil_spaces].
    by rewrite (lstrip_all_spaces ws2).
  - rewrite lstrip_app by congruence. rewrite E.
    rewrite rev_app_distr. rewrite lstrip_spaces; [done|].
    by rewrite forallb_rev.
Qed.

Lemma no_space_lstrip s : no_space s = true -> lstrip s = s.
Proof.
  destruct s as [|c s]; simpl; [done|].
  intros [Hc _]%andb_true_iff. by destruct (is_space c).
Qed.

Lemma no_space_strip s : no_space s = true -> strip s = s.
Proof.
  intros Hs. unfold strip. rewrite (no_space_lstrip s Hs).
  rewrite no_space_lstrip; [apply rev_involutive|].
  unfold no_space. by rewrite forallb_rev.
Qed.

(** ** read_tokens *)

Lemma string_of_list_ascii_nil l : string_of_list_ascii l = EmptyString -> l = [].
Proof. by destruct l. Qed.

Lemma split_words_clean s : forall word t,
  no_space word = true ->
  t ∈ split_words word s ->
  t <> EmptyString /\ no_space (list_ascii_of_string t) = true.
Proof.
  assert (forall word t, no_space word = true -> is_nil word = false ->
            t = string_of_list_ascii word ->
            t <> EmptyString /\ no_space (list_ascii_of_string t) = true) as Hword.
  { intros word t Hw Hn ->. rewrite list_ascii_of_string_of_list_ascii.
    split; [|done]. by destruct word. }
  induction s as [|c s IH]; simpl; intros word t Hw Ht.
  - destruct (is_nil word) eqn:En; [by apply elem_of_nil in Ht|].
    apply list_elem_of_singleton in Ht. eauto.
  - destruct (is_space c) eqn:Ec.
    + destruct (is_nil word) eqn:En; [by apply (IH [])|].
      apply elem_of_cons in Ht as [->|Ht]; [eauto|by apply (IH [])].
    + apply (IH (word ++ [c])); [|done].
      unfold no_space. rewrite forallb_app. simpl. rewrite Ec. simpl.
      by rewrite andb_true_r.
Qed.

Lemma read_tokens_flat f : forall acc,
  fold_left (fun tokens line => tokens ++ split line) f acc =
  acc ++ concat (map split f).
Proof.
  induction f as [|line f IH]; intros acc; simpl; [by rewrite app_nil_r|].
  rewrite IH. by rewrite app_assoc.
Qed.

Lemma read_tokens_elem f : forall acc t,
  t ∈ fold_left (fun tokens line => tokens ++ split line) f acc ->
  t ∈ acc \/ exists line, line ∈ f /\ t ∈ split line.
Proof.
  induction f as [|line f IH]; intros acc t; simpl; [auto|].
  intros [[Ht|Ht]%elem_of_app|(l & Hl & Ht)]%IH; [auto| |].
  - right. exists line. split; [left|done].
  - right. exists l. split; [by right|done].
Qed.

(** X1: every token [read_tokens] returns is not empty and holds no white
    space, so the [strip] of [parse_number] leaves it as it is. *)
Theorem read_tokens_clean (f : list string) (t : string) :
  t ∈ read_tokens f ->
  t <> EmptyString
  /\ no_space (list_ascii_of_string t) = true
  /\ strip (list_ascii_of_string t) = list_ascii_of_string t.
Proof.
  intros [Ht|(line & _ & Ht)]%read_tokens_elem; [by apply elem_of_nil in Ht|].
  destruct (split_words_clean _ [] t eq_refl Ht) as [Hne Hns].
  auto using no_space_strip.
Qed.

Lemma read_tokens_clean_witness :
  "2"%string <> EmptyString
  /\ no_space (list_ascii_of_string "2") = true
  /\ strip (list_ascii_of_string "2") = list_ascii_of_string "2".
Proof.
  apply (read_tokens_clean [" 1  2 "%string]). vm_compute. repeat constructor.
Defined.

Lemma Prim2SF_inj x y : Prim2SF x = Prim2SF y -> x = y.
Proof. intros E. by rewrite <- (SF2Prim_Prim2SF x), <- (SF2Prim_Prim2SF y), E. Qed.

Lemma iter_pos_iter {A} (f : A -> A) n : forall x,
  SpecFloat.iter_pos f n x = Pos.iter f x n.
Proof.
  induction n as [n IH|n IH|]; intros x; simpl; [|by rewrite !IH|done].
  by rewrite !IH, !Pos.iter_swap.
Qed.

Lemma shr_1_iter_xO m k :
  Pos.iter shr_1 {| shr_m := Z.pos (Pos.iter xO m k); shr_r := false; shr_s := false |} k
  = {| shr_m := Z.pos m; shr_r := false; shr_s := false |}.
Proof.
  induction k as [|k IH] using Pos.peano_ind; [done|].
  rewrite Pos.iter_succ_r, Pos.iter_succ. simpl. apply IH.
Qed.

(** Rounding a float that was shifted left gives the float back. *)
Lemma binary_round_aux_shifted s m e k :
  bounded prec emax m e = true ->
  binary_round_aux prec emax s (Z.pos (Pos.iter xO m k)) (e - Z.pos k) loc_Exact
  = S754_finite s m e.
Proof.
  intros [Hc He]%andb_true_iff. apply Z.eqb_eq in Hc. 
  unfold binary_round_aux, shr_fexp. simpl Zdigits2.
  rewrite digits2_pos_iter_xO.
  replace (Z.pos (digits2_pos m + k) + (e - Z.pos k)) with (Z.pos (digits2_pos m) + e) by lia.
  replace (fexp prec emax (Z.pos (digits2_pos m) + e)) with e by (symmetry; exact Hc).
  replace (e - (e - Z.pos k)) with (Z.pos k) by lia.
  simpl shr. rewrite iter_pos_iter, shr_1_iter_xO. simpl.
  replace (e - Z.pos k + Z.pos k) with e by lia.
  replace (fexp prec emax (Z.pos (digits2_pos m) + e)) with e by (symmetry; exact Hc).
  rewrite Z.sub_diag. simpl. by rewrite He.
Qed.

Lemma SFmul_one s x :
  valid_binary x = true ->
  SFmul prec emax (S754_finite s 4503599627370496 (-52)) x =
  if s then SFopp x else x.
Proof.
  destruct x as [sx|sx| |sx m e]; intros Hv.
  1-2: by destruct s, sx.
  1: by destruct s.
  unfold SFmul.
  change (Z.pos (4503599627370496 * m)) with (Z.pos (Pos.iter xO m 52)).
  replace (-52 + e) with (e - 52) by lia.
  rewrite binary_round_aux_shifted by exact Hv. by destruct s, sx.
Qed.

Lemma Prim2SF_one : Prim2SF 1 = S754_finite false 4503599627370496 (-52).
Proof. vm_compute. reflexivity. Qed.

Lemma float_mul_one (y : float) : (1 * y)%float = y.
Proof.
  apply Prim2SF_inj. rewrite mul_spec, Prim2SF_one.
  unfold SF64mul. rewrite (SFmul_one false); [done|apply Prim2SF_valid].
Qed.

Lemma float_mul_opp_one (y : float) : PrimFloat.mul (PrimFloat.opp 1) y = PrimFloat.opp y.
Proof.
  apply Prim2SF_inj. rewrite mul_spec, !opp_spec, Prim2SF_one.
  unfold SF64mul. simpl SFopp at 1. rewrite (SFmul_one true); [done|apply Prim2SF_valid].
Qed.

Lemma list_ascii_of_string_app (a b : string) :
  list_ascii_of_string (a ++ b) = list_ascii_of_string a ++ list_ascii_of_string b.
Proof. induction a as [|c a IH]; simpl; [done|]. by rewrite IH. Qed.

(** [parse_number] looks at the stripped token only. *)
Lemma parse_number_strip {F} `{Arith F} (t t' : string) :
  strip (list_ascii_of_string t) = strip (list_ascii_of_string t') ->
  parse_number t = parse_number t'.
Proof. unfold parse_number. by intros ->. Qed.

(** X3: white space before and after a token changes neither the value
    [parse_number] returns nor the exception it raises. *)
Theorem parse_number_ignores_spaces :
  forall (F : Type) (A : Arith F) (ws1 ws2 : list ascii) (t : string),
    forallb is_space ws1 = true -> forallb is_space ws2 = true ->
    parse_number (string_of_list_ascii ws1 ++ t ++ string_of_list_ascii ws2) =
    parse_number t.
Proof.
  intros F A ws1 ws2 t H1 H2. apply parse_number_strip.
  rewrite !list_ascii_of_string_app, !list_ascii_of_string_of_list_ascii.
  by apply strip_spaces.
Qed.

Lemma parse_number_ignores_spaces_witness :
  parse_number (F:=float)
    (string_of_list_ascii [" "; "009"]%char ++ "12.5" ++ string_of_list_ascii ["010"]%char)
  = parse_number (F:=float) "12.5".
Proof.
  apply (parse_number_ignores_spaces float _ [" "; "009"]%char ["010"]%char "12.5"%string);
    reflexivity.
Defined.

Lemma rstrip_cons c s : is_space c = false -> rstrip (c :: s) = c :: rstrip s.
Proof.
  intros Hc. unfold rstrip. simpl. rewrite lstrip_snoc by done.
  by rewrite rev_app_distr.
Qed.

Lemma scan_plus u :
  match u with c :: _ => is_sign c = false | [] => True end ->
  scan ("+"%char :: u) = scan u.
Proof.
  destruct u as [|c r]; [done|]. unfold is_sign. intros [H1 H2]%orb_false_iff.
  unfold scan. simpl. by rewrite H1, H2.
Qed.

(** X4: a plus sign in front of a token that starts neither with a sign
    nor with white space changes nothing. *)
Theorem parse_number_plus :
  forall (F : Type) (A : Arith F) (t : string),
    starts_plain t = true ->
    parse_number (String "+" t) = parse_number t.
Proof.
  intros F A t Ht. unfold parse_number. simpl list_ascii_of_string.
  rewrite (strip_cons "+"%char) by done.
  destruct t as [|c t]; [done|]. simpl in Ht |- *.
  apply andb_true_iff in Ht as [Hs Hw]. apply negb_true_iff in Hs, Hw.
  rewrite rstrip_cons, strip_cons by done. cbn [is_nil].
  rewrite scan_plus; done.
Qed.

Lemma parse_number_plus_witness :
  parse_number (F:=float) (String "+" "12.5") = parse_number (F:=float) "12.5".
Proof. apply (parse_number_plus float _ "12.5"%string). reflexivity. Defined.

Lemma scan_minus u :
  scan ("-"%char :: u) =
  {| sc_negative := true;
     sc_int_part := sc_int_part (scan ("+"%char :: u));
     sc_frac_part := sc_frac_part (scan ("+"%char :: u));
     sc_frac_div := sc_frac_div (scan ("+"%char :: u));
     sc_has_digit := sc_has_digit (scan ("+"%char :: u));
     sc_rest := sc_rest (scan ("+"%char :: u)) |}.
Proof.
  unfold scan. simpl. destruct (scan_int u 0 false) as [[n d] r].
  destruct r as [|c r]; [done|].
  destruct (Ascii.eqb c "."); [|done].
  by destruct (scan_frac r 0 1 d) as [[[? ?] ?] ?].
Qed.

(** X5: a minus sign negates: the token [-t] is rejected when [+t] is,
    raises what [+t] raises, and otherwise has the opposite value; the
    multiplication by the sign rounds nothing. *)
Theorem parse_number_minus :
  forall t : string,
    parse_number (F:=float) (String "-" t) =
    v ← parse_number (F:=float) (String "+" t); Ok (fopp v).
Proof.
  intros t. unfold parse_number. simpl list_ascii_of_string.
  rewrite (strip_cons "-"%char), (strip_cons "+"%char) by done. cbn [is_nil].
  rewrite scan_minus. cbn [sc_negative sc_int_part sc_frac_part sc_frac_div sc_has_digit sc_rest].
  set (st := scan ("+"%char :: rstrip (list_ascii_of_string t))).
  assert (sc_negative st = false) as -> by (subst st; by rewrite (proj1 (scan_parts _))).
  destruct (negb (sc_has_digit st) || negb (is_nil (sc_rest st))); [done|].
  destruct (int_truediv _ _) as [q|e]; [|done]. simpl.
  destruct (float_of_int _) as [n|e]; [|done]. simpl.
  by rewrite float_mul_opp_one, float_mul_one.
Qed.

Lemma pos_iter_xO m k : Z.pos (Pos.iter xO m k) = Z.pos m * 2 ^ Z.pos k.
Proof.
  induction k as [|k IH] using Pos.peano_ind; [simpl; lia|].
  rewrite Pos.iter_succ, Pos2Z.inj_succ, Z.pow_succ_r by lia.
  rewrite Pos2Z.inj_xO, IH. lia.
Qed.

(** The float of a small integer, with its mantissa and exponent. *)
Lemma Z_to_sf_small_exact p :
  Z.pos p < 2 ^ 53 ->
  exists m e, binary_normalize prec emax (Z.pos p) 0 false = S754_finite false m e
              /\ valid_binary (S754_finite false m e) = true
              /\ e <= 0 /\ Z.pos m = Z.pos p * 2 ^ (- e).
Proof.
  intros Hp. pose proof (digits2_pos_bound p 53 ltac:(lia) Hp) as Hd.
  unfold binary_normalize, binary_round.
  assert (fexp prec emax (Z.pos (digits2_pos p) + 0) = Z.pos (digits2_pos p) - 53) as ->.
  { unfold fexp, SpecFloat.emin, prec, emax. lia. }
  unfold shl_align.
  destruct (Z.pos (digits2_pos p) - 53 - 0) as [|k|k] eqn:Ek; try lia.
  - exists p, 0. rewrite binary_round_aux_exact by lia. split; [done|].
    split; [|simpl; lia].
    unfold valid_binary, bounded, canonical_mantissa, fexp, SpecFloat.emin, prec, emax.
    apply andb_true_iff; split; [apply Z.eqb_eq|apply Z.leb_le]; lia.
  - exists (Pos.iter xO p k), (Z.pos (digits2_pos p) - 53).
    assert (Z.pos (digits2_pos (Pos.iter xO p k)) = 53) as Hk.
    { rewrite digits2_pos_iter_xO. lia. }
    rewrite binary_round_aux_exact by lia. split; [done|].
    split; [|split; [lia|]].
    + unfold valid_binary, bounded, canonical_mantissa. rewrite Hk.
      unfold fexp, SpecFloat.emin, prec, emax.
      apply andb_true_iff; split; [apply Z.eqb_eq|apply Z.leb_le]; lia.
    + rewrite pos_iter_xO. do 2 f_equal. lia.
Qed.

Lemma is_digit_not_space c : is_digit c = true -> is_space c = false.
Proof.
  unfold is_digit, is_space. intros [H1 H2]%andb_true_iff.
  apply Z.leb_le in H1, H2. change (ord "0") with 48 in *. change (ord "9") with 57 in *.
  repeat (apply orb_false_iff; split); try apply andb_false_iff;
    rewrite ?Z.leb_gt, ?Z.eqb_neq; lia.
Qed.

Lemma digits_no_space ds : forallb is_digit ds = true -> no_space ds = true.
Proof.
  unfold no_space. induction ds as [|c ds IH]; simpl; [done|].
  intros [Hc Hds]%andb_true_iff. by rewrite (is_digit_not_space c Hc), IH.
Qed.

Lemma digits_prefix_id ds : forallb is_digit ds = true -> digits_prefix ds = ds.
Proof.
  induction ds as [|c ds IH]; simpl; [done|].
  intros [Hc Hds]%andb_true_iff. by rewrite Hc, IH.
Qed.

Lemma decimal_nonneg ds : forall v,
  forallb is_digit ds = true -> 0 <= v -> 0 <= decimal ds v.
Proof.
  unfold decimal. induction ds as [|c ds IH]; simpl; intros v Hd Hv; [done|].
  apply andb_true_iff in Hd as [Hc Hds]. apply IH; [done|].
  unfold is_digit in Hc. apply andb_true_iff in Hc as [H1 _]. apply Z.leb_le in H1. lia.
Qed.

(** The scan of a token made of digits only. *)
Lemma scan_digits ds :
  ds <> [] -> forallb is_digit ds = true ->
  scan ds = {| sc_negative := false; sc_int_part := decimal ds 0;
               sc_frac_part := 0; sc_frac_div := 1;
               sc_has_digit := true; sc_rest := [] |}.
Proof.
  intros Hne Hd. unfold scan.
  assert (match ds with
          | c :: r => if Ascii.eqb c "-" then (true, r)
                      else if Ascii.eqb c "+" then (false, r) else (false, ds)
          | [] => (false, ds)
          end = (false, ds)) as ->.
  { destruct ds as [|c r]; [done|]. simpl in Hd. apply andb_true_iff in Hd as [Hc _].
    apply is_digit_not_sign, orb_false_iff in Hc as [-> ->]. done. }
  rewrite scan_int_spec, digits_prefix_id by done.
  assert (skip_digits ds = []) as ->.
  { pose proof (skip_digits_nil ds) as Hs. rewrite Hd in Hs. by destruct (skip_digits ds). }
  by destruct ds.
Qed.

Lemma float_add_zero (y : float) : nonneg y = true -> (y + 0)%float = y.
Proof.
  unfold nonneg. intros Hy. apply Prim2SF_inj. rewrite add_spec.
  change (Prim2SF 0) with (S754_zero false).
  by destruct (Prim2SF y) as [[]|[]| |[] ? ?].
Qed.

(** X6: a token of digits only whose value is below 2^53 is parsed
    without rounding: the float returned is that integer. *)
Theorem parse_number_integer :
  forall ds : list ascii,
    ds <> [] -> forallb is_digit ds = true -> decimal ds 0 < 2 ^ 53 ->
    exists y, parse_number (F:=float) (string_of_list_ascii ds) = Ok y
              /\ float_is_int y (decimal ds 0).
Proof.
  intros ds Hne Hd Hn. unfold parse_number.
  rewrite list_ascii_of_string_of_list_ascii.
  rewrite (no_space_strip ds (digits_no_space ds Hd)).
  rewrite (is_nil_false ds Hne), (scan_digits ds Hne Hd). simpl.
  pose proof (decimal_nonneg ds 0 Hd ltac:(lia)) as Hpos.
  destruct (decimal ds 0) as [|p|p] eqn:E; [| |lia].
  - exists 0%float. split; [vm_compute; reflexivity|]. reflexivity.
  - destruct (Z_to_sf_small_exact p Hn) as (m & e & Hsf & Hv & He & Hm).
    pose proof (Prim2SF_SF2Prim _ Hv) as Hy.
    unfold float_of_int, Z_to_sf. rewrite Hsf.
    generalize dependent (SF2Prim (S754_finite false m e)). intros y Hy.
    exists y. split.
    + simpl. change (SF2Prim (S754_zero false)) with 0%float.
      rewrite float_add_zero, float_mul_one; [done|].
      unfold nonneg. by rewrite Hy.
    + unfold float_is_int. rewrite Hy. simpl. split; [done|lia].
Qed.

Lemma parse_number_integer_witness :
  exists y, parse_number (F:=float) "1234" = Ok y /\ float_is_int y 1234.
Proof.
  apply (parse_number_integer ["1"; "2"; "3"; "4"]%char).
  - discriminate.
  - reflexivity.
  - reflexivity.
Defined.

Section Tokens.
Context {F : Type} `{Arith F}.

Lemma parse_tokens_length tokens : forall (vs : list F) k,
  parse_tokens tokens = Ok (vs, k) ->
  0 <= k /\ Z.of_nat (length vs) + k = Z.of_nat (length tokens).
Proof.
  induction tokens as [|t tokens IH]; simpl; intros vs k.
  - intros [= <- <-]. simpl. lia.
  - destruct (parse_number t) as [v|[]]; try done.
    + destruct (parse_tokens tokens) as [[vs' k']|]; [|done].
      intros [= <- <-]. destruct (IH vs' k' eq_refl). simpl. lia.
    + destruct (parse_tokens tokens) as [[vs' k']|]; [|done].
      intros [= <- <-]. destruct (IH vs' k' eq_refl). lia.
Qed.

Lemma parse_tokens_filter tokens : forall (vs : list F) k,
  parse_tokens tokens = Ok (vs, k) ->
  parse_tokens (List.filter parses tokens) = Ok (vs, 0).
Proof.
  induction tokens as [|t tokens IH]; simpl; intros vs k.
  - by intros [= <- <-].
  - unfold parses at 1. destruct (parse_number t) as [v|[]] eqn:E; try done; simpl.
    + rewrite E. destruct (parse_tokens tokens) as [[vs' k']|]; [|done].
      intros [= <- <-]. by rewrite (IH vs' k' eq_refl).
    + destruct (parse_tokens tokens) as [[vs' k']|]; [|done].
      intros [= <- <-]. by apply (IH vs' k').
Qed.

Lemma build_report_invalid (values : loc) (k k' : Z) (h h' : gmap loc (list F)) r :
  build_report values k h = Ok (r, h') ->
  build_report values k' h = Ok (with_invalid k' r, h').
Proof.
  unfold build_report. destruct (selection_sort values h) as [[s h0]|]; [|done]. simpl.
  destruct (mean _); [|done]. simpl. destruct (median _); [|done]. simpl.
  destruct (variance _ _); [|done]. simpl. destruct (sqrt_newton _); [|done]. simpl.
  by intros [= <- <-].
Qed.

End Tokens.

(** ** What main raises *)

Lemma float_of_int_raises n e : float_of_int n = Raise e -> e = OverflowError.
Proof. unfold float_of_int. destruct (Z_to_sf n); by intros [= <-]. Qed.












(** ** Every token is counted once *)

(** X7: every token is counted once, as a value or as invalid: the count
    and the number of invalid tokens of the report add up to the number of
    tokens, and a report has at least one value. *)
Theorem main_counts_tokens :
  forall (tokens : list string) (out : outcome float),
    main (F:=float) tokens = Ok out ->
    match out with
    | Statistics r =>
      1 <= r_count r /\ 0 <= r_invalid r /\
      r_count r + r_invalid r = Z.of_nat (length tokens)
    | NoValidNumbers invalid => invalid = Z.of_nat (length tokens)
    end.
Proof.
  intros tokens out. rewrite main_spec.
  destruct (parse_tokens tokens) as [[vs k]|] eqn:E; [|done]. simpl.
  destruct (parse_tokens_length tokens vs k E) as [Hk Hlen].
  destruct vs as [|v vs]; simpl.
  - intros [= <-]. simpl in Hlen. lia.
  - destruct (build_report_spec (fun x => not_nan x = true) (values_loc float) k
                {[values_loc float := v :: vs]} (v :: vs) (lookup_singleton_eq _ _))
      as (arr & sorted & _ & _ & _ & ->).
    destruct (mean _); [|done]. simpl. destruct (median _); [|done]. simpl.
    destruct (variance _ _); [|done]. simpl. destruct (sqrt_newton _); [|done]. simpl.
    intros [= <-]. simpl in *. lia.
Qed.

Lemma main_counts_tokens_witness :
  exists r, main (F:=float) ["1"; "x"; "2"]%string = Ok (Statistics r)
            /\ 1 <= r_count r /\ 0 <= r_invalid r /\ r_count r + r_invalid r = 3.
Proof.
  assert (main (F:=float) ["1"; "x"; "2"]%string =
          Ok (Statistics {| r_count := 2; r_invalid := 1;
                            r_mean := 1.5%float; r_median := 1.5%float; r_mode := [];
                            r_variance := 0.25%float; r_std := 0.5%float |})) as Hrun
    by (vm_compute; reflexivity).
  eexists. split; [exact Hrun|].
  exact (main_counts_tokens _ _ Hrun).
Defined.

(** ** Invalid tokens do not change the statistics *)

(** X8: the invalid tokens change nothing but their count: without them
    [main] gives the same statistics, with 0 invalid tokens. *)
Theorem main_skips_invalid :
  forall (tokens : list string) (r : report float),
    main (F:=float) tokens = Ok (Statistics r) ->
    main (F:=float) (List.filter (parses (F:=float)) tokens) = Ok (Statistics (with_invalid 0 r)).
Proof.
  intros tokens r. rewrite !main_spec.
  destruct (parse_tokens tokens) as [[vs k]|] eqn:E; [|done]. simpl.
  rewrite (parse_tokens_filter tokens vs k E). simpl.
  destruct (is_nil vs); [done|].
  destruct (build_report _ k _) as [[r0 h0]|] eqn:Eb; [|done]. simpl.
  intros [= <-]. by rewrite (build_report_invalid _ k 0 _ h0 r0 Eb).
Qed.

Lemma main_skips_invalid_witness :
  main (F:=float) (List.filter (parses (F:=float)) ["1"; "x"; "2"]%string) =
  Ok (Statistics {| r_count := 2; r_invalid := 0;
                    r_mean := 1.5%float; r_median := 1.5%float; r_mode := [];
                    r_variance := 0.25%float; r_std := 0.5%float |}).
Proof.
  apply (main_skips_invalid ["1"; "x"; "2"]%string
           {| r_count := 2; r_invalid := 1;
              r_mean := 1.5%float; r_median := 1.5%float; r_mode := [];
              r_variance := 0.25%float; r_std := 0.5%float |}).
  vm_compute. reflexivity.
Defined.

Section Sorted.
Context {F : Type} `{Arith F} (ok : F -> Prop) `{!ArithLaws F ok}.
Local Open Scope nat_scope.

(** The inner loop keeps [min_index] when no element it looks at is
    smaller. *)
Lemma find_min_keeps (l : list F) k : forall m j xm,
  l !! m = Some xm -> j + k <= length l ->
  (forall q xq, j <= q < j + k -> l !! q = Some xq -> fltb xq xm = false) ->
  find_min l m j k = Ok m.
Proof.
  induction k as [|k IH]; intros m j xm Hm Hjk Hall; simpl; [done|].
  destruct (get_lt l j ltac:(lia)) as (aj & -> & Hj). simpl.
  rewrite (proj2 (get_Ok l m xm) Hm). simpl.
  rewrite (Hall j aj ltac:(lia) Hj).
  apply (IH m (S j) xm Hm ltac:(lia)). intros q xq Hq. apply Hall. lia.
Qed.

Lemma swap_same (l : list F) i x : l !! i = Some x -> swap l i i = Ok l.
Proof.
  intros Hx. unfold swap. rewrite (proj2 (get_Ok l i x) Hx). simpl.
  by rewrite !(list_insert_id l i x Hx).
Qed.

(** The rounds leave a settled list as it is. *)
Lemma sort_rounds_settled (a : list F) k : forall i,
  i + k = length a -> settled a (length a) ->
  sort_rounds a (length a) i k = Ok a.
Proof.
  induction k as [|k IH]; intros i Hik Hset; simpl; [done|].
  destruct (lookup_lt_is_Some_2 a i ltac:(lia)) as [xi Hxi].
  unfold sort_step.
  rewrite (find_min_keeps a (length a - S i) i (S i) xi Hxi ltac:(lia)).
  - simpl. rewrite (swap_same a i xi Hxi). simpl. apply IH; [lia|done].
  - intros q xq Hq Hxq. apply (Hset i q xi xq); [lia|lia|done|done].
Qed.

Lemma selection_sort_settled (values : loc) (h : gmap loc (list F)) vs :
  h !! values = Some vs -> settled vs (length vs) ->
  selection_sort values h = Ok (fresh (dom h), <[fresh (dom h) := vs]> h).
Proof.
  intros Hvs Hset. unfold selection_sort, alloc, load.
  rewrite (lookup_total_correct _ _ _ Hvs).
  rewrite lookup_total_insert_eq.
  rewrite (sort_loop_rounds _ _ _ _ _ vs) by apply lookup_insert_eq.
  rewrite (sort_rounds_settled vs (length vs) 0 eq_refl Hset). simpl.
  by rewrite insert_insert_eq.
Qed.

Lemma ascending_le (l : list F) : 
  Forall ok l -> ascending l ->
  forall d p x y, l !! p = Some x -> l !! (p + d) = Some y -> fleb x y = true.
Proof.
  intros Hok Hasc d. induction d as [|d IH]; intros p x y Hx Hy.
  - rewrite Nat.add_0_r in Hy. simplify_eq.
    rewrite leb_ltb by (eapply Forall_lookup_1; eauto). by rewrite ltb_irrefl.
  - destruct (lookup_lt_is_Some_2 l (p + d)) as [z Hz].
    { apply lookup_lt_Some in Hy. lia. }
    apply (leb_trans x z y); [by apply (IH p)|].
    apply (Hasc (p + d)); [done|]. by rewrite <- Nat.add_succ_r.
Qed.

Lemma ascending_settled (l : list F) :
  Forall ok l -> ascending l -> settled l (length l).
Proof.
  intros Hok Hasc p q x y Hp Hpq Hx Hy.
  pose proof (ascending_le l Hok Hasc (q - p) p x y Hx) as Hle.
  replace (p + (q - p)) with q in Hle by lia. specialize (Hle Hy).
  rewrite leb_ltb in Hle by (eapply Forall_lookup_1; eauto).
  by apply negb_true_iff in Hle.
Qed.

End Sorted.

(** X10: a list that is in ascending order already is copied as it is. *)
Theorem selection_sort_keeps_sorted :
  forall (values : loc) (h : gmap loc (list float)) (vs : list float),
    h !! values = Some vs ->
    Forall (fun x => not_nan x = true) vs ->
    ascending vs ->
    exists arr,
      selection_sort values h = Ok (arr, <[arr := vs]> h) /\ h !! arr = None.
Proof.
  intros values h vs Hvs Hok Hasc. exists (fresh (dom h)). split.
  - apply selection_sort_settled; [done|].
    by apply (ascending_settled (fun x => not_nan x = true)).
  - apply not_elem_of_dom, is_fresh.
Qed.

(** X11: sorting the sorted copy again gives a third list with the same
    contents, whatever the values are (NaN included). *)
Theorem selection_sort_idempotent :
  forall (values : loc) (h : gmap loc (list float)) (vs : list float),
    h !! values = Some vs ->
    exists arr sorted arr2,
      selection_sort values h = Ok (arr, <[arr := sorted]> h)
      /\ selection_sort arr (<[arr := sorted]> h) =
         Ok (arr2, <[arr2 := sorted]> (<[arr := sorted]> h))
      /\ arr2 <> arr /\ arr2 <> values.
Proof.
  intros values h vs Hvs.
  destruct (selection_sort_runs (fun x => not_nan x = true) values h vs Hvs)
    as (arr & sorted & Hrun & Hfresh & _ & Hset).
  exists arr, sorted, (fresh (dom (<[arr := sorted]> h))).
  split; [done|]. split.
  - apply selection_sort_settled; [|done].
    apply lookup_insert_eq.
  - pose proof (is_fresh (dom (<[arr := sorted]> h))) as Hnew. split.
    + intros E. apply Hnew. rewrite E. apply elem_of_dom.
      rewrite lookup_insert_eq. eauto.
    + intros E. apply Hnew. rewrite E. apply elem_of_dom.
      rewrite lookup_insert_ne by congruence. eauto.
Qed.

Lemma selection_sort_keeps_sorted_witness :
  exists arr,
    selection_sort 1%positive {[1%positive := [1; 2; 2; 3]%float]} =
    Ok (arr, <[arr := [1; 2; 2; 3]%float]> {[1%positive := [1; 2; 2; 3]%float]})
    /\ ({[1%positive := [1; 2; 2; 3]%float]} : gmap loc (list float)) !! arr = None.
Proof.
  apply (selection_sort_keeps_sorted 1%positive {[1%positive := [1; 2; 2; 3]%float]}).
  - reflexivity.
  - repeat constructor.
  - intros [|[|[|[|i]]]] x y; simpl; intros [= <-] [= <-]; reflexivity.
Defined.

Lemma selection_sort_idempotent_witness :
  exists arr sorted arr2,
    selection_sort 1%positive {[1%positive := [3; 1; 2]%float]} =
    Ok (arr, <[arr := sorted]> {[1%positive := [3; 1; 2]%float]})
    /\ selection_sort arr (<[arr := sorted]> {[1%positive := [3; 1; 2]%float]}) =
       Ok (arr2, <[arr2 := sorted]> (<[arr := sorted]> {[1%positive := [3; 1; 2]%float]}))
    /\ arr2 <> arr /\ arr2 <> 1%positive.
Proof.
  apply (selection_sort_idempotent 1%positive {[1%positive := [3; 1; 2]%float]} [3; 1; 2]%float).
  reflexivity.
Defined.

Section Modes.
Context {F : Type} `{Arith F} (ok : F -> Prop) `{!ArithLaws F ok}.

Lemma occurrences_nonneg (v : F) l : 0 <= occurrences v l.
Proof. induction l as [|x l IH]; simpl; [done|]. destruct (feqb x v); lia. Qed.

Lemma occurrences_elem (v : F) l : ok v -> v ∈ l -> 1 <= occurrences v l.
Proof.
  intros Hv. induction l as [|x l IH]; [by intros ?%elem_of_nil|].
  intros [E|Hin]%elem_of_cons; simpl.
  - subst x. rewrite (eqb_refl v Hv). pose proof (occurrences_nonneg v l). lia.
  - specialize (IH Hin). destruct (feqb x v); lia.
Qed.

Lemma occurrences_perm (v : F) l l' : l ≡ₚ l' -> occurrences v l = occurrences v l'.
Proof. induction 1; simpl; lia. Qed.

Lemma max_occurrences_ub (v : F) l : occurrences v l <= max_occurrences l.
Proof.
  destruct (has v l) eqn:Hv.
  - apply has_elem in Hv as (x & Hx & Hxv).
    rewrite <- (occurrences_equiv ok x v l Hxv).
    apply fold_right_max_ub, list_elem_of_fmap. eauto.
  - rewrite (occurrences_has v l Hv). apply fold_right_max_nonneg.
Qed.

Lemma fold_right_max_attained xs :
  xs <> [] -> (forall x, x ∈ xs -> 0 <= x) -> fold_right Z.max 0 xs ∈ xs.
Proof.
  induction xs as [|x xs IH]; [done|]. intros _ Hpos. simpl.
  destruct xs as [|y xs].
  - simpl. rewrite Z.max_l; [left|]. apply Hpos. left.
  - destruct (Z.max_spec x (fold_right Z.max 0 (y :: xs))) as [[_ ->]|[_ ->]].
    + right. apply IH; [done|]. intros z Hz. apply Hpos. by right.
    + left.
Qed.

Lemma max_occurrences_attained (l : list F) :
  l <> [] -> exists x, x ∈ l /\ occurrences x l = max_occurrences l.
Proof.
  intros Hne. unfold max_occurrences.
  destruct (proj1 (list_elem_of_fmap _ _ _)
              (fold_right_max_attained (map (fun v => occurrences v l) l)
                 ltac:(by destruct l)
                 ltac:(intros x (v & -> & _)%list_elem_of_fmap; apply occurrences_nonneg)))
    as (x & Hx & Hin).
  eauto.
Qed.

Lemma max_occurrences_perm (l l' : list F) :
  l ≡ₚ l' -> max_occurrences l = max_occurrences l'.
Proof.
  intros Hp. apply Z.le_antisymm.
  - destruct l as [|a l0]; [apply fold_right_max_nonneg|].
    destruct (max_occurrences_attained (a :: l0)) as (x & _ & <-); [done|].
    rewrite (occurrences_perm x _ _ Hp). apply max_occurrences_ub.
  - destruct l' as [|a l0]; [apply fold_right_max_nonneg|].
    destruct (max_occurrences_attained (a :: l0)) as (x & _ & <-); [done|].
    rewrite <- (occurrences_perm x _ _ Hp). apply max_occurrences_ub.
Qed.

Lemma has_filter_occurrences (v : F) (m : Z) l ks :
  has v (List.filter (fun x => occurrences x l =? m) ks) =
  has v ks && (occurrences v l =? m).
Proof.
  induction ks as [|k ks IH]; simpl; [done|].
  destruct (feqb k v) eqn:Hkv.
  - rewrite (occurrences_equiv ok k v l Hkv). simpl.
    destruct (occurrences v l =? m) eqn:E; simpl.
    + by rewrite Hkv.
    + rewrite IH. by rewrite !andb_false_r.
  - simpl. destruct (occurrences k l =? m); simpl; by rewrite ?Hkv, IH.
Qed.

(** Which values [mode] returns, up to [==]. *)
Lemma has_mode (v : F) l :
  Forall ok l ->
  has v (mode l) = true <->
  2 <= occurrences v l /\ forall w, occurrences w l <= occurrences v l.
Proof.
  intros Hok. rewrite (mode_modal_values ok l Hok). unfold modal_values.
  destruct (Z.leb_spec (max_occurrences l) 1) as [Hmax|Hmax].
  - split; [done|]. intros [Hv _]. pose proof (max_occurrences_ub v l). lia.
  - rewrite has_filter_occurrences, (has_first_occurrences ok v l), andb_true_iff, Z.eqb_eq.
    split.
    + intros [_ Hv]. split; [lia|]. intros w. rewrite Hv. apply max_occurrences_ub.
    + intros [Hv Hall].
      assert (occurrences v l = max_occurrences l) as Heq.
      { apply Z.le_antisymm; [apply max_occurrences_ub|].
        destruct (max_occurrences_attained l) as (x & _ & <-); [|apply Hall].
        intros ->. simpl in Hv. lia. }
      split; [|done]. destruct (has v l) eqn:E; [done|].
      rewrite (occurrences_has v l E) in Hv. lia.
Qed.

Lemma mode_distinct_members l :
  Forall ok l -> distinct (mode l) /\ mode l ⊆ l.
Proof.
  intros Hok. rewrite (mode_modal_values ok l Hok). unfold modal_values.
  destruct (max_occurrences l <=? 1); [split; [done|apply list_subseteq_nil]|].
  split.
  - apply distinct_filter, (distinct_first_occurrences ok).
  - intros x Hx. apply (first_occurrences_subseteq l).
    apply list_elem_of_In, filter_In in Hx as [Hx _]. by apply list_elem_of_In.
Qed.

Lemma mode_nil_iff l :
  Forall ok l -> mode l = [] <-> forall v, v ∈ l -> occurrences v l = 1.
Proof.
  intros Hok. split.
  - intros Hnil v Hv.
    assert (ok v) as Hokv by (eapply Forall_forall; eauto).
    pose proof (occurrences_elem v l Hokv Hv) as H1.
    destruct (Z.le_gt_cases (occurrences v l) 1) as [|H2]; [lia|].
    destruct (max_occurrences_attained l) as (x & Hx & Hmax).
    { intros ->. by apply elem_of_nil in Hv. }
    assert (has x (mode l) = true) as Hhas.
    { apply has_mode; [done|]. pose proof (max_occurrences_ub v l). split; [lia|].
      intros w. rewrite Hmax. apply max_occurrences_ub. }
    by rewrite Hnil in Hhas.
  - intros Hall. rewrite (mode_modal_values ok l Hok). unfold modal_values.
    destruct (Z.leb_spec (max_occurrences l) 1) as [|Hmax]; [done|].
    assert (max_occurrences l <= 1); [|lia].
    apply fold_right_max_lub; [lia|].
    intros x (v & -> & Hv)%list_elem_of_fmap. rewrite (Hall v Hv). lia.
Qed.

Lemma has_mode_perm (v : F) l l' :
  Forall ok l -> l ≡ₚ l' -> has v (mode l) = has v (mode l').
Proof.
  intros Hok Hp. assert (Forall ok l') as Hok' by (by rewrite <- Hp).
  apply eq_true_iff_eq. rewrite !has_mode by done.
  rewrite (occurrences_perm v l l' Hp).
  split; intros [Hv Hall]; (split; [done|]); intros w;
    [rewrite <- (occurrences_perm w l l' Hp)|rewrite (occurrences_perm w l l' Hp)];
    apply Hall.
Qed.

End Modes.

(** X12: [mode] returns a value equal to [v] exactly when [v] occurs
    at least twice and no value occurs more often. *)
Theorem mode_characterised :
  forall (l : list float) (v : float),
    Forall (fun x => not_nan x = true) l ->
    has v (mode l) = true <->
    2 <= occurrences v l /\ forall w, occurrences w l <= occurrences v l.
Proof. intros l v Hok. by apply (has_mode (fun x => not_nan x = true)). Qed.

Lemma mode_characterised_witness :
  has 2%float (mode [1; 2; 2; 3]%float) = true <->
  2 <= occurrences 2%float [1; 2; 2; 3]%float
  /\ forall w, occurrences w [1; 2; 2; 3]%float <= occurrences 2%float [1; 2; 2; 3]%float.
Proof.
  apply (mode_characterised [1; 2; 2; 3]%float 2%float). repeat constructor.
Defined.

(** X13: [mode] returns no value twice, and only values of the list. *)
Theorem mode_distinct :
  forall l : list float,
    Forall (fun x => not_nan x = true) l ->
    distinct (mode l) /\ mode l ⊆ l.
Proof. intros l Hok. by apply (mode_distinct_members (fun x => not_nan x = true)). Qed.

Lemma mode_distinct_witness :
  distinct (mode [1; 1; 2; 2]%float) /\ mode [1; 1; 2; 2]%float ⊆ [1; 1; 2; 2]%float.
Proof. apply (mode_distinct [1; 1; 2; 2]%float). repeat constructor. Defined.

(** X14: [mode] returns the empty list exactly when no value is
    repeated. *)
Theorem mode_empty_iff :
  forall l : list float,
    Forall (fun x => not_nan x = true) l ->
    mode l = [] <-> forall v, v ∈ l -> occurrences v l = 1.
Proof. intros l Hok. by apply (mode_nil_iff (fun x => not_nan x = true)). Qed.

Lemma mode_empty_iff_witness :
  mode [1; 2; 3]%float = [] <->
  forall v, v ∈ [1; 2; 3]%float -> occurrences v [1; 2; 3]%float = 1.
Proof. apply (mode_empty_iff [1; 2; 3]%float). repeat constructor. Defined.

(** X15: which values are modes does not depend on the order of the
    list. *)
Theorem mode_permutation :
  forall (l l' : list float) (v : float),
    Forall (fun x => not_nan x = true) l ->
    l ≡ₚ l' ->
    has v (mode l) = has v (mode l').
Proof. intros l l' v Hok Hp. by apply (has_mode_perm (fun x => not_nan x = true)). Qed.

Lemma mode_permutation_witness :
  has 2%float (mode [1; 2; 2]%float) = has 2%float (mode [2; 1; 2]%float).
Proof.
  apply (mode_permutation [1; 2; 2]%float [2; 1; 2]%float 2%float).
  - repeat constructor.
  - apply perm_swap.
Defined.

(** ** The counting loop of mode *)

Lemma dict_set_total {F} `{Arith F} (d : list (F * Z)) (v : F) :
  total_count (dict_set d v (dict_get d v 0 + 1)) = total_count d + 1.
Proof.
  unfold total_count. induction d as [|[k c] d IH]; simpl; [done|].
  destruct (feqb k v); simpl; lia.
Qed.

Lemma count_loop_total {F} `{Arith F} (l : list F) : forall d,
  total_count (fold_left (fun counts v => dict_set counts v (dict_get counts v 0 + 1)) l d)
  = total_count d + Z.of_nat (length l).
Proof.
  induction l as [|x l IH]; intros d; simpl fold_left; [simpl; lia|].
  rewrite IH, dict_set_total. simpl length. lia.
Qed.

(** X16: the first loop of [mode] counts every element once: the counts
    of the dictionary add up to the length of the list, and none is below 1. *)
Theorem count_values_total :
  forall (F : Type) (A : Arith F) (values : list F),
    total_count (count_values values) = Z.of_nat (length values)
    /\ Forall (fun kc => 1 <= snd kc) (count_values values).
Proof.
  intros F A values. split; [apply (count_loop_total values [])|].
  unfold count_values.
  assert (forall d : list (F * Z), Forall (fun kc => 1 <= snd kc) d ->
            Forall (fun kc => 1 <= snd kc)
              (fold_left (fun counts v => dict_set counts v (dict_get counts v 0 + 1))
                         values d)) as Hloop; [|by apply Hloop].
  induction values as [|x l IH]; intros d Hd; simpl; [done|].
  apply IH. clear IH. induction Hd as [|[k c] d Hk Hd IHd]; simpl.
  - by repeat constructor.
  - destruct (feqb k x); constructor; simpl in *; auto; lia.
Qed.

Lemma split_words_space s c t : forall word,
  is_space c = true ->
  split_words word (s ++ c :: t) = split_words word (s ++ [c]) ++ split_words [] t.
Proof.
  induction s as [|d s IH]; intros word Hc; simpl.
  - rewrite Hc. by destruct (is_nil word).
  - destruct (is_space d); [|by apply IH].
    destruct (is_nil word); simpl; by rewrite IH.
Qed.

Lemma split_app (line rest : string) :
  ends_line line = true ->
  split (line ++ rest) = split line ++ split rest.
Proof.
  unfold ends_line, split. rewrite list_ascii_of_string_app.
  destruct (list_ascii_of_string line) as [|d s] using rev_ind; [done|].
  rewrite rev_app_distr. simpl. intros Hc.
  rewrite <- app_assoc. simpl. by apply split_words_space.
Qed.

(** X2: the tokens do not depend on how the text is cut into lines: when
    every line but the last ends with white space (its newline),
    [read_tokens] returns what [split] returns on the whole text. *)
Theorem read_tokens_lines :
  forall (f : list string) (last : string),
    Forall (fun line => ends_line line = true) f ->
    read_tokens (f ++ [last]) = split (String.concat EmptyString (f ++ [last])).
Proof.
  intros f last Hf. unfold read_tokens. rewrite read_tokens_flat. simpl.
  induction Hf as [|line f Hline Hf IH]; simpl.
  - apply app_nil_r.
  - rewrite IH. destruct (f ++ [last]) as [|l0 r0] eqn:E.
    + by destruct f.
    + rewrite <- E. change (line ++ EmptyString ++ String.concat EmptyString (f ++ [last]))%string
        with (line ++ String.concat EmptyString (f ++ [last]))%string.
      by rewrite split_app.
Qed.

Lemma read_tokens_lines_witness :
  read_tokens [String "1" (String " " (String "2" (String "010" EmptyString))); "3"%string] =
  split (String.concat EmptyString
           [String "1" (String " " (String "2" (String "010" EmptyString))); "3"%string]).
Proof.
  apply (read_tokens_lines
           [String "1" (String " " (String "2" (String "010" EmptyString)))] "3"%string).
  repeat constructor.
Defined.

(** * The floats the conversions return

    [float_of_int] and [float_int_truediv] build a float from the result
    of a rounding; that result is a valid binary64 number, so the float is
    what the rounding says. *)

Lemma Zdigits2_bounds m :
  0 < m -> 2 ^ (Zdigits2 m - 1) <= m < 2 ^ Zdigits2 m.
Proof.
  destruct m as [|p|p]; try lia. intros _. simpl Zdigits2. rewrite digits2_pos_size.
  pose proof (Pos.size_gt p) as Hgt. pose proof (Pos.size_le p) as Hle.
  apply Pos2Z.pos_lt_pos in Hgt. apply Pos2Z.pos_le_pos in Hle.
  rewrite Pos2Z.inj_pow in Hgt, Hle. change (Z.pos p~0) with (2 * Z.pos p) in Hle.
  replace (Z.pos (Pos.size p)) with (Z.succ (Z.pos (Pos.size p) - 1)) in Hle at 1 by lia.
  rewrite Z.pow_succ_r in Hle by lia. lia.
Qed.

Lemma Zdigits2_lt m n : 0 <= n -> 0 <= m < 2 ^ n -> Zdigits2 m <= n.
Proof.
  intros Hn [Hm Hlt]. destruct m as [|p|p]; [done| |lia].
  by apply digits2_pos_bound.
Qed.

Lemma Zdigits2_ge m j : 0 <= j -> 2 ^ j <= m -> j + 1 <= Zdigits2 m.
Proof.
  intros Hj Hm. assert (0 < m) as Hpos by (pose proof (Z.pow_pos_nonneg 2 j); lia).
  destruct (Zdigits2_bounds m Hpos) as [_ Hlt].
  assert (Zdigits2 m <= j -> False); [|lia]. intros Hle.
  assert (2 ^ Zdigits2 m <= 2 ^ j); [|lia].
  apply Z.pow_le_mono_r; [lia|done].
Qed.

Lemma shr_1_div2 mrs : 0 <= shr_m mrs -> shr_m (shr_1 mrs) = shr_m mrs / 2.
Proof.
  destruct mrs as [m r s]. simpl. intros Hm. rewrite <- Z.div2_div.
  by destruct m as [|[p|p|]|p].
Qed.

Lemma shr_m_iter k mrs :
  0 <= shr_m mrs ->
  shr_m (SpecFloat.iter_pos shr_1 k mrs) = shr_m mrs / 2 ^ Z.pos k.
Proof.
  intros Hm. rewrite iter_pos_iter.
  induction k as [|k IH] using Pos.peano_ind.
  - simpl. by rewrite shr_1_div2.
  - rewrite Pos.iter_succ, shr_1_div2.
    + rewrite IH, Pos2Z.inj_succ, Z.pow_succ_r, Z.div_div by lia. f_equal. lia.
    + rewrite IH. apply Z.div_pos; [done|]. by apply Z.pow_pos_nonneg.
Qed.

(** The first shift of a rounding: down to the exponent that the number
    of digits asks for. *)
Lemma shr_fexp_m mx ex lx :
  0 <= mx -> ex <= fexp prec emax (Zdigits2 mx + ex) ->
  exists mrs,
    shr_fexp prec emax mx ex lx = (mrs, fexp prec emax (Zdigits2 mx + ex))
    /\ shr_m mrs = mx / 2 ^ (fexp prec emax (Zdigits2 mx + ex) - ex).
Proof.
  intros Hm Hex. unfold shr_fexp, shr.
  set (E := fexp prec emax (Zdigits2 mx + ex)) in *.
  destruct (E - ex) as [|k|k] eqn:Ek; [| |lia].
  - eexists. split; [f_equal; lia|]. rewrite shr_record_of_loc_m. simpl. by rewrite Z.div_1_r.
  - eexists. split; [f_equal; lia|].
    rewrite shr_m_iter; by rewrite shr_record_of_loc_m.
Qed.

Lemma round_nearest_even_range m l :
  m <= round_nearest_even m l <= m + 1.
Proof. destruct l as [|[]]; simpl; try lia. destruct (Z.even m); lia. Qed.

Lemma fexp_eq e : fexp prec emax e = Z.max (e - 53) (-1074).
Proof. reflexivity. Qed.

(** A rounding returns a valid number. *)
Lemma binary_round_aux_valid s mx ex lx :
  0 <= mx -> ex <= fexp prec emax (Zdigits2 mx + ex) ->
  valid_binary (binary_round_aux prec emax s mx ex lx) = true.
Proof.
  intros Hm Hex. unfold binary_round_aux.
  destruct (shr_fexp_m mx ex lx Hm Hex) as (mrs1 & -> & Hm1).
  set (E := fexp prec emax (Zdigits2 mx + ex)) in *.
  set (m2 := round_nearest_even (shr_m mrs1) (loc_of_shr_record mrs1)).
  pose proof (round_nearest_even_range (shr_m mrs1) (loc_of_shr_record mrs1)) as Hr.
  fold m2 in Hr. rewrite Hm1 in Hr.
  assert (0 <= E - ex) as Hk by lia.
  pose proof (Z.pow_pos_nonneg 2 (E - ex) ltac:(lia) Hk) as Hpow.
  assert (0 <= mx / 2 ^ (E - ex)) as Hm1pos by (by apply Z.div_pos).
  assert (-1074 <= E) as Hemin by (unfold E; rewrite fexp_eq; lia).
  (* the shifted mantissa has at most 53 digits *)
  assert (mx / 2 ^ (E - ex) < 2 ^ 53) as Hm1lt.
  { destruct (Z.eq_dec mx 0) as [->|Hne]; [by rewrite Z.div_0_l by lia|].
    destruct (Zdigits2_bounds mx ltac:(lia)) as [_ Hub].
    apply Z.div_lt_upper_bound; [done|]. rewrite <- Z.pow_add_r by lia.
    eapply Z.lt_le_trans; [exact Hub|]. apply Z.pow_le_mono_r; [lia|].
    unfold E. rewrite fexp_eq. lia. }
  (* and 53 of them above the smallest exponent *)
  assert (-1074 < E -> 2 ^ 52 <= mx / 2 ^ (E - ex)) as Hm1ge.
  { intros Hnormal.
    assert (E = Zdigits2 mx + ex - 53) as HE by (unfold E in *; rewrite fexp_eq in *; lia).
    assert (0 < mx) as Hpos.
    { destruct (Z.eq_dec mx 0) as [->|]; [|lia]. simpl in HE. lia. }
    destruct (Zdigits2_bounds mx Hpos) as [Hlb _].
    apply Z.div_le_lower_bound; [done|]. rewrite <- Z.pow_add_r by lia.
    eapply Z.le_trans; [|exact Hlb]. apply Z.pow_le_mono_r; lia. }
  destruct (Z.eq_dec m2 (2 ^ 53)) as [Hcarry|Hnocarry].
  - (* the rounding carried into a 54th digit *)
    rewrite Hcarry. unfold shr_fexp.
    change (Zdigits2 (2 ^ 53)) with 54. rewrite fexp_eq.
    replace (Z.max (54 + E - 53) (-1074) - E) with 1 by lia.
    change (shr (shr_record_of_loc (2 ^ 53) loc_Exact) E 1)
      with ({| shr_m := 4503599627370496; shr_r := false; shr_s := false |}, E + 1).
    cbn [shr_m]. destruct (Z.leb_spec (E + 1) (emax - prec)); [|done].
    cbn [SpecFloat.valid_binary]. unfold bounded, canonical_mantissa.
    change (Z.pos (digits2_pos 4503599627370496)) with 53. rewrite fexp_eq.
    apply andb_true_iff. split; [apply Z.eqb_eq; lia|by apply Z.leb_le].
  - assert (0 <= m2 < 2 ^ 53) as Hm2 by lia.
    pose proof (Zdigits2_lt m2 53 ltac:(lia) Hm2) as Hd2.
    unfold shr_fexp, shr. rewrite fexp_eq.
    destruct (Z.max (Zdigits2 m2 + E - 53) (-1074) - E) as [|k|k] eqn:Ek; [|lia|].
    all: rewrite shr_record_of_loc_m.
    all: destruct m2 as [|p|p] eqn:Em2; [done| |lia].
    all: destruct (Z.leb_spec E (emax - prec)); [|done].
    all: cbn [shr_m SpecFloat.valid_binary]; unfold bounded, canonical_mantissa; rewrite fexp_eq.
    all: apply andb_true_iff; split; [apply Z.eqb_eq|by apply Z.leb_le].
    all: simpl Zdigits2 in *.
    all: destruct (Z.eq_dec E (-1074)) as [HE|HE]; [lia|].
    all: assert (53 <= Z.pos (digits2_pos p)) by
           (apply (Zdigits2_ge (Z.pos p) 52); [lia|]; specialize (Hm1ge ltac:(lia)); lia).
    all: lia.
Qed.

Lemma binary_round_valid s p ex : valid_binary (binary_round prec emax s p ex) = true.
Proof.
  unfold binary_round, shl_align.
  set (e' := fexp prec emax (Z.pos (digits2_pos p) + ex)).
  destruct (e' - ex) as [|d|d] eqn:Ed.
  - apply binary_round_aux_valid; [lia|]. simpl Zdigits2. fold e'. lia.
  - apply binary_round_aux_valid; [lia|]. simpl Zdigits2. fold e'. lia.
  - apply binary_round_aux_valid; [lia|]. simpl Zdigits2.
    rewrite digits2_pos_iter_xO.
    replace (Z.pos (digits2_pos p + d) + e') with (Z.pos (digits2_pos p) + ex) by lia.
    fold e'. lia.
Qed.

Lemma Z_to_sf_valid n : valid_binary (Z_to_sf n) = true.
Proof. destruct n; [done|apply binary_round_valid..]. Qed.

Lemma Z_div_sf_valid n m : m <> 0 -> valid_binary (Z_div_sf n m) = true.
Proof.
  intros Hm. unfold Z_div_sf. destruct (Z.eq_dec n 0) as [->|Hn]; [done|].
  assert (match n with
          | 0 => S754_zero (m <? 0)
          | _ => let '(q, e, l) := SFdiv_core_binary prec emax (Z.abs n) 0 (Z.abs m) 0 in
                 binary_round_aux prec emax (xorb (n <? 0) (m <? 0)) q e l
          end =
          let '(q, e, l) := SFdiv_core_binary prec emax (Z.abs n) 0 (Z.abs m) 0 in
          binary_round_aux prec emax (xorb (n <? 0) (m <? 0)) q e l) as ->
    by (by destruct n).
  pose proof (SFdiv_core_binary_nonneg prec emax (Z.abs n) 0 (Z.abs m) 0
                ltac:(lia) ltac:(lia)) as Hq.
  assert (0 < Z.abs n) as Ha by lia. assert (0 < Z.abs m) as Hb by lia.
  revert Hq. generalize (Z.abs n) (Z.abs m) Ha Hb. clear. intros a b Ha Hb.
  unfold SFdiv_core_binary.
  destruct (Zdigits2_bounds a Ha) as [Ha1 Ha2].
  destruct (Zdigits2_bounds b Hb) as [Hb1 Hb2].
  set (d1 := Zdigits2 a) in *. set (d2 := Zdigits2 b) in *.
  assert (1 <= d1) as Hd1 by (apply (Zdigits2_ge a 0); lia).
  assert (1 <= d2) as Hd2 by (apply (Zdigits2_ge b 0); lia).
  replace (0 - 0) with 0 by lia. rewrite !Z.add_0_r.
  set (e' := Z.min (fexp prec emax (d1 - d2)) 0).
  assert (e' <= 0) as He' by (unfold e'; lia).
  assert (e' <= Z.max (d1 - d2 - 53) (-1074)) as He'' by (unfold e'; rewrite fexp_eq; lia).
  set (m' := match 0 - e' with 0 => a | Z.pos _ => Z.shiftl a (0 - e') | Z.neg _ => 0 end).
  assert (m' = a * 2 ^ (- e')) as Hm'.
  { subst m'. replace (0 - e') with (- e') by lia.
    destruct (- e') as [|k|k] eqn:Ek; [lia| |lia].
    by rewrite Z.shiftl_mul_pow2. }
  pose proof (Z.pow_pos_nonneg 2 (- e') ltac:(lia) ltac:(lia)) as Hpow.
  pose proof (Z_div_mod_eq_full m' b) as Hdm. unfold Z.div, Z.modulo in Hdm.
  assert (m' / b = fst (Z.div_eucl m' b)) as Hquot by (unfold Z.div; by destruct (Z.div_eucl m' b)).
  destruct (Z.div_eucl m' b) as [q r]. simpl in Hquot. subst q. simpl. intros Hq.
  apply binary_round_aux_valid; [done|].
  rewrite fexp_eq. destruct (Z.le_gt_cases e' (-1074)) as [|Hnormal]; [lia|].
  assert (d1 - e' - d2 >= 53) as Hdig by lia.
  assert (d1 - e' - d2 <= Zdigits2 (m' / b)); [|lia].
  replace (d1 - e' - d2) with ((d1 - e' - d2 - 1) + 1) by lia.
  apply Zdigits2_ge; [lia|].
  apply Z.div_le_lower_bound; [done|].
  assert (b * 2 ^ (d1 - e' - d2 - 1) <= 2 ^ d2 * 2 ^ (d1 - e' - d2 - 1)) as H1.
  { apply Z.mul_le_mono_nonneg_r; [apply Z.pow_nonneg|]; lia. }
  rewrite <- Z.pow_add_r in H1 by lia.
  assert (2 ^ (d2 + (d1 - e' - d2 - 1)) = 2 ^ (d1 - 1) * 2 ^ (- e')) as H2.
  { rewrite <- Z.pow_add_r by lia. f_equal. lia. }
  rewrite Hm'. rewrite H2 in H1. eapply Z.le_trans; [exact H1|].
  apply Z.mul_le_mono_nonneg_r; lia.
Qed.

(** What [float(n)] returns is the rounding of [n]. *)
Lemma float_of_int_Prim2SF n y :
  float_of_int n = Ok y ->
  Prim2SF y = Z_to_sf n /\ sf_finite (Z_to_sf n) = true.
Proof.
  unfold float_of_int. pose proof (Z_to_sf_valid n) as Hv.
  pose proof (binary_normalize_not_nan prec emax n 0 false) as Hnan. fold (Z_to_sf n) in Hnan.
  destruct (Z_to_sf n) as [s|s| |s m e] eqn:E; try done; intros [= <-];
    (split; [exact (Prim2SF_SF2Prim _ Hv)|done]).
Qed.

Lemma Z_to_sf_signed n : 0 <= n -> sf_signed false (Z_to_sf n) = true.
Proof.
  intros Hn. destruct n as [|p|p]; [done| |lia]. apply binary_round_signed.
Qed.

Lemma Z_div_sf_signed n m : 0 <= n -> 0 < m -> sf_signed false (Z_div_sf n m) = true.
Proof.
  intros Hn Hm. unfold Z_div_sf. destruct n as [|p|p]; [|..|lia].
  - by destruct (Z.ltb_spec m 0); [lia|].
  - pose proof (SFdiv_core_binary_nonneg prec emax (Z.abs (Z.pos p)) 0 (Z.abs m) 0
                  ltac:(lia) ltac:(lia)) as Hq.
    destruct (SFdiv_core_binary _ _ _ _ _ _) as [[q e] l]. simpl in Hq.
    destruct (Z.ltb_spec m 0); [lia|]. by apply binary_round_aux_signed.
Qed.

(** What [n / m] on two ints returns is the rounding of the quotient. *)
Lemma float_int_truediv_Prim2SF n m y :
  float_int_truediv n m = Ok y ->
  Prim2SF y = Z_div_sf n m /\ sf_finite (Z_div_sf n m) = true /\ m <> 0.
Proof.
  unfold float_int_truediv. destruct (Z.eqb_spec m 0) as [|Hm]; [done|].
  pose proof (Z_div_sf_valid n m Hm) as Hv.
  destruct (Z_div_sf n m) as [s|s| |s q e] eqn:E; try done; intros [= <-].
  - split; [exact (Prim2SF_SF2Prim _ Hv)|done].
  - split; [exact (Prim2SF_SF2Prim _ Hv)|]. split; [|done].
    exfalso. revert E. unfold Z_div_sf. destruct n as [|p|p]; [done|..].
    all: pose proof (SFdiv_core_binary_nonneg prec emax (Z.abs (Z.pos p)) 0 (Z.abs m) 0
                       ltac:(lia) ltac:(lia)) as Hq.
    all: simpl Z.abs in *.
    all: destruct (SFdiv_core_binary _ _ _ _ _ _) as [[q e] l]; simpl in Hq.
    all: intros E.
    all: match type of E with binary_round_aux _ _ ?sg _ _ _ = _ =>
           pose proof (binary_round_aux_signed prec emax sg q e l Hq) as Hs end.
    all: rewrite E in Hs; done.
  - split; [exact (Prim2SF_SF2Prim _ Hv)|done].
Qed.

Lemma digits_prefix_digits s : forallb is_digit (digits_prefix s) = true.
Proof.
  induction s as [|c s IH]; simpl; [done|].
  destruct (is_digit c) eqn:E; simpl; [by rewrite E|done].
Qed.

Lemma scan_parts_nonneg s :
  0 <= sc_int_part (scan s) /\ 0 <= sc_frac_part (scan s) /\ 0 < sc_frac_div (scan s).
Proof.
  destruct (scan_parts s) as (_ & -> & -> & _).
  split; [|split].
  - apply decimal_nonneg; [apply digits_prefix_digits|lia].
  - unfold fractional_part, fraction_digits.
    destruct (skip_digits (unsigned s)) as [|c r]; [done|].
    destruct (is_dot c); [|done].
    apply decimal_nonneg; [apply digits_prefix_digits|lia].
  - apply scan_frac_div_pos.
Qed.

Lemma float_opp_involutive (y : float) : (- - y)%float = y.
Proof.
  apply Prim2SF_inj. rewrite !opp_spec. by destruct (Prim2SF y) as [[]|[]| |[] ? ?].
Qed.

Lemma nonneg_not_nan y : nonneg y = true -> not_nan y = true.
Proof. unfold nonneg, not_nan. by destruct (Prim2SF y). Qed.

Lemma not_nan_opp y : not_nan (- y) = not_nan y.
Proof. unfold not_nan. rewrite opp_spec. by destruct (Prim2SF y). Qed.

(** The sum [int_part + frac_part / frac_div] is not NaN and not
    negative. *)
Lemma parse_number_magnitude (n q : float) (int_part frac_part frac_div : Z) :
  0 <= int_part -> 0 <= frac_part -> 0 < frac_div ->
  float_of_int int_part = Ok n -> float_int_truediv frac_part frac_div = Ok q ->
  nonneg (n + q) = true.
Proof.
  intros Hi Hf Hd Hn Hq.
  destruct (float_of_int_Prim2SF _ _ Hn) as [Hn' _].
  destruct (float_int_truediv_Prim2SF _ _ _ Hq) as [Hq' _].
  apply float_add_nonneg; unfold nonneg.
  - rewrite Hn'. by apply Z_to_sf_signed.
  - rewrite Hq'. by apply Z_div_sf_signed.
Qed.

Lemma parse_number_signed t v :
  parse_number (F:=float) t = Ok v ->
  not_nan v = true
  /\ (if negative (strip (list_ascii_of_string t)) then nonneg (- v) else nonneg v) = true.
Proof.
  unfold parse_number. destruct (is_nil _); [done|].
  destruct (_ || _); [done|]. set (st := scan _).
  destruct (scan_parts_nonneg (strip (list_ascii_of_string t))) as (Hi & Hf & Hd).
  fold st in Hi, Hf, Hd.
  assert (sc_negative st = negative (strip (list_ascii_of_string t))) as <-
    by apply (proj1 (scan_parts _)).
  cbn [int_truediv of_int binary64_arith].
  destruct (float_int_truediv _ _) as [q|] eqn:Eq; [|done].
  cbn [mbind result_bind].
  destruct (float_of_int _) as [n|] eqn:En; [|done].
  cbn [mbind result_bind fmul fadd fopp one binary64_arith].
  pose proof (parse_number_magnitude n q _ _ _ Hi Hf Hd En Eq) as Hsum.
  intros [= <-]. destruct (sc_negative st).
  - rewrite float_mul_opp_one, not_nan_opp, float_opp_involutive.
    split; [by apply nonneg_not_nan|done].
  - rewrite float_mul_one. split; [by apply nonneg_not_nan|done].
Qed.

Lemma parse_tokens_not_nan tokens : forall (vs : list float) k,
  parse_tokens tokens = Ok (vs, k) -> Forall (fun x => not_nan x = true) vs.
Proof.
  induction tokens as [|t tokens IH]; simpl; intros vs k.
  - by intros [= <- <-].
  - destruct (parse_number t) as [v|[]] eqn:E; try done.
    + destruct (parse_tokens tokens) as [[vs' k']|]; [|done].
      intros [= <- <-]. constructor; [|by apply (IH vs' k')].
      by apply (parse_number_signed t v).
    + destruct (parse_tokens tokens) as [[vs' k']|]; [|done].
      intros [= <- <-]. by apply (IH vs' k').
Qed.

(** ** What a rounding returns *)

Lemma shr_1_odd mrs : 0 <= shr_m mrs -> shr_r (shr_1 mrs) = Z.odd (shr_m mrs).
Proof.
  destruct mrs as [m r s]. simpl. intros Hm. by destruct m as [|[p|p|]|p].
Qed.

(** The round bit after [k] shifts is the bit [k - 1] of the mantissa. *)
Lemma shr_r_iter k mrs :
  0 <= shr_m mrs ->
  shr_r (SpecFloat.iter_pos shr_1 k mrs) = Z.odd (shr_m mrs / 2 ^ (Z.pos k - 1)).
Proof.
  intros Hm. destruct (Pos.eq_dec k 1%positive) as [->|Hk].
  - simpl. rewrite Z.div_1_r. by apply shr_1_odd.
  - destruct (Pos.succ_pred_or k) as [|Hs]; [done|]. rewrite <- Hs.
    rewrite iter_pos_iter, Pos.iter_succ, <- iter_pos_iter, shr_1_odd.
    + rewrite shr_m_iter by done.
      by replace (Z.pos (Pos.succ (Pos.pred k)) - 1) with (Z.pos (Pos.pred k)) by lia.
    + rewrite shr_m_iter by done. apply Z.div_pos; [done|]. by apply Z.pow_pos_nonneg.
Qed.

Lemma round_nearest_even_down mrs :
  shr_r mrs = false -> round_nearest_even (shr_m mrs) (loc_of_shr_record mrs) = shr_m mrs.
Proof. destruct mrs as [m [] []]; simpl; done. Qed.

(** The two shifts and the rounding between them, in one formula: [m2]
    is the rounded mantissa at the exponent [E]. *)
Lemma binary_round_aux_result s mx ex lx :
  0 <= mx -> ex <= fexp prec emax (Zdigits2 mx + ex) ->
  exists mrs,
    let E := fexp prec emax (Zdigits2 mx + ex) in
    let m2 := round_nearest_even (shr_m mrs) (loc_of_shr_record mrs) in
    shr_fexp prec emax mx ex lx = (mrs, E)
    /\ shr_m mrs = mx / 2 ^ (E - ex)
    /\ shr_m mrs <= m2 <= shr_m mrs + 1
    /\ m2 <= 2 ^ 53
    /\ binary_round_aux prec emax s mx ex lx =
       match m2 with
       | 0 => S754_zero s
       | Z.pos p =>
         if m2 =? 2 ^ 53
         then (if E + 1 <=? 971 then S754_finite s 4503599627370496 (E + 1)
               else S754_infinity s)
         else (if E <=? 971 then S754_finite s p E else S754_infinity s)
       | Z.neg _ => S754_nan
       end.
Proof.
  intros Hm Hex.
  destruct (shr_fexp_m mx ex lx Hm Hex) as (mrs1 & Hshr & Hm1).
  exists mrs1. cbv zeta.
  set (E := fexp prec emax (Zdigits2 mx + ex)) in *.
  set (m2 := round_nearest_even (shr_m mrs1) (loc_of_shr_record mrs1)).
  pose proof (round_nearest_even_range (shr_m mrs1) (loc_of_shr_record mrs1)) as Hr.
  fold m2 in Hr.
  assert (0 <= E - ex) as Hk by lia.
  pose proof (Z.pow_pos_nonneg 2 (E - ex) ltac:(lia) Hk) as Hpow.
  assert (0 <= shr_m mrs1) as Hm1pos by (rewrite Hm1; by apply Z.div_pos).
  assert (-1074 <= E) as Hemin by (unfold E; rewrite fexp_eq; lia).
  assert (shr_m mrs1 < 2 ^ 53) as Hm1lt.
  { rewrite Hm1. destruct (Z.eq_dec mx 0) as [->|Hne]; [by rewrite Z.div_0_l by lia|].
    destruct (Zdigits2_bounds mx ltac:(lia)) as [_ Hub].
    apply Z.div_lt_upper_bound; [done|]. rewrite <- Z.pow_add_r by lia.
    eapply Z.lt_le_trans; [exact Hub|]. apply Z.pow_le_mono_r; [lia|].
    unfold E. rewrite fexp_eq. lia. }
  do 3 (split; [done|]). split; [lia|].
  unfold binary_round_aux. rewrite Hshr. fold m2.
  destruct (Z.eqb_spec m2 (2 ^ 53)) as [Hcarry|Hnocarry].
  - rewrite Hcarry. unfold shr_fexp.
    change (Zdigits2 (2 ^ 53)) with 54. rewrite fexp_eq.
    replace (Z.max (54 + E - 53) (-1074) - E) with 1 by lia.
    change (shr (shr_record_of_loc (2 ^ 53) loc_Exact) E 1)
      with ({| shr_m := 4503599627370496; shr_r := false; shr_s := false |}, E + 1).
    cbn [shr_m]. change (emax - prec) with 971.
    change (2 ^ 53) with (Z.pos 9007199254740992). cbv iota. done.
  - assert (0 <= m2 < 2 ^ 53) as Hm2 by lia.
    pose proof (Zdigits2_lt m2 53 ltac:(lia) Hm2) as Hd2.
    unfold shr_fexp, shr. rewrite fexp_eq.
    destruct (Z.max (Zdigits2 m2 + E - 53) (-1074) - E) as [|k|k] eqn:Ek; [|lia|].
    all: rewrite shr_record_of_loc_m.
    all: destruct m2 as [|p|p] eqn:Em2; [done| |lia].
    all: done.
Qed.

(** A number below 1 is rounded to a number that is at most 1. *)
Lemma binary_round_aux_le_one s mx ex lx :
  0 <= mx -> ex <= fexp prec emax (Zdigits2 mx + ex) ->
  ex <= 0 -> mx < 2 ^ (- ex) ->
  sf_le_one (binary_round_aux prec emax s mx ex lx) = true.
Proof.
  intros Hm Hex Hex0 Hlt.
  destruct (binary_round_aux_result s mx ex lx Hm Hex)
    as (mrs & Hshr & Hm1 & Hr & Hm2 & ->).
  set (E := fexp prec emax (Zdigits2 mx + ex)) in *.
  set (m2 := round_nearest_even (shr_m mrs) (loc_of_shr_record mrs)) in *.
  assert (E <= -53) as HE.
  { pose proof (Zdigits2_lt mx (- ex) ltac:(lia) ltac:(lia)).
    unfold E. rewrite fexp_eq. lia. }
  assert (0 < 2 ^ (E - ex)) as Hpow by (apply Z.pow_pos_nonneg; lia).
  assert (shr_m mrs < 2 ^ (- E)) as Hm1lt.
  { rewrite Hm1. apply Z.div_lt_upper_bound; [done|].
    rewrite <- Z.pow_add_r by lia. by replace (E - ex + - E) with (- ex) by lia. }
  assert (m2 <= 2 ^ (- E)) as Hm2le by lia.
  assert (0 <= shr_m mrs) as Hm1pos by (rewrite Hm1; by apply Z.div_pos).
  destruct m2 as [|p|p] eqn:Em2; [done| |lia].
  destruct (Z.eqb_spec (Z.pos p) (2 ^ 53)) as [Hc|_].
  - destruct (Z.leb_spec (E + 1) 971); [|lia]. simpl.
    apply andb_true_iff. split; [apply Z.leb_le; lia|apply Z.leb_le].
    assert (53 <= - E) as H53.
    { destruct (Z.le_gt_cases 53 (- E)); [done|].
      assert (2 ^ (- E) < 2 ^ 53); [|lia]. apply Z.pow_lt_mono_r; lia. }
    change 4503599627370496 with (2 ^ 52). apply Z.pow_le_mono_r; lia.
  - destruct (Z.leb_spec E 971); [|lia]. simpl.
    apply andb_true_iff. split; apply Z.leb_le; lia.
Qed.

(** A number below [2^1024 - 2^970] is rounded to a finite number. *)
Lemma binary_round_aux_finite s mx ex :
  0 <= mx -> ex <= fexp prec emax (Zdigits2 mx + ex) ->
  ex <= 970 -> mx < (2 ^ 54 - 1) * 2 ^ (970 - ex) ->
  sf_finite (binary_round_aux prec emax s mx ex loc_Exact) = true.
Proof.
  intros Hm Hex Hex0 Hlt.
  destruct (binary_round_aux_result s mx ex loc_Exact Hm Hex)
    as (mrs & Hshr & Hm1 & Hr & Hm2 & ->).
  set (E := fexp prec emax (Zdigits2 mx + ex)) in *.
  set (m2 := round_nearest_even (shr_m mrs) (loc_of_shr_record mrs)) in *.
  assert (0 < 2 ^ (970 - ex)) as Hp970 by (apply Z.pow_pos_nonneg; lia).
  assert (E <= 971) as HE.
  { assert (mx < 2 ^ (1024 - ex)) as Hlt'.
    { replace (1024 - ex) with (54 + (970 - ex)) by lia. rewrite Z.pow_add_r by lia. nia. }
    pose proof (Zdigits2_lt mx (1024 - ex) ltac:(lia) ltac:(lia)).
    unfold E. rewrite fexp_eq. lia. }
  assert (0 <= shr_m mrs) as Hm1pos.
  { rewrite Hm1. apply Z.div_pos; [done|]. apply Z.pow_pos_nonneg; lia. }
  destruct m2 as [|p|p] eqn:Em2; [done| |lia].
  destruct (Z.eqb_spec (Z.pos p) (2 ^ 53)) as [Hc|_];
    [|by destruct (Z.leb_spec E 971); [|lia]].
  destruct (Z.leb_spec (E + 1) 971) as [|Hbig]; [done|]. exfalso.
  assert (E = 971) as HE971 by lia.
  (* the mantissa is 2^53 - 1 and the round bit is 0 *)
  assert (E - ex = Z.pos (Z.to_pos (E - ex))) as Hk by lia.
  unfold shr_fexp, shr in Hshr. fold E in Hshr. rewrite Hk in Hshr.
  injection Hshr as Hmrs _.
  assert (shr_r mrs = Z.odd (mx / 2 ^ (E - ex - 1))) as Hbit.
  { rewrite <- Hmrs. rewrite shr_r_iter by (cbn; lia).
    cbn [shr_m shr_record_of_loc]. by rewrite <- Hk. }
  assert (0 < 2 ^ (E - ex - 1)) as Hpk by (apply Z.pow_pos_nonneg; lia).
  assert (2 ^ (E - ex) = 2 * 2 ^ (E - ex - 1)) as Hpow2.
  { replace (E - ex) with (Z.succ (E - ex - 1)) at 1 by lia. rewrite Z.pow_succ_r; lia. }
  assert (mx / 2 ^ (E - ex - 1) < 2 ^ 54 - 1) as Hq.
  { apply Z.div_lt_upper_bound; [done|].
    replace (E - ex - 1) with (970 - ex) by lia. lia. }
  assert (shr_m mrs = mx / 2 ^ (E - ex - 1) / 2) as Hhalf.
  { rewrite Hm1, Hpow2, Z.div_div by lia. f_equal. lia. }
  pose proof (Z.div_mod (mx / 2 ^ (E - ex - 1)) 2 ltac:(lia)) as Hdm.
  pose proof (Z.mod_pos_bound (mx / 2 ^ (E - ex - 1)) 2 ltac:(lia)) as Hmod.
  rewrite <- Hhalf in Hdm.
  destruct (Z.eq_dec (shr_m mrs) (2 ^ 53 - 1)) as [Hmax|Hnot]; [|lia].
  assert (mx / 2 ^ (E - ex - 1) = 2 * (2 ^ 53 - 1)) as Heven by lia.
  rewrite Heven in Hbit.
  assert (shr_r mrs = false) as Hr0 by (rewrite Hbit; reflexivity).
  pose proof (round_nearest_even_down mrs Hr0) as Hdown. fold m2 in Hdown. lia.
Qed.

(** ** The quotient of two ints *)

(** The integer quotient the division rounds, and its exponent. *)
Lemma SFdiv_core_binary_quotient a b :
  0 < a -> 0 < b ->
  exists q e l,
    SFdiv_core_binary prec emax a 0 b 0 = (q, e, l)
    /\ e <= 0 /\ q = a * 2 ^ (- e) / b
    /\ e <= fexp prec emax (Zdigits2 q + e).
Proof.
  intros Ha Hb. unfold SFdiv_core_binary.
  destruct (Zdigits2_bounds a Ha) as [Ha1 Ha2].
  destruct (Zdigits2_bounds b Hb) as [Hb1 Hb2].
  set (d1 := Zdigits2 a) in *. set (d2 := Zdigits2 b) in *.
  assert (1 <= d1) as Hd1 by (apply (Zdigits2_ge a 0); lia).
  assert (1 <= d2) as Hd2 by (apply (Zdigits2_ge b 0); lia).
  replace (0 - 0) with 0 by lia. rewrite !Z.add_0_r.
  set (e' := Z.min (fexp prec emax (d1 - d2)) 0).
  assert (e' <= 0) as He' by (unfold e'; lia).
  assert (e' <= Z.max (d1 - d2 - 53) (-1074)) as He'' by (unfold e'; rewrite fexp_eq; lia).
  set (m' := match 0 - e' with 0 => a | Z.pos _ => Z.shiftl a (0 - e') | Z.neg _ => 0 end).
  assert (m' = a * 2 ^ (- e')) as Hm'.
  { subst m'. replace (0 - e') with (- e') by lia.
    destruct (- e') as [|k|k] eqn:Ek; [lia| |lia].
    by rewrite Z.shiftl_mul_pow2. }
  pose proof (Z.pow_pos_nonneg 2 (- e') ltac:(lia) ltac:(lia)) as Hpow.
  assert (m' / b = fst (Z.div_eucl m' b)) as Hquot
    by (unfold Z.div; by destruct (Z.div_eucl m' b)).
  destruct (Z.div_eucl m' b) as [q r]. simpl in Hquot. subst q.
  eexists _, _, _. split; [done|]. split; [done|]. split; [by rewrite Hm'|].
  rewrite fexp_eq. destruct (Z.le_gt_cases e' (-1074)) as [|Hnormal]; [lia|].
  assert (d1 - e' - d2 >= 53) as Hdig by lia.
  assert (d1 - e' - d2 <= Zdigits2 (m' / b)); [|lia].
  replace (d1 - e' - d2) with ((d1 - e' - d2 - 1) + 1) by lia.
  apply Zdigits2_ge; [lia|].
  apply Z.div_le_lower_bound; [done|].
  assert (b * 2 ^ (d1 - e' - d2 - 1) <= 2 ^ d2 * 2 ^ (d1 - e' - d2 - 1)) as H1.
  { apply Z.mul_le_mono_nonneg_r; [apply Z.pow_nonneg|]; lia. }
  rewrite <- Z.pow_add_r in H1 by lia.
  assert (2 ^ (d2 + (d1 - e' - d2 - 1)) = 2 ^ (d1 - 1) * 2 ^ (- e')) as H2.
  { rewrite <- Z.pow_add_r by lia. f_equal. lia. }
  rewrite Hm'. rewrite H2 in H1. eapply Z.le_trans; [exact H1|].
  apply Z.mul_le_mono_nonneg_r; lia.
Qed.

(** The quotient of a number by a larger one is at most 1. *)
Lemma Z_div_sf_le_one n m : 0 <= n < m -> sf_le_one (Z_div_sf n m) = true.
Proof.
  intros [Hn Hlt]. unfold Z_div_sf. destruct n as [|p|p]; [done| |lia].
  replace (Z.abs (Z.pos p)) with (Z.pos p) by done.
  replace (Z.abs m) with m by lia.
  destruct (SFdiv_core_binary_quotient (Z.pos p) m ltac:(lia) ltac:(lia))
    as (q & e & l & -> & He & Hq & Hpre).
  assert (0 < 2 ^ (- e)) as Hpow by (apply Z.pow_pos_nonneg; lia).
  apply binary_round_aux_le_one; try done.
  - rewrite Hq. apply Z.div_pos; lia.
  - rewrite Hq. apply Z.div_lt_upper_bound; [lia|]. nia.
Qed.

(** ** The sum of an integer and a fraction *)

Lemma shl_align_value mx ex ez :
  ez <= ex -> Z.pos (fst (shl_align mx ex ez)) = Z.pos mx * 2 ^ (ex - ez).
Proof.
  intros Hle. unfold shl_align. destruct (ez - ex) as [|d|d] eqn:Ed; [|lia|].
  - simpl. replace (ex - ez) with 0 by lia. simpl. lia.
  - simpl. rewrite pos_iter_xO. do 2 f_equal. lia.
Qed.

Lemma binary_round_finite s p e :
  e <= 970 -> Z.pos p < (2 ^ 54 - 1) * 2 ^ (970 - e) ->
  sf_finite (binary_round prec emax s p e) = true.
Proof.
  intros He Hlt. unfold binary_round, shl_align.
  set (e' := fexp prec emax (Z.pos (digits2_pos p) + e)).
  destruct (e' - e) as [|d|d] eqn:Ed.
  - apply binary_round_aux_finite; [lia| |lia|done]. simpl Zdigits2. fold e'. lia.
  - apply binary_round_aux_finite; [lia| |lia|done]. simpl Zdigits2. fold e'. lia.
  - apply binary_round_aux_finite; [lia| |lia|].
    + simpl Zdigits2. rewrite digits2_pos_iter_xO.
      replace (Z.pos (digits2_pos p + d) + e') with (Z.pos (digits2_pos p) + e) by lia.
      fold e'. lia.
    + rewrite pos_iter_xO. replace (970 - e') with (970 - e + Z.pos d) by lia.
      rewrite Z.pow_add_r by lia.
      assert (0 < 2 ^ Z.pos d) by (by apply Z.pow_pos_nonneg). nia.
Qed.

(** A finite number that is not negative, plus a number between 0
    and 1, is finite. *)
Lemma SFadd_finite x y :
  valid_binary x = true -> sf_finite x = true -> sf_signed false x = true ->
  sf_le_one y = true -> sf_signed false y = true ->
  sf_finite (SFadd prec emax x y) = true.
Proof.
  destruct x as [[]|[]| |[] mx ex], y as [[]|[]| |[] my ey]; try done.
  intros [Hc Hb]%andb_true_iff _ _ [Hey Hmy]%andb_true_iff _.
  apply Z.eqb_eq in Hc. apply Z.leb_le in Hb, Hey, Hmy.
  change (emax - prec) with 971 in Hb. rewrite fexp_eq in Hc.
  unfold SFadd. set (ez := Z.min ex ey). cbn [cond_Zopp].
  assert (ez <= ex /\ ez <= ey) as [Hzx Hzy] by (unfold ez; lia).
  pose proof (shl_align_value mx ex ez Hzx) as Ha.
  pose proof (shl_align_value my ey ez Hzy) as Hb'.
  set (a := fst (shl_align mx ex ez)) in *. set (b := fst (shl_align my ey ez)) in *.
  change (Z.pos a + Z.pos b) with (Z.pos (a + b)). cbn [binary_normalize].
  apply binary_round_finite; [lia|]. rewrite Pos2Z.inj_add, Ha, Hb'.
  (* the mantissa of [x] has at most 53 digits *)
  assert (Z.pos mx < 2 ^ 53) as Hmx.
  { destruct (Zdigits2_bounds (Z.pos mx) ltac:(lia)) as [_ Hub]. simpl Zdigits2 in Hub.
    eapply Z.lt_le_trans; [exact Hub|]. apply Z.pow_le_mono_r; lia. }
  assert (0 < 2 ^ (- ez)) as Hq by (apply Z.pow_pos_nonneg; lia).
  assert (2 ^ (970 - ez) = 2 ^ 970 * 2 ^ (- ez)) as HP.
  { rewrite <- Z.pow_add_r by lia. f_equal; lia. }
  assert (2 ^ (ex - ez) <= 2 * 2 ^ (970 - ez)) as Hpx.
  { replace (2 * 2 ^ (970 - ez)) with (2 ^ (971 - ez)).
    - apply Z.pow_le_mono_r; lia.
    - replace (971 - ez) with (Z.succ (970 - ez)) by lia. rewrite Z.pow_succ_r; lia. }
  assert (Z.pos my * 2 ^ (ey - ez) <= 2 ^ (- ez)) as Hy.
  { replace (- ez) with (- ey + (ey - ez)) by lia. rewrite Z.pow_add_r by lia.
    apply Z.mul_le_mono_nonneg_r; [apply Z.pow_nonneg; lia|done]. }
  assert (2 ^ (- ez) < 2 ^ (970 - ez)) as Hlt.
  { apply Z.pow_lt_mono_r; lia. }
  assert (0 < 2 ^ (ex - ez)) as Hpe by (apply Z.pow_pos_nonneg; lia).
  assert (Z.pos mx * 2 ^ (ex - ez) <= (2 ^ 53 - 1) * (2 * 2 ^ (970 - ez))) as Hx.
  { apply Z.mul_le_mono_nonneg; lia. }
  change (2 ^ 53) with 9007199254740992 in *.
  change (2 ^ 54) with 18014398509481984 in *.
  lia.
Qed.

(** ** The values parse_number returns *)

Lemma decimal_lt ds : forall v,
  forallb is_digit ds = true -> 0 <= v ->
  decimal ds v < (v + 1) * 10 ^ Z.of_nat (length ds).
Proof.
  unfold decimal. induction ds as [|c ds IH]; simpl fold_left; intros v Hd Hv.
  - simpl. lia.
  - simpl in Hd. apply andb_true_iff in Hd as [Hc Hds].
    unfold is_digit in Hc. apply andb_true_iff in Hc as [H0 H9].
    apply Z.leb_le in H0, H9. change (ord "0") with 48 in *. change (ord "9") with 57 in *.
    eapply Z.lt_le_trans; [apply IH; [done|lia]|].
    simpl length. rewrite Nat2Z.inj_succ, Z.pow_succ_r by lia.
    assert (0 < 10 ^ Z.of_nat (length ds)) by (apply Z.pow_pos_nonneg; lia). nia.
Qed.

Lemma scan_frac_lt s : sc_frac_part (scan s) < sc_frac_div (scan s).
Proof.
  destruct (scan_parts s) as (_ & _ & -> & ->).
  unfold fractional_part, divisor.
  pose proof (decimal_lt (fraction_digits s) 0) as Hlt. rewrite Z.mul_1_l in Hlt.
  apply Hlt; [|lia]. unfold fraction_digits.
  destruct (skip_digits (unsigned s)) as [|c r]; [done|].
  destruct (is_dot c); [apply digits_prefix_digits|done].
Qed.

Lemma is_finite_opp y : is_finite (- y) = is_finite y.
Proof. unfold is_finite. rewrite opp_spec. by destruct (Prim2SF y). Qed.

Lemma parse_number_is_finite t v :
  parse_number (F:=float) t = Ok v -> is_finite v = true.
Proof.
  unfold parse_number. destruct (is_nil _); [done|].
  destruct (_ || _); [done|]. set (st := scan _).
  destruct (scan_parts_nonneg (strip (list_ascii_of_string t))) as (Hi & Hf & Hd).
  pose proof (scan_frac_lt (strip (list_ascii_of_string t))) as Hlt.
  fold st in Hi, Hf, Hd, Hlt.
  cbn [int_truediv of_int binary64_arith].
  destruct (float_int_truediv _ _) as [q|] eqn:Eq; [|done].
  cbn [mbind result_bind].
  destruct (float_of_int _) as [n|] eqn:En; [|done].
  cbn [mbind result_bind fmul fadd fopp one binary64_arith].
  destruct (float_of_int_Prim2SF _ _ En) as [Hn Hnfin].
  destruct (float_int_truediv_Prim2SF _ _ _ Eq) as (Hq & _ & _).
  assert (is_finite (n + q) = true) as Hsum.
  { unfold is_finite. rewrite add_spec, Hn, Hq. apply SFadd_finite.
    - apply Z_to_sf_valid.
    - done.
    - by apply Z_to_sf_signed.
    - by apply Z_div_sf_le_one.
    - by apply Z_div_sf_signed. }
  intros [= <-]. destruct (sc_negative st).
  - by rewrite float_mul_opp_one, is_finite_opp.
  - by rewrite float_mul_one.
Qed.

(** X29: what [parse_number] returns is a finite number, never NaN or an
    infinity, and it has the sign of the token: with a minus sign in front
    it is [-0.0] or below, without it [+0.0] or above. *)
Theorem parse_number_finite :
  forall (t : string) (v : float),
    parse_number (F:=float) t = Ok v ->
    is_finite v = true
    /\ (if negative (strip (list_ascii_of_string t)) then nonneg (- v) else nonneg v) = true.
Proof.
  intros t v Hv. split; [by apply (parse_number_is_finite t)|].
  by apply (parse_number_signed t).
Qed.

Lemma parse_number_finite_witness :
  is_finite (-2.5)%float = true
  /\ (if negative (strip (list_ascii_of_string " -2.5")) then nonneg (- -2.5)%float
      else nonneg (-2.5)%float) = true.
Proof.
  apply (parse_number_finite " -2.5"%string (-2.5)%float). vm_compute. reflexivity.
Defined.

Lemma parse_tokens_finite tokens : forall (vs : list float) k,
  parse_tokens tokens = Ok (vs, k) -> Forall (fun x => is_finite x = true) vs.
Proof.
  induction tokens as [|t tokens IH]; simpl; intros vs k.
  - by intros [= <- <-].
  - destruct (parse_number t) as [v|[]] eqn:E; try done.
    + destruct (parse_tokens tokens) as [[vs' k']|]; [|done].
      intros [= <- <-]. constructor; [|by apply (IH vs' k')].
      by apply (parse_number_is_finite t v).
    + destruct (parse_tokens tokens) as [[vs' k']|]; [|done].
      intros [= <- <-]. by apply (IH vs' k').
Qed.

(** X30: the values [main] computes on are finite numbers, so what was
    proved of the statistics for lists without NaN or infinities holds in
    the program: the report has the median of an ascending permutation of
    the values, its modes are the values that occur most often, when that
    is more than once, in the order of their first occurrence, and, with
    fewer than 2^53 values, its mean is not NaN and its variance is not
    negative. *)
Theorem main_report :
  forall (tokens : list string) (r : report float),
    main (F:=float) tokens = Ok (Statistics r) ->
    exists vs sorted,
      parse_tokens tokens = Ok (vs, r_invalid r)
      /\ Forall (fun x => is_finite x = true) vs
      /\ r_count r = Z.of_nat (length vs)
      /\ sorted ≡ₚ vs /\ ascending sorted /\ median sorted = Ok (r_median r)
      /\ r_mode r = modal_values vs
      /\ (r_count r < 2 ^ 53 ->
          not_nan (r_mean r) = true /\ fleb zero (r_variance r) = true).
Proof.
  intros tokens r. rewrite main_spec.
  destruct (parse_tokens tokens) as [[vs k]|] eqn:E; [|done]. simpl.
  pose proof (parse_tokens_not_nan tokens vs k E) as Hok.
  pose proof (parse_tokens_finite tokens vs k E) as Hfin.
  destruct vs as [|v0 vs0] eqn:Evs; [done|]. rewrite <- Evs in *. cbn [is_nil].
  assert (is_nil vs = false) as -> by (by rewrite Evs).
  destruct (build_report_spec (fun x => not_nan x = true) (values_loc float) k
              {[values_loc float := vs]} vs (lookup_singleton_eq _ _))
    as (arr & sorted & _ & Hperm & Hset & ->).
  destruct (mean vs) as [avg|] eqn:Emean; [|done]. simpl.
  destruct (median sorted) eqn:Em; [|done]. simpl.
  destruct (variance vs avg) as [var|] eqn:Evar; [|done]. simpl.
  destruct (sqrt_newton _); [|done]. simpl.
  intros [= <-]. exists vs, sorted. simpl.
  split; [done|]. split; [done|]. split; [done|]. split; [done|].
  split; [|split; [done|split]].
  - apply (settled_ascending (fun x => not_nan x = true)); [by rewrite Hperm|done].
  - by apply (mode_modal_values (fun x => not_nan x = true)).
  - intros Hlen.
    assert (0 < length vs)%nat as Hpos by (rewrite Evs; simpl; lia).
    destruct (float_mean_ok vs Hpos Hlen Hfin) as (avg' & Hmean' & Havg).
    rewrite Emean in Hmean'. injection Hmean' as <-.
    destruct (float_variance_nonneg vs avg Hpos Hlen Hfin Havg) as (var' & Hvar' & Hnn).
    rewrite Evar in Hvar'. injection Hvar' as <-.
    split; [done|]. by apply nonneg_leb.
Qed.

Lemma main_report_witness :
  exists vs sorted,
    parse_tokens ["3"; "x"; "1"; "3"]%string = Ok (vs, 1)
    /\ Forall (fun x => is_finite x = true) vs
    /\ 3 = Z.of_nat (length vs)
    /\ sorted ≡ₚ vs /\ ascending sorted /\ median sorted = Ok 3%float
    /\ [3%float] = modal_values vs
    /\ (3 < 2 ^ 53 ->
        not_nan 2.3333333333333335%float = true
        /\ fleb zero 0.88888888888888884%float = true).
Proof.
  apply (main_report ["3"; "x"; "1"; "3"]%string
           {| r_count := 3; r_invalid := 1;
              r_mean := 2.3333333333333335%float; r_median := 3%float; r_mode := [3%float];
              r_variance := 0.88888888888888884%float;
              r_std := 0.94280904158206336%float |}).
  vm_compute. reflexivity.
Defined.

(** * Rounding and the order of the floats

    A finite float is a whole number of units of [2^-1074].  In these
    units a rounding returns a neighbour of the number it rounds, so a
    float below the number stays below the result, and a float above it
    stays above. *)

Lemma pow2_pos k : 0 <= k -> 0 < 2 ^ k.
Proof. intros. by apply Z.pow_pos_nonneg. Qed.

Lemma pow2_split a b : 0 <= b <= a -> 2 ^ a = 2 ^ (a - b) * 2 ^ b.
Proof. intros. rewrite <- Z.pow_add_r by lia. f_equal. lia. Qed.

Lemma pow2_le a b : 0 <= a <= b -> 2 ^ a <= 2 ^ b.
Proof. intros. apply Z.pow_le_mono_r; lia. Qed.

Lemma pow2_lt_inv a b : 0 <= a -> 0 <= b -> 2 ^ a < 2 ^ b -> a < b.
Proof.
  intros Ha Hb Hlt. destruct (Z.lt_ge_cases a b) as [|Hge]; [done|].
  pose proof (pow2_le b a ltac:(lia)). lia.
Qed.

(** The mantissa a rounding arrives at. *)
Lemma binary_round_aux_mantissa s mx ex lx :
  0 <= mx -> ex <= fexp prec emax (Zdigits2 mx + ex) ->
  exists m2,
    let E := fexp prec emax (Zdigits2 mx + ex) in
    let q := mx / 2 ^ (E - ex) in
    q <= m2 <= q + 1 /\ m2 <= 2 ^ 53
    /\ (lx = loc_Exact -> mx mod 2 ^ (E - ex) = 0 -> m2 = q)
    /\ (-1074 < E -> 2 ^ 52 <= q)
    /\ binary_round_aux prec emax s mx ex lx = sf_pack s m2 E.
Proof.
  intros Hm Hex.
  destruct (binary_round_aux_result s mx ex lx Hm Hex)
    as (mrs & Hshr & Hm1 & Hr & Hm2 & HR).
  set (E := fexp prec emax (Zdigits2 mx + ex)) in *.
  exists (round_nearest_even (shr_m mrs) (loc_of_shr_record mrs)). cbv zeta.
  set (m2 := round_nearest_even (shr_m mrs) (loc_of_shr_record mrs)) in *.
  assert (0 < 2 ^ (E - ex)) as Hpow by (apply pow2_pos; lia).
  rewrite <- Hm1. split; [done|]. split; [done|]. split; [|split; [|exact HR]].
  - intros -> Hmod. apply round_nearest_even_down.
    unfold shr_fexp, shr in Hshr. fold E in Hshr.
    destruct (E - ex) as [|k|k] eqn:Ek; [| |lia].
    + by injection Hshr as <- _.
    + injection Hshr as <- _. rewrite shr_r_iter by (cbn; lia).
      cbn [shr_m shr_record_of_loc].
      apply Z.mod_divide in Hmod; [|lia]. destruct Hmod as [c Hc].
      assert (2 ^ Z.pos k = 2 * 2 ^ (Z.pos k - 1)) as Hp.
      { replace (Z.pos k) with (Z.succ (Z.pos k - 1)) at 1 by lia.
        rewrite Z.pow_succ_r; lia. }
      assert (0 < 2 ^ (Z.pos k - 1)) by (apply pow2_pos; lia).
      replace mx with ((c * 2) * 2 ^ (Z.pos k - 1)) by lia.
      rewrite Z.div_mul by lia. rewrite Z.mul_comm. by rewrite Z.odd_mul.
  - intros Hnormal. rewrite Hm1.
    assert (E = Zdigits2 mx + ex - 53) as HE by (unfold E in *; rewrite fexp_eq in *; lia).
    assert (0 < mx) as Hpos.
    { destruct (Z.eq_dec mx 0) as [->|]; [|lia]. simpl in HE. lia. }
    destruct (Zdigits2_bounds mx Hpos) as [Hlb _].
    apply Z.div_le_lower_bound; [done|]. rewrite <- Z.pow_add_r by lia.
    eapply Z.le_trans; [|exact Hlb]. apply Z.pow_le_mono_r; lia.
Qed.

Lemma sf_pack_units s m2 E :
  0 <= m2 <= 2 ^ 53 -> -1074 <= E ->
  sf_finite (sf_pack s m2 E) = true ->
  sf_units (sf_pack s m2 E) = cond_Zopp s (m2 * 2 ^ (E + 1074)).
Proof.
  intros Hm HE. unfold sf_pack. destruct m2 as [|p|p]; [by destruct s| |lia].
  destruct (Z.eqb_spec (Z.pos p) (2 ^ 53)) as [Hc|_].
  - destruct (Z.leb_spec (E + 1) 971); [|done]. intros _. cbn [sf_units]. f_equal.
    rewrite Hc. change (Z.pos 4503599627370496) with (2 ^ 52).
    replace (E + 1 + 1074) with (Z.succ (E + 1074)) by lia.
    rewrite Z.pow_succ_r by lia. change (2 ^ 53) with (2 ^ 52 * 2). lia.
  - by destruct (Z.leb_spec E 971).
Qed.

Lemma sf_pack_finite s m2 E :
  0 <= m2 <= 2 ^ 53 -> -1074 <= E -> (-1074 < E -> 2 ^ 52 <= m2) ->
  m2 * 2 ^ (E + 1074) < 2 ^ 2098 ->
  sf_finite (sf_pack s m2 E) = true.
Proof.
  intros Hm HE Hnormal Hlt. unfold sf_pack. destruct m2 as [|p|p]; [done| |lia].
  assert (0 < 2 ^ (E + 1074)) as Hp by (apply pow2_pos; lia).
  destruct (Z.eqb_spec (Z.pos p) (2 ^ 53)) as [Hc|_].
  - destruct (Z.leb_spec (E + 1) 971) as [|Hbig]; [done|]. exfalso.
    rewrite Hc, <- Z.pow_add_r in Hlt by lia.
    apply pow2_lt_inv in Hlt; lia.
  - destruct (Z.leb_spec E 971) as [|Hbig]; [done|]. exfalso.
    specialize (Hnormal ltac:(lia)).
    assert (2 ^ 52 * 2 ^ (E + 1074) <= Z.pos p * 2 ^ (E + 1074)) as Hle
      by (apply Z.mul_le_mono_nonneg_r; lia).
    rewrite <- Z.pow_add_r in Hle by lia.
    assert (2 ^ (52 + (E + 1074)) < 2 ^ 2098) as Hlt' by lia.
    apply pow2_lt_inv in Hlt'; lia.
Qed.

(** A float that is not below the binade of the exponent [E] is a
    multiple of [2^E]. *)
Lemma in_format_grid n E :
  in_format n -> -1074 <= E -> (-1074 < E -> 2 ^ (E + 52 + 1074) <= n) ->
  exists n', n = n' * 2 ^ (E + 1074).
Proof.
  intros (m & e & -> & Hm & He) HE Hbig.
  destruct (Z.eq_dec E (-1074)) as [->|Hne].
  - exists (m * 2 ^ (e + 1074)). change (2 ^ (-1074 + 1074)) with 1. lia.
  - specialize (Hbig ltac:(lia)).
    assert (E <= e) as Hle.
    { destruct (Z.le_gt_cases E e); [done|]. exfalso.
      assert (m * 2 ^ (e + 1074) < 2 ^ 53 * 2 ^ (e + 1074)) as Hlt
        by (apply Z.mul_lt_mono_pos_r; [apply pow2_pos; lia|lia]).
      rewrite <- Z.pow_add_r in Hlt by lia.
      pose proof (pow2_le (53 + (e + 1074)) (E + 52 + 1074) ltac:(lia)). lia. }
    exists (m * 2 ^ (e - E)). rewrite <- Z.mul_assoc, <- Z.pow_add_r by lia.
    do 2 f_equal. lia.
Qed.

(** What a rounding returns, in units: [M].  A float that is not above
    the number rounded is not above [M], and a float that is not below the
    number is not below [M]. *)
Lemma binary_round_aux_bounds s mx ex lx :
  0 <= mx -> -1074 <= ex -> ex <= fexp prec emax (Zdigits2 mx + ex) ->
  exists M,
    0 <= M
    /\ (sf_finite (binary_round_aux prec emax s mx ex lx) = true ->
        sf_units (binary_round_aux prec emax s mx ex lx) = cond_Zopp s M)
    /\ (M < 2 ^ 2098 -> sf_finite (binary_round_aux prec emax s mx ex lx) = true)
    /\ (forall n, in_format n -> n < (mx + 1) * 2 ^ (ex + 1074) -> n <= M)
    /\ (forall n, in_format n ->
          mx * 2 ^ (ex + 1074) < n \/ (lx = loc_Exact /\ mx * 2 ^ (ex + 1074) = n) ->
          M <= n).
Proof.
  intros Hm Hex Hpre.
  destruct (binary_round_aux_mantissa s mx ex lx Hm Hpre)
    as (m2 & Hr & Hm2 & Hexact & Hnormal & ->). cbv zeta in *.
  set (E := fexp prec emax (Zdigits2 mx + ex)) in *.
  set (g := 2 ^ (E - ex)) in *. set (P := 2 ^ (ex + 1074)).
  assert (0 < g) as Hg by (apply pow2_pos; lia).
  assert (0 < P) as HP by (apply pow2_pos; lia).
  assert (2 ^ (E + 1074) = g * P) as Hgrid.
  { unfold g, P. rewrite <- Z.pow_add_r by lia. f_equal. lia. }
  assert (0 <= mx / g) as Hq0 by (by apply Z.div_pos).
  pose proof (Z.mul_div_le mx g Hg) as Hq1.
  assert (mx < g * (mx / g + 1)) as Hq2.
  { pose proof (Z.mod_pos_bound mx g Hg). pose proof (Z.div_mod mx g ltac:(lia)). lia. }
  assert (-1074 <= E) as HE by lia.
  assert (-1074 < E -> 2 ^ (E + 52 + 1074) <= mx / g * (g * P)) as Hbinade.
  { intros HN. specialize (Hnormal HN).
    replace (E + 52 + 1074) with (52 + (E + 1074)) by lia.
    rewrite Z.pow_add_r, Hgrid by lia. apply Z.mul_le_mono_nonneg_r; lia. }
  exists (m2 * 2 ^ (E + 1074)).
  split; [apply Z.mul_nonneg_nonneg; [lia|apply Z.pow_nonneg; lia]|].
  split; [|split; [|split]].
  - apply sf_pack_units; lia.
  - apply sf_pack_finite; lia.
  - intros n Hn Hlt. rewrite Hgrid.
    destruct (Z.lt_ge_cases n (mx / g * (g * P))) as [Hbelow|Habove].
    { assert (mx / g * (g * P) <= m2 * (g * P)) by (apply Z.mul_le_mono_nonneg_r; lia). lia. }
    destruct (in_format_grid n E Hn HE) as [n' Hn']; [intros HN; specialize (Hbinade HN); lia|].
    rewrite Hgrid in Hn'. subst n.
    assert (n' * g < mx + 1) as H1.
    { apply (Z.mul_lt_mono_pos_r P); [done|]. lia. }
    assert (n' <= mx / g) as H2 by (apply Z.div_le_lower_bound; lia).
    apply Z.mul_le_mono_nonneg_r; lia.
  - intros n Hn Hcase. rewrite Hgrid.
    assert (mx / g * (g * P) <= n) as Habove.
    { assert (mx / g * (g * P) <= mx * P); [|lia].
      rewrite Z.mul_assoc. apply Z.mul_le_mono_nonneg_r; lia. }
    destruct (in_format_grid n E Hn HE) as [n' Hn']; [intros HN; specialize (Hbinade HN); lia|].
    rewrite Hgrid in Hn'. subst n.
    destruct Hcase as [Hlt|[-> Heq]].
    + assert (mx < g * n') as H1.
      { apply (Z.mul_lt_mono_pos_r P); [done|]. lia. }
      assert (mx / g < n') as H2 by (by apply Z.div_lt_upper_bound).
      apply Z.mul_le_mono_nonneg_r; lia.
    + assert (mx = n' * g) as H1.
      { apply (Z.mul_reg_r _ _ P); lia. }
      assert (m2 = mx / g) as ->.
      { apply Hexact; [done|]. rewrite H1. by apply Z.mod_mul; lia. }
      rewrite H1, Z.div_mul by lia. lia.
Qed.

(** The same for a number given by a mantissa that is aligned first. *)
Lemma binary_round_bounds s p e :
  -1074 <= e ->
  exists M,
    0 <= M
    /\ (sf_finite (binary_round prec emax s p e) = true ->
        sf_units (binary_round prec emax s p e) = cond_Zopp s M)
    /\ (M < 2 ^ 2098 -> sf_finite (binary_round prec emax s p e) = true)
    /\ (forall n, in_format n -> n <= Z.pos p * 2 ^ (e + 1074) -> n <= M)
    /\ (forall n, in_format n -> Z.pos p * 2 ^ (e + 1074) <= n -> M <= n).
Proof.
  intros He. unfold binary_round, shl_align.
  set (e' := fexp prec emax (Z.pos (digits2_pos p) + e)).
  assert (0 < 2 ^ (e + 1074)) as HP by (apply pow2_pos; lia).
  assert (forall mz ez,
            -1074 <= ez -> ez <= fexp prec emax (Zdigits2 (Z.pos mz) + ez) ->
            Z.pos mz * 2 ^ (ez + 1074) = Z.pos p * 2 ^ (e + 1074) ->
            exists M,
              0 <= M
              /\ (sf_finite (binary_round_aux prec emax s (Z.pos mz) ez loc_Exact) = true ->
                  sf_units (binary_round_aux prec emax s (Z.pos mz) ez loc_Exact)
                  = cond_Zopp s M)
              /\ (M < 2 ^ 2098 ->
                  sf_finite (binary_round_aux prec emax s (Z.pos mz) ez loc_Exact) = true)
              /\ (forall n, in_format n -> n <= Z.pos p * 2 ^ (e + 1074) -> n <= M)
              /\ (forall n, in_format n -> Z.pos p * 2 ^ (e + 1074) <= n -> M <= n)) as Haux.
  { intros mz ez Hez Hpre Hval.
    destruct (binary_round_aux_bounds s (Z.pos mz) ez loc_Exact ltac:(lia) Hez Hpre)
      as (M & HM & Hu & Hf & HL & HU).
    assert (0 < 2 ^ (ez + 1074)) as HP' by (apply pow2_pos; lia).
    exists M. do 3 (split; [done|]). split.
    - intros n Hn Hle. apply HL; [done|]. lia.
    - intros n Hn Hle. apply HU; [done|].
      destruct (Z.eq_dec (Z.pos mz * 2 ^ (ez + 1074)) n); [right|left]; [done|lia]. }
  destruct (e' - e) as [|d|d] eqn:Ed.
  - apply Haux; [lia| |done]. simpl Zdigits2. fold e'. lia.
  - apply Haux; [lia| |done]. simpl Zdigits2. fold e'. lia.
  - assert (-1074 <= e') as He' by (unfold e'; rewrite fexp_eq; lia).
    apply Haux; [done| |].
    + simpl Zdigits2. rewrite digits2_pos_iter_xO.
      replace (Z.pos (digits2_pos p + d) + e') with (Z.pos (digits2_pos p) + e) by lia.
      fold e'. lia.
    + rewrite pos_iter_xO, <- Z.mul_assoc, <- Z.pow_add_r by lia. do 2 f_equal. lia.
Qed.

(** A sum or difference of mantissas, rounded: it stays between two
    floats the exact number lies between. *)
Lemma binary_normalize_between m e lo hi :
  -1074 <= e ->
  in_format (Z.abs lo) -> in_format (Z.abs hi) ->
  lo <= m * 2 ^ (e + 1074) <= hi ->
  sf_finite (binary_normalize prec emax m e false) = true ->
  lo <= sf_units (binary_normalize prec emax m e false) <= hi.
Proof.
  intros He Hlo Hhi Hle.
  assert (0 < 2 ^ (e + 1074)) as HP by (apply pow2_pos; lia).
  destruct m as [|p|p]; cbn [binary_normalize].
  - intros _. simpl. lia.
  - destruct (binary_round_bounds false p e He) as (M & HM & Hu & _ & HL & HU).
    intros Hfin. rewrite (Hu Hfin). cbn [cond_Zopp].
    assert (0 < Z.pos p * 2 ^ (e + 1074)) as Hpos by lia.
    split.
    + destruct (Z.le_gt_cases lo 0) as [|Hgt]; [lia|].
      apply HL; [|lia]. by rewrite Z.abs_eq in Hlo by lia.
    + apply HU; [|lia]. by rewrite Z.abs_eq in Hhi by lia.
  - destruct (binary_round_bounds true p e He) as (M & HM & Hu & _ & HL & HU).
    intros Hfin. rewrite (Hu Hfin). cbn [cond_Zopp].
    assert (0 < Z.pos p * 2 ^ (e + 1074)) as Hpos by lia.
    assert (Z.neg p * 2 ^ (e + 1074) = - (Z.pos p * 2 ^ (e + 1074))) as Hneg by lia.
    split.
    + assert (M <= - lo); [|lia].
      apply HU; [|lia]. by rewrite Z.abs_neq in Hlo by lia.
    + destruct (Z.le_gt_cases 0 hi) as [|Hlt]; [lia|].
      assert (- hi <= M); [|lia].
      apply HL; [|lia]. by rewrite Z.abs_neq in Hhi by lia.
Qed.

(** ** Valid floats *)

Lemma valid_binary_bounds s m e :
  valid_binary (S754_finite s m e) = true ->
  -1074 <= e <= 971 /\ Z.pos m < 2 ^ 53 /\ (-1074 < e -> 2 ^ 52 <= Z.pos m).
Proof.
  intros [Hc Hb]%andb_true_iff. apply Z.eqb_eq in Hc. apply Z.leb_le in Hb.
  change (emax - prec) with 971 in Hb. rewrite fexp_eq in Hc.
  destruct (Zdigits2_bounds (Z.pos m) ltac:(lia)) as [Hlb Hub]. simpl Zdigits2 in *.
  set (d := Z.pos (digits2_pos m)) in *.
  split; [lia|]. split.
  - eapply Z.lt_le_trans; [exact Hub|]. apply pow2_le; lia.
  - intros Hn. eapply Z.le_trans; [|exact Hlb]. apply pow2_le; lia.
Qed.

Lemma valid_in_format x :
  valid_binary x = true ->
  in_format (Z.abs (sf_units x)) /\ Z.abs (sf_units x) < 2 ^ 2098.
Proof.
  intros Hv.
  assert (in_format 0 /\ 0 < 2 ^ 2098) as Hzero.
  { split; [exists 0, 0; lia|by apply pow2_pos]. }
  destruct x as [s|s| |s m e]; try exact Hzero.
  destruct (valid_binary_bounds s m e Hv) as (He & Hm & _).
  assert (0 < 2 ^ (e + 1074)) as HP by (apply pow2_pos; lia).
  assert (Z.abs (sf_units (S754_finite s m e)) = Z.pos m * 2 ^ (e + 1074)) as ->.
  { destruct s; cbn [sf_units cond_Zopp]; lia. }
  split; [exists (Z.pos m), e; lia|].
  assert (Z.pos m * 2 ^ (e + 1074) < 2 ^ 53 * 2 ^ (e + 1074)) as Hlt
    by (apply Z.mul_lt_mono_pos_r; lia).
  rewrite <- Z.pow_add_r in Hlt by lia.
  pose proof (pow2_le (53 + (e + 1074)) 2098 ltac:(lia)). lia.
Qed.

Lemma in_format_double n : in_format (Z.abs n) -> in_format (Z.abs (2 * n)).
Proof.
  intros (m & e & Hn & Hm & He). exists m, (e + 1). split; [|lia].
  rewrite Z.abs_mul, Hn. replace (e + 1 + 1074) with (Z.succ (e + 1074)) by lia.
  rewrite Z.pow_succ_r by lia. change (Z.abs 2) with 2. lia.
Qed.

(** A valid float with the smaller exponent is the smaller number. *)
Lemma valid_exponent_lt s1 m1 e1 s2 m2 e2 :
  valid_binary (S754_finite s1 m1 e1) = true ->
  valid_binary (S754_finite s2 m2 e2) = true ->
  e1 < e2 ->
  Z.pos m1 * 2 ^ (e1 + 1074) < Z.pos m2 * 2 ^ (e2 + 1074).
Proof.
  intros H1 H2 Hlt.
  destruct (valid_binary_bounds _ _ _ H1) as (He1 & Hm1 & _).
  destruct (valid_binary_bounds _ _ _ H2) as (He2 & _ & Hm2).
  specialize (Hm2 ltac:(lia)).
  assert (0 < 2 ^ (e1 + 1074)) as HP1 by (apply pow2_pos; lia).
  assert (0 < 2 ^ (e2 + 1074)) as HP2 by (apply pow2_pos; lia).
  assert (Z.pos m1 * 2 ^ (e1 + 1074) < 2 ^ 53 * 2 ^ (e1 + 1074)) as Ha
    by (apply Z.mul_lt_mono_pos_r; lia).
  assert (2 ^ 52 * 2 ^ (e2 + 1074) <= Z.pos m2 * 2 ^ (e2 + 1074)) as Hb
    by (apply Z.mul_le_mono_nonneg_r; lia).
  rewrite <- Z.pow_add_r in Ha, Hb by lia.
  pose proof (pow2_le (53 + (e1 + 1074)) (52 + (e2 + 1074)) ltac:(lia)). lia.
Qed.

(** The order of the floats is the order of their values. *)
Lemma SFleb_units x y :
  valid_binary x = true -> valid_binary y = true ->
  sf_finite x = true -> sf_finite y = true ->
  SFleb x y = (sf_units x <=? sf_units y).
Proof.
  intros Hvx Hvy Hfx Hfy. unfold SFleb.
  destruct x as [sx|sx| |sx mx ex], y as [sy|sy| |sy my ey]; try done.
  - destruct (valid_binary_bounds _ _ _ Hvy) as (He & _ & _).
    assert (0 < 2 ^ (ey + 1074)) as HP by (apply pow2_pos; lia).
    destruct sy; cbn [SFcompare sf_units cond_Zopp]; symmetry;
      [apply Z.leb_gt|apply Z.leb_le]; lia.
  - destruct (valid_binary_bounds _ _ _ Hvx) as (He & _ & _).
    assert (0 < 2 ^ (ex + 1074)) as HP by (apply pow2_pos; lia).
    destruct sx; cbn [SFcompare sf_units cond_Zopp]; symmetry;
      [apply Z.leb_le|apply Z.leb_gt]; lia.
  - destruct (valid_binary_bounds _ _ _ Hvx) as (Hex & _ & _).
    destruct (valid_binary_bounds _ _ _ Hvy) as (Hey & _ & _).
    assert (0 < 2 ^ (ex + 1074)) as HPx by (apply pow2_pos; lia).
    assert (0 < 2 ^ (ey + 1074)) as HPy by (apply pow2_pos; lia).
    pose proof (valid_exponent_lt sx mx ex sy my ey Hvx Hvy) as Hxy.
    pose proof (valid_exponent_lt sy my ey sx mx ex Hvy Hvx) as Hyx.
    cbn [SFcompare sf_units]. fold_pos_compare.
    destruct sx, sy; cbn [cond_Zopp]; symmetry.
    + destruct (Z.compare_spec ex ey) as [->|Hlt|Hgt].
      * destruct (Pos.compare_spec mx my) as [->|Hm|Hm]; cbn [CompOpp];
          [apply Z.leb_le|apply Z.leb_gt|apply Z.leb_le]; nia.
      * apply Z.leb_gt. specialize (Hxy Hlt). lia.
      * apply Z.leb_le. specialize (Hyx ltac:(lia)). lia.
    + apply Z.leb_le. lia.
    + apply Z.leb_gt. lia.
    + destruct (Z.compare_spec ex ey) as [->|Hlt|Hgt].
      * destruct (Pos.compare_spec mx my) as [->|Hm|Hm];
          [apply Z.leb_le|apply Z.leb_le|apply Z.leb_gt]; nia.
      * apply Z.leb_le. specialize (Hxy Hlt). lia.
      * apply Z.leb_gt. specialize (Hyx ltac:(lia)). lia.
Qed.

(** ** The sum of two floats *)

(** A finite sum lies between two floats the exact sum lies between. *)
Lemma SFadd_between x y lo hi :
  valid_binary x = true -> valid_binary y = true ->
  sf_finite x = true -> sf_finite y = true ->
  in_format (Z.abs lo) -> in_format (Z.abs hi) ->
  lo <= sf_units x + sf_units y <= hi ->
  sf_finite (SFadd prec emax x y) = true ->
  lo <= sf_units (SFadd prec emax x y) <= hi.
Proof.
  intros Hvx Hvy Hfx Hfy Hlo Hhi.
  destruct x as [sx|sx| |sx mx ex], y as [sy|sy| |sy my ey]; try done.
  - intros Hle _. by destruct sx, sy.
  - intros Hle _. cbn [SFadd]. cbn [sf_units] in *. lia.
  - destruct (valid_binary_bounds _ _ _ Hvx) as (Hex & _ & _).
    destruct (valid_binary_bounds _ _ _ Hvy) as (Hey & _ & _).
    cbn [SFadd]. set (ez := Z.min ex ey).
    assert (ez <= ex /\ ez <= ey /\ -1074 <= ez) as (Hzx & Hzy & Hz) by (unfold ez; lia).
    rewrite (shl_align_value mx ex ez Hzx), (shl_align_value my ey ez Hzy).
    intros Hle. apply binary_normalize_between; try done.
    assert (forall s m e, ez <= e ->
              cond_Zopp s (Z.pos m * 2 ^ (e - ez)) * 2 ^ (ez + 1074)
              = cond_Zopp s (Z.pos m * 2 ^ (e + 1074))) as Hal.
    { intros s m e He.
      assert (2 ^ (e + 1074) = 2 ^ (e - ez) * 2 ^ (ez + 1074)) as ->.
      { rewrite <- Z.pow_add_r by lia. f_equal. lia. }
      destruct s; cbn [cond_Zopp]; lia. }
    rewrite Z.mul_add_distr_r, !Hal by done. exact Hle.
Qed.

(** ** Half of a float *)

(** The quotient and the remainder the division by [2.0] starts from. *)
Lemma SFdiv_core_two s m e :
  valid_binary (S754_finite s m e) = true ->
  exists q e' l,
    SFdiv_core_binary prec emax (Z.pos m) e 4503599627370496 (-51) = (q, e', l)
    /\ 0 <= q /\ -1074 <= e' /\ e' <= fexp prec emax (Zdigits2 q + e')
    /\ 2 * (q * 2 ^ (e' + 1074)) <= Z.pos m * 2 ^ (e + 1074)
    /\ Z.pos m * 2 ^ (e + 1074) < 2 * ((q + 1) * 2 ^ (e' + 1074))
    /\ (2 * (q * 2 ^ (e' + 1074)) = Z.pos m * 2 ^ (e + 1074) -> l = loc_Exact).
Proof.
  intros Hv. pose proof Hv as [Hc _]%andb_true_iff. apply Z.eqb_eq in Hc.
  rewrite fexp_eq in Hc.
  destruct (valid_binary_bounds _ _ _ Hv) as (He & Hm & Hnormal).
  destruct (Zdigits2_bounds (Z.pos m) ltac:(lia)) as [Hlb Hub].
  unfold SFdiv_core_binary.
  change (Zdigits2 4503599627370496) with 53.
  simpl (Zdigits2 (Z.pos m)) in *. set (d := Z.pos (digits2_pos m)) in *.
  rewrite fexp_eq.
  set (e' := Z.min (Z.max (d + e - (53 + -51) - 53) (-1074)) (e - -51)).
  assert (e' = Z.max (d + e - 55) (-1074)) as He' by (unfold e'; lia).
  assert (-1074 <= e' <= e) as Hrange by lia.
  set (t := e - e').
  assert (e - -51 - e' = Z.pos (Z.to_pos (t + 51))) as Hs by (unfold t; lia).
  rewrite Hs. rewrite Z.shiftl_mul_pow2 by lia. rewrite <- Hs.
  replace (e - -51 - e') with (t + 51) by (unfold t; lia).
  assert (0 <= t) as Ht by (unfold t; lia).
  assert (0 < 2 ^ t) as Hpt by (by apply pow2_pos).
  assert (0 < 2 ^ (e' + 1074)) as HP by (apply pow2_pos; lia).
  set (a := Z.pos m * 2 ^ t).
  assert (Z.pos m * 2 ^ (t + 51) = a * 2 ^ 51) as ->.
  { unfold a. rewrite Z.pow_add_r by lia. lia. }
  change 4503599627370496 with (2 * 2 ^ 51).
  assert (0 < 2 ^ 51) as H51 by done.
  assert (fst (Z.div_eucl (a * 2 ^ 51) (2 * 2 ^ 51)) = a / 2) as Hquot.
  { rewrite <- (Z.div_mul_cancel_r a 2 (2 ^ 51)) by lia.
    unfold Z.div. by destruct (Z.div_eucl (a * 2 ^ 51) (2 * 2 ^ 51)). }
  assert (snd (Z.div_eucl (a * 2 ^ 51) (2 * 2 ^ 51)) = (a mod 2) * 2 ^ 51) as Hrem.
  { rewrite <- (Z.mul_mod_distr_r a 2 (2 ^ 51)) by lia.
    unfold Z.modulo. by destruct (Z.div_eucl (a * 2 ^ 51) (2 * 2 ^ 51)). }
  destruct (Z.div_eucl (a * 2 ^ 51) (2 * 2 ^ 51)) as [q r].
  cbn [fst snd] in Hquot, Hrem. subst q r.
  assert (0 < a) as Ha by (unfold a; lia).
  pose proof (Z.div_mod a 2 ltac:(lia)) as Hdm.
  pose proof (Z.mod_pos_bound a 2 ltac:(lia)) as Hmod.
  assert (Z.pos m * 2 ^ (e + 1074) = a * 2 ^ (e' + 1074)) as Hval.
  { unfold a. rewrite <- Z.mul_assoc, <- Z.pow_add_r by lia. do 2 f_equal. unfold t. lia. }
  eexists _, _, _. split; [done|].
  split; [apply Z.div_pos; lia|]. split; [lia|]. split; [|split; [|split]].
  - rewrite fexp_eq. destruct (Z.eq_dec e' (-1074)) as [|Hne]; [lia|].
    assert (54 <= Zdigits2 (a / 2)); [|lia].
    apply (Zdigits2_ge (a / 2) 53); [lia|].
    apply Z.div_le_lower_bound; [lia|].
    assert (2 ^ (d - 1) * 2 ^ t <= a) as Hle
      by (unfold a; apply Z.mul_le_mono_nonneg_r; lia).
    rewrite <- Z.pow_add_r in Hle by lia.
    replace (d - 1 + t) with 54 in Hle by (unfold t; lia).
    change (2 * 2 ^ 53) with (2 ^ 54). lia.
  - rewrite Hval. nia.
  - rewrite Hval. nia.
  - rewrite Hval. intros Heq.
    assert (a mod 2 = 0) as -> by nia. reflexivity.
Qed.

(** Half of a float lies between two floats the exact half lies
    between, and is finite. *)
Lemma SFdiv_two_between x lo hi :
  valid_binary x = true -> sf_finite x = true ->
  in_format (Z.abs lo) -> in_format (Z.abs hi) ->
  Z.abs lo < 2 ^ 2098 -> Z.abs hi < 2 ^ 2098 ->
  2 * lo <= sf_units x <= 2 * hi ->
  sf_finite (SFdiv prec emax x (S754_finite false 4503599627370496 (-51))) = true
  /\ lo <= sf_units (SFdiv prec emax x (S754_finite false 4503599627370496 (-51))) <= hi.
Proof.
  intros Hv Hf Hlo Hhi Hlob Hhib Hle.
  destruct x as [s|s| |s m e]; try done.
  - cbn [SFdiv sf_finite sf_units] in *. split; [done|lia].
  - destruct (SFdiv_core_two s m e Hv)
      as (q & e' & l & Hcore & Hq & He' & Hpre & Hlow & Hupp & Hexact).
    cbn [SFdiv]. rewrite Hcore.
    destruct (binary_round_aux_bounds (xorb s false) q e' l Hq He' Hpre)
      as (M & HM & Hu & Hfin & HL & HU).
    destruct (valid_binary_bounds _ _ _ Hv) as (He & _ & _).
    assert (0 < Z.pos m * 2 ^ (e + 1074)) as Hpos
      by (apply Z.mul_pos_pos; [lia|apply pow2_pos; lia]).
    set (X := Z.pos m * 2 ^ (e + 1074)) in *.
    set (Q := q * 2 ^ (e' + 1074)) in *.
    assert (forall n, in_format n -> X <= 2 * n -> M <= n) as HU'.
    { intros n Hn Hle'. apply HU; [done|].
      destruct (Z.eq_dec Q n) as [Heq|Hne]; [right|left; lia].
      split; [|done]. apply Hexact. lia. }
    assert (forall n, in_format n -> 2 * n <= X -> n <= M) as HL'.
    { intros n Hn Hle'. apply HL; [done|]. lia. }
    destruct s; cbn [xorb sf_units cond_Zopp] in *.
    + assert (M <= - lo) as H1.
      { apply HU'; [|lia]. by rewrite Z.abs_neq in Hlo by lia. }
      assert (M < 2 ^ 2098) as H2 by lia.
      split; [by apply Hfin|]. rewrite (Hu (Hfin H2)). cbn [cond_Zopp].
      split; [lia|].
      destruct (Z.le_gt_cases 0 hi) as [|Hneg]; [lia|].
      assert (- hi <= M); [|lia].
      apply HL'; [|lia]. by rewrite Z.abs_neq in Hhi by lia.
    + assert (M <= hi) as H1.
      { apply HU'; [|lia]. by rewrite Z.abs_eq in Hhi by lia. }
      assert (M < 2 ^ 2098) as H2 by lia.
      split; [by apply Hfin|]. rewrite (Hu (Hfin H2)). cbn [cond_Zopp].
      split; [|lia].
      destruct (Z.le_gt_cases lo 0) as [|Hgt]; [lia|].
      apply HL'; [|lia]. by rewrite Z.abs_eq in Hlo by lia.
Qed.

(** ** The midpoint of two floats *)

(** [(a + b) / 2.0] lies between [a] and [b], unless the sum
    overflows. *)
Lemma float_midpoint (a b : float) :
  is_finite a = true -> is_finite b = true -> PrimFloat.leb a b = true ->
  is_finite (a + b) = true ->
  is_finite ((a + b) / 2) = true
  /\ PrimFloat.leb a ((a + b) / 2) = true /\ PrimFloat.leb ((a + b) / 2) b = true.
Proof.
  unfold is_finite. intros Hfa Hfb Hab Hfs.
  pose proof (Prim2SF_valid a) as Hva. pose proof (Prim2SF_valid b) as Hvb.
  pose proof (Prim2SF_valid (a + b)) as Hvs.
  pose proof (Prim2SF_valid ((a + b) / 2)) as Hvm.
  rewrite !FloatAxioms.leb_spec. rewrite FloatAxioms.leb_spec in Hab.
  rewrite (SFleb_units _ _ Hva Hvb Hfa Hfb) in Hab. apply Z.leb_le in Hab.
  destruct (valid_in_format _ Hva) as [Hia Hba].
  destruct (valid_in_format _ Hvb) as [Hib Hbb].
  assert (2 * sf_units (Prim2SF a) <= sf_units (Prim2SF (a + b))
          <= 2 * sf_units (Prim2SF b)) as Hsum.
  { revert Hfs. rewrite add_spec. unfold SF64add.
    apply SFadd_between; try done; try (by apply in_format_double). lia. }
  assert (sf_finite (Prim2SF ((a + b) / 2)) = true
          /\ sf_units (Prim2SF a) <= sf_units (Prim2SF ((a + b) / 2))
             <= sf_units (Prim2SF b)) as [Hfm Hmid].
  { rewrite div_spec. unfold SF64div.
    change (Prim2SF 2) with (S754_finite false 4503599627370496 (-51)).
    by apply SFdiv_two_between. }
  split; [done|].
  rewrite (SFleb_units _ _ Hva Hvm Hfa Hfm), (SFleb_units _ _ Hvm Hvb Hfm Hfb).
  split; apply Z.leb_le; lia.
Qed.

(** When the sum of two finite floats overflows, their midpoint is an
    infinity. *)
Lemma float_midpoint_overflow (a b : float) :
  is_finite a = true -> is_finite b = true -> is_finite (a + b) = false ->
  exists s, Prim2SF ((a + b) / 2) = S754_infinity s.
Proof.
  unfold is_finite. intros Hfa Hfb.
  rewrite div_spec, add_spec. unfold SF64div, SF64add.
  change (Prim2SF 2) with (S754_finite false 4503599627370496 (-51)).
  pose proof (SFadd_not_nan prec emax (Prim2SF a) (Prim2SF b)) as Hnan.
  destruct (SFadd prec emax (Prim2SF a) (Prim2SF b)) as [s|s| |s m e]; try done.
  - intros _. by exists (xorb s false).
  - intros _. exfalso. assert (sf_nan S754_nan = false); [|done].
    apply Hnan; [|done]. by destruct (Prim2SF a).
Qed.

(** ** The median on binary64 *)

Lemma is_finite_not_nan (x : float) : is_finite x = true -> not_nan x = true.
Proof. unfold is_finite, not_nan. by destruct (Prim2SF x). Qed.

(** An infinity does not lie between two finite floats. *)
Lemma infinity_not_between (lo hi m : float) s :
  is_finite lo = true -> is_finite hi = true -> Prim2SF m = S754_infinity s ->
  PrimFloat.leb lo m = true -> PrimFloat.leb m hi = true -> False.
Proof.
  unfold is_finite. rewrite !FloatAxioms.leb_spec. intros Hlo Hhi ->. unfold SFleb.
  destruct (Prim2SF lo) as [?|?| |? ? ?], (Prim2SF hi) as [?|?| |? ? ?], s; done.
Qed.

(** C7, as the code has it: the median is taken from the sorted copy.  For
    an odd count it is its middle element, and lies between the smallest
    and the largest value.  For an even count it is [(a + b) / 2.0] for the
    two central elements [a <= b] of the sorted copy; it lies between the
    smallest and the largest value exactly when the sum [a + b] does not
    overflow. *)
Theorem median_between_min_max :
  forall (values : loc) (h : gmap loc (list float)) (vs : list float),
    h !! values = Some vs -> vs <> [] ->
    Forall (fun x => is_finite x = true) vs ->
    exists arr sorted h',
      selection_sort values h = Ok (arr, h') /\ h' !! arr = Some sorted /\
      sorted ≡ₚ vs /\ ascending sorted /\
      (Z.of_nat (length vs) mod 2 = 1 ->
       exists med,
         sorted !! (length vs / 2)%nat = Some med /\ median sorted = Ok med /\
         median_within vs med) /\
      (Z.of_nat (length vs) mod 2 = 0 ->
       exists a b,
         sorted !! (length vs / 2 - 1)%nat = Some a /\
         sorted !! (length vs / 2)%nat = Some b /\
         fleb a b = true /\
         median sorted = Ok (fquot (fadd a b) two) /\
         (median_within vs (fquot (fadd a b) two) <-> is_finite (fadd a b) = true)).
Proof.
  intros values h vs Hvs Hne Hfin.
  assert (Forall (fun x => not_nan x = true) vs) as Hok.
  { eapply Forall_impl; [exact Hfin|]. apply is_finite_not_nan. }
  destruct (median_of_sorted _ values h vs Hvs Hne Hok)
    as (arr & sorted & lo & hi & Hrun & _ & Hperm & Hasc & Hlo & Hhi & Hall & Hodd & Heven).
  exists arr, sorted, (<[arr := sorted]> h).
  split; [done|]. split; [apply lookup_insert_eq|]. do 2 (split; [done|]). split.
  - intros Ho. destruct (Hodd Ho) as (med & Hmed & Hrunm & Hle).
    exists med. do 2 (split; [done|]). by exists lo, hi.
  - intros He. destruct (Heven He) as (a & b & Ha & Hb & Hab & Hrunm & Hbetween).
    exists a, b. do 4 (split; [done|]).
    rewrite Forall_forall in Hfin.
    assert (is_finite a = true) as Hfa.
    { apply Hfin. rewrite <- Hperm. exact (list_elem_of_lookup_2 _ _ _ Ha). }
    assert (is_finite b = true) as Hfb.
    { apply Hfin. rewrite <- Hperm. exact (list_elem_of_lookup_2 _ _ _ Hb). }
    cbn [fadd fquot two fleb binary64_arith] in *.
    split.
    + intros (lo' & hi' & Hlo' & Hhi' & _ & Hle1 & Hle2).
      destruct (is_finite (a + b)) eqn:Hsum; [done|]. exfalso.
      destruct (float_midpoint_overflow a b Hfa Hfb Hsum) as [s Hinf].
      exact (infinity_not_between lo' hi' _ s (Hfin _ Hlo') (Hfin _ Hhi') Hinf Hle1 Hle2).
    + intros Hsum.
      destruct (float_midpoint a b Hfa Hfb Hab Hsum) as (_ & Ham & Hmb).
      exists lo, hi. do 3 (split; [done|]). by apply Hbetween.
Qed.

Lemma median_between_min_max_witness :
  exists arr sorted h',
    selection_sort 1%positive {[1%positive := [3; 1; 2; 5]%float]} = Ok (arr, h') /\
    h' !! arr = Some sorted /\
    sorted ≡ₚ [3; 1; 2; 5]%float /\ ascending sorted /\
    (Z.of_nat (length [3; 1; 2; 5]%float) mod 2 = 1 ->
     exists med,
       sorted !! (length [3; 1; 2; 5]%float / 2)%nat = Some med /\
       median sorted = Ok med /\
       median_within [3; 1; 2; 5]%float med) /\
    (Z.of_nat (length [3; 1; 2; 5]%float) mod 2 = 0 ->
     exists a b,
       sorted !! (length [3; 1; 2; 5]%float / 2 - 1)%nat = Some a /\
       sorted !! (length [3; 1; 2; 5]%float / 2)%nat = Some b /\
       fleb a b = true /\
       median sorted = Ok (fquot (fadd a b) two) /\
       (median_within [3; 1; 2; 5]%float (fquot (fadd a b) two)
        <-> is_finite (fadd a b) = true)).
Proof.
  apply (median_between_min_max 1%positive {[1%positive := [3; 1; 2; 5]%float]}).
  - reflexivity.
  - discriminate.
  - repeat constructor.
Defined.

(** * sqrt_newton on binary64

    The guesses of the iteration, in units: a quotient of floats is
    bounded by the ratio of its operands, a sum below the largest float
    does not overflow, and halving a normal number is exact. *)

(** ** The quotient of two floats *)

(** The integer quotient a division rounds, its remainder and its
    exponent. *)
Lemma SFdiv_core_binary_spec m1 e1 m2 e2 :
  0 < m1 -> 0 < m2 ->
  exists q r e' l,
    SFdiv_core_binary prec emax m1 e1 m2 e2 = (q, e', l)
    /\ e' = Z.min (fexp prec emax (Zdigits2 m1 + e1 - (Zdigits2 m2 + e2))) (e1 - e2)
    /\ q * m2 + r = m1 * 2 ^ (e1 - e2 - e') /\ 0 <= r < m2 /\ 0 <= q
    /\ (r = 0 -> l = loc_Exact)
    /\ e' <= fexp prec emax (Zdigits2 q + e').
Proof.
  intros Ha Hb. unfold SFdiv_core_binary.
  destruct (Zdigits2_bounds m1 Ha) as [Ha1 Ha2].
  destruct (Zdigits2_bounds m2 Hb) as [Hb1 Hb2].
  set (d1 := Zdigits2 m1) in *. set (d2 := Zdigits2 m2) in *.
  assert (1 <= d1) as Hd1 by (apply (Zdigits2_ge m1 0); lia).
  assert (1 <= d2) as Hd2 by (apply (Zdigits2_ge m2 0); lia).
  set (e' := Z.min (fexp prec emax (d1 + e1 - (d2 + e2))) (e1 - e2)).
  assert (e' <= e1 - e2) as He' by (unfold e'; lia).
  assert (e' <= Z.max (d1 + e1 - d2 - e2 - 53) (-1074)) as He''
    by (unfold e'; rewrite fexp_eq; lia).
  set (s := e1 - e2 - e') in *.
  set (m' := match s with 0 => m1 | Z.pos _ => Z.shiftl m1 s | Z.neg _ => 0 end).
  assert (m' = m1 * 2 ^ s) as Hm'.
  { subst m'. destruct s as [|p|p] eqn:Es; [lia| |lia]. by rewrite Z.shiftl_mul_pow2. }
  assert (0 < 2 ^ s) as Hpow by (apply pow2_pos; lia).
  pose proof (Z.div_mod m' m2 ltac:(lia)) as Hdm.
  pose proof (Z.mod_pos_bound m' m2 Hb) as Hmod.
  assert (0 <= m' / m2) as Hq0 by (apply Z.div_pos; lia).
  assert (fst (Z.div_eucl m' m2) = m' / m2) as Hquot
    by (unfold Z.div; by destruct (Z.div_eucl m' m2)).
  assert (snd (Z.div_eucl m' m2) = m' mod m2) as Hrem
    by (unfold Z.modulo; by destruct (Z.div_eucl m' m2)).
  destruct (Z.div_eucl m' m2) as [q r]. cbn [fst snd] in Hquot, Hrem. subst q r.
  exists (m' / m2), (m' mod m2), e', (new_location m2 (m' mod m2)).
  split; [done|]. split; [done|]. split; [fold s; rewrite <- Hm'; lia|]. split; [done|].
  split; [done|]. split.
  - intros ->. unfold new_location, new_location_even, new_location_odd.
    by destruct (Z.even m2).
  - rewrite fexp_eq. destruct (Z.le_gt_cases e' (-1074)) as [|Hnormal]; [lia|].
    assert (d1 + s - d2 >= 53) as Hdig by lia.
    assert (d1 + s - d2 <= Zdigits2 (m' / m2)); [|lia].
    replace (d1 + s - d2) with ((d1 + s - d2 - 1) + 1) by lia.
    apply Zdigits2_ge; [lia|].
    apply Z.div_le_lower_bound; [done|].
    assert (m2 * 2 ^ (d1 + s - d2 - 1) <= 2 ^ d2 * 2 ^ (d1 + s - d2 - 1)) as H1.
    { apply Z.mul_le_mono_nonneg_r; [apply Z.pow_nonneg|]; lia. }
    rewrite <- Z.pow_add_r in H1 by lia.
    assert (2 ^ (d2 + (d1 + s - d2 - 1)) = 2 ^ (d1 - 1) * 2 ^ s) as H2.
    { rewrite <- Z.pow_add_r by lia. f_equal. lia. }
    rewrite Hm'. rewrite H2 in H1. eapply Z.le_trans; [exact H1|].
    apply Z.mul_le_mono_nonneg_r; lia.
Qed.

(** The quotient of two positive floats is finite and at most [2^k] when
    the dividend is at most [2^k] times the divisor. *)
Lemma SFdiv_bounded mx ex my ey k :
  valid_binary (S754_finite false mx ex) = true ->
  valid_binary (S754_finite false my ey) = true ->
  0 <= k < 1000 ->
  Z.pos mx * 2 ^ (ex + 1074) <= 2 ^ k * (Z.pos my * 2 ^ (ey + 1074)) ->
  sf_finite (SFdiv prec emax (S754_finite false mx ex) (S754_finite false my ey)) = true
  /\ 0 <= sf_units (SFdiv prec emax (S754_finite false mx ex) (S754_finite false my ey))
       <= 2 ^ (k + 1074).
Proof.
  intros Hvx Hvy Hk Hle.
  destruct (valid_binary_bounds _ _ _ Hvx) as (Hex & Hmx & _).
  destruct (valid_binary_bounds _ _ _ Hvy) as (Hey & Hmy & _).
  destruct (SFdiv_core_binary_spec (Z.pos mx) ex (Z.pos my) ey ltac:(lia) ltac:(lia))
    as (q & r & e' & l & Hcore & He' & Hqr & Hr & Hq & Hexact & Hpre).
  cbn [SFdiv xorb]. rewrite Hcore.
  assert (-1074 <= fexp prec emax (Zdigits2 (Z.pos mx) + ex - (Zdigits2 (Z.pos my) + ey)))
    as Hfe by (rewrite fexp_eq; lia).
  assert (2 ^ 53 <= 2 ^ (k + 1074)) as Hsmall by (apply pow2_le; lia).
  assert (2 ^ (k + 1074) < 2 ^ 2098) as Hbig by (apply Z.pow_lt_mono_r; lia).
  destruct (Z.lt_ge_cases (ex - ey) (-1074)) as [Htiny|Hnorm].
  - (* the quotient is below the smallest float *)
    assert (e' = ex - ey) as He'' by lia.
    assert (q <= Z.pos mx) as Hqle.
    { replace (ex - ey - e') with 0 in Hqr by lia. simpl in Hqr. nia. }
    destruct (binary_round_aux_mantissa false q e' l Hq Hpre)
      as (m2 & Hm2r & Hm2 & _ & _ & ->). cbv zeta in *.
    assert (Zdigits2 q <= 53) as Hd by (apply Zdigits2_lt; lia).
    assert (fexp prec emax (Zdigits2 q + e') = -1074) as HE by (rewrite fexp_eq; lia).
    rewrite HE in *.
    assert (0 < 2 ^ (-1074 - e')) as Hg by (apply pow2_pos; lia).
    assert (0 <= q / 2 ^ (-1074 - e')) as Hq' by (by apply Z.div_pos).
    assert (sf_finite (sf_pack false m2 (-1074)) = true) as Hfin.
    { apply sf_pack_finite; [lia|lia|lia|]. change (2 ^ (-1074 + 1074)) with 1. lia. }
    split; [done|]. rewrite sf_pack_units by (done || lia).
    cbn [cond_Zopp]. change (2 ^ (-1074 + 1074)) with 1. lia.
  - assert (-1074 <= e') as Hemin by lia.
    destruct (binary_round_aux_bounds false q e' l Hq Hemin Hpre)
      as (M & HM & Hu & Hfin & _ & HU).
    set (s := ex - ey - e') in *.
    assert (0 <= s) as Hs by (unfold s; lia).
    assert (0 < 2 ^ (e' + 1074)) as HP by (apply pow2_pos; lia).
    assert (0 < 2 ^ (ey + 1074)) as HPy by (apply pow2_pos; lia).
    assert (0 < 2 ^ s) as HPs by (by apply pow2_pos).
    (* the exact quotient, in units, times the divisor *)
    assert (Z.pos mx * 2 ^ s * 2 ^ (e' + 1074) * 2 ^ (ey + 1074)
            = Z.pos mx * 2 ^ (ex + 1074) * 2 ^ 1074) as Hval.
    { rewrite <- !Z.mul_assoc, <- !Z.pow_add_r by lia. do 2 f_equal. unfold s. lia. }
    assert (q * 2 ^ (e' + 1074) <= 2 ^ (k + 1074)
            /\ (q * 2 ^ (e' + 1074) = 2 ^ (k + 1074) -> r = 0)) as [Hqn Hqeq].
    { assert (2 ^ (k + 1074) = 2 ^ k * 2 ^ 1074) as -> by (by rewrite Z.pow_add_r by lia).
      assert (0 < 2 ^ k) by (apply pow2_pos; lia). assert (0 < 2 ^ 1074) by done.
      set (P := 2 ^ (e' + 1074)) in *. set (Py := 2 ^ (ey + 1074)) in *.
      set (T := 2 ^ 1074) in *. set (K := 2 ^ k) in *. set (S := 2 ^ s) in *.
      assert ((q * Z.pos my + r) * P * Py <= K * T * (Z.pos my * Py)) as Hmain.
      { rewrite Hqr, Hval. nia. }
      assert (0 < Z.pos my * Py) as Hpos by lia.
      assert (q * P * (Z.pos my * Py) + r * P * Py <= K * T * (Z.pos my * Py)) as Hmain'
        by lia.
      assert (0 <= r * P * Py) as Hrp by (apply Z.mul_nonneg_nonneg; nia).
      split.
      - apply (Z.mul_le_mono_pos_r _ _ (Z.pos my * Py)); [done|]. lia.
      - intros Heq. rewrite Heq in Hmain'.
        assert (r * P * Py = 0) as Hz by lia.
        apply Z.mul_eq_0 in Hz as [Hz|Hz]; [|lia].
        apply Z.mul_eq_0 in Hz as [Hz|Hz]; lia. }
    assert (M <= 2 ^ (k + 1074)) as HMn.
    { apply HU; [exists 1, k; lia|].
      destruct (Z.eq_dec (q * 2 ^ (e' + 1074)) (2 ^ (k + 1074))) as [Heq|Hne];
        [right|left; lia].
      split; [|done]. apply Hexact. by apply Hqeq. }
    assert (sf_finite (binary_round_aux prec emax false q e' l) = true) as Hf
      by (apply Hfin; lia).
    split; [done|]. rewrite (Hu Hf). cbn [cond_Zopp]. lia.
Qed.

(** ** The sum of two positive floats *)

(** No float is above [(2^53 - 1) * 2^971]. *)
Lemma valid_units_max x :
  valid_binary x = true -> Z.abs (sf_units x) <= (2 ^ 53 - 1) * 2 ^ 2045.
Proof.
  intros Hv. destruct x as [s|s| |s m e]; try done.
  destruct (valid_binary_bounds s m e Hv) as (He & Hm & _).
  assert (Z.abs (sf_units (S754_finite s m e)) = Z.pos m * 2 ^ (e + 1074)) as ->.
  { assert (0 < 2 ^ (e + 1074)) by (apply pow2_pos; lia).
    destruct s; cbn [sf_units cond_Zopp]; lia. }
  apply Z.mul_le_mono_nonneg; [lia|lia|apply Z.pow_nonneg; lia|apply pow2_le; lia].
Qed.

(** A sum below [2^1024 - 2^970] does not overflow. *)
Lemma SFadd_finite_bound x y :
  valid_binary x = true -> valid_binary y = true ->
  sf_finite x = true -> sf_finite y = true ->
  sf_signed false x = true -> sf_signed false y = true ->
  sf_units x + sf_units y < (2 ^ 54 - 1) * 2 ^ 2044 ->
  sf_finite (SFadd prec emax x y) = true.
Proof.
  destruct x as [[]|[]| |[] mx ex], y as [[]|[]| |[] my ey]; try done.
  intros Hvx Hvy _ _ _ _ Hlt.
  destruct (valid_binary_bounds _ _ _ Hvx) as (Hex & Hmx & Hnx).
  destruct (valid_binary_bounds _ _ _ Hvy) as (Hey & Hmy & Hny).
  cbn [sf_units cond_Zopp] in Hlt.
  unfold SFadd. set (ez := Z.min ex ey). cbn [cond_Zopp].
  assert (ez <= ex /\ ez <= ey /\ -1074 <= ez) as (Hzx & Hzy & Hz) by (unfold ez; lia).
  pose proof (shl_align_value mx ex ez Hzx) as Ha.
  pose proof (shl_align_value my ey ez Hzy) as Hb.
  set (a := fst (shl_align mx ex ez)) in *. set (b := fst (shl_align my ey ez)) in *.
  change (Z.pos a + Z.pos b) with (Z.pos (a + b)). cbn [binary_normalize].
  assert (0 < 2 ^ (ez + 1074)) as HP by (apply pow2_pos; lia).
  assert (Z.pos (a + b) * 2 ^ (ez + 1074)
          = Z.pos mx * 2 ^ (ex + 1074) + Z.pos my * 2 ^ (ey + 1074)) as Hsum.
  { rewrite Pos2Z.inj_add, Ha, Hb, Z.mul_add_distr_r, <- !Z.mul_assoc, <- !Z.pow_add_r by lia.
    do 2 f_equal; f_equal; lia. }
  assert (ez <= 970) as Hez.
  { destruct (Z.le_gt_cases ez 970) as [|Hbig]; [done|]. exfalso.
    assert (ex = 971 /\ ey = 971) as [-> ->] by lia.
    specialize (Hnx ltac:(lia)). specialize (Hny ltac:(lia)).
    change (971 + 1074) with 2045 in *.
    assert (2 ^ 2045 = 2 * 2 ^ 2044) as H45 by done.
    assert (0 < 2 ^ 2044) by done.
    change (2 ^ 52) with 4503599627370496 in *.
    change (2 ^ 54) with 18014398509481984 in *. nia. }
  apply binary_round_finite; [done|].
  apply (Z.mul_lt_mono_pos_r (2 ^ (ez + 1074))); [done|].
  rewrite Hsum, <- Z.mul_assoc, <- Z.pow_add_r by lia.
  by replace (970 - ez + (ez + 1074)) with 2044 by lia.
Qed.

(** ** The product of a float and a power of two *)

(** Dividing a float by [2^k] is exact when the result is a normal
    number. *)
Lemma SFmul_pow2 k s m e :
  0 <= k -> valid_binary (S754_finite s m e) = true ->
  2 ^ (52 + k) <= Z.pos m * 2 ^ (e + 1074) ->
  SFmul prec emax (S754_finite false 4503599627370496 (-52 - k)) (S754_finite s m e)
  = S754_finite s m (e - k).
Proof.
  intros Hk Hv Hbig.
  destruct (valid_binary_bounds s m e Hv) as (He & Hm & Hnormal).
  assert (0 < 2 ^ (e + 1074)) as HP by (apply pow2_pos; lia).
  assert (-1074 <= e - k) as Hek.
  { assert (2 ^ (52 + k) < 2 ^ (53 + (e + 1074))) as Hlt.
    { rewrite (Z.pow_add_r 2 53) by lia. nia. }
    apply pow2_lt_inv in Hlt; lia. }
  assert (2 ^ 52 <= Z.pos m) as Hm52.
  { destruct (Z.eq_dec e (-1074)) as [->|Hne]; [|apply Hnormal; lia].
    assert (k = 0) as -> by lia. change (2 ^ (-1074 + 1074)) with 1 in Hbig.
    change (52 + 0) with 52 in Hbig. lia. }
  cbn [SFmul xorb].
  assert (Z.pos (4503599627370496 * m) = Z.pos m * 2 ^ 52) as Hprod.
  { rewrite Pos2Z.inj_mul. change (Z.pos 4503599627370496) with (2 ^ 52). lia. }
  assert (Zdigits2 (Z.pos (4503599627370496 * m)) = 105) as Hdig.
  { rewrite Hprod. apply Z.le_antisymm.
    - apply Zdigits2_lt; [lia|]. split; [lia|].
      change (2 ^ 105) with (2 ^ 53 * 2 ^ 52). nia.
    - apply (Zdigits2_ge _ 104); [lia|].
      change (2 ^ 104) with (2 ^ 52 * 2 ^ 52). nia. }
  assert (fexp prec emax (105 + (-52 - k + e)) = e - k) as HE by (rewrite fexp_eq; lia).
  destruct (binary_round_aux_mantissa s (Z.pos (4503599627370496 * m)) (-52 - k + e)
              loc_Exact ltac:(lia)) as (m2 & _ & _ & Hexact & _ & ->).
  { rewrite Hdig, HE. lia. }
  cbv zeta in Hexact. rewrite Hdig, HE in *.
  replace (e - k - (-52 - k + e)) with 52 in Hexact by lia.
  rewrite Hprod in Hexact.
  rewrite Z.mod_mul, Z.div_mul in Hexact by lia.
  rewrite (Hexact eq_refl eq_refl). unfold sf_pack.
  destruct (Z.eqb_spec (Z.pos m) (2 ^ 53)) as [|_]; [lia|].
  by destruct (Z.leb_spec (e - k) 971) as [|]; [|lia].
Qed.

(** ** Positive floats *)

Lemma units_pos (x : float) :
  0 < units x -> exists m e, Prim2SF x = S754_finite false m e.
Proof.
  unfold units. pose proof (Prim2SF_valid x) as Hv.
  destruct (Prim2SF x) as [s|s| |s m e]; cbn [sf_units]; try lia.
  destruct (valid_binary_bounds s m e Hv) as (He & _ & _).
  assert (0 < 2 ^ (e + 1074)) as HP by (apply pow2_pos; lia).
  destruct s; cbn [cond_Zopp]; [lia|eauto].
Qed.

Lemma units_pos_finite (x : float) : 0 < units x -> is_finite x = true.
Proof. intros (m & e & Hx)%units_pos. unfold is_finite. by rewrite Hx. Qed.

Lemma float_leb_units (a b : float) :
  is_finite a = true -> is_finite b = true ->
  PrimFloat.leb a b = (units a <=? units b).
Proof.
  intros Ha Hb. rewrite FloatAxioms.leb_spec.
  apply SFleb_units; try done; apply Prim2SF_valid.
Qed.

Lemma float_ltb_units (a b : float) :
  is_finite a = true -> is_finite b = true ->
  PrimFloat.ltb a b = (units a <? units b).
Proof.
  intros Ha Hb.
  pose proof (float_leb_ltb b a (is_finite_not_nan b Hb) (is_finite_not_nan a Ha)) as H.
  rewrite (float_leb_units b a Hb Ha) in H.
  rewrite Z.ltb_antisym, H. by destruct (PrimFloat.ltb a b).
Qed.

Lemma units_one : units 1 = 2 ^ 1074.
Proof. reflexivity. Qed.

(** ** One step of Newton's iteration *)

(** From a guess [g] between [x / 2^k] and the bound [B], the next guess
    is at least half of [g] and at most [B]: the division returns at most
    [2^k], the sum does not overflow, and the product with [0.5] is
    exact. *)
Lemma newton_step_float (x g : float) k B :
  0 <= k < 900 -> in_format B -> 2 ^ (k + 1074) <= B ->
  0 < units x ->
  2 ^ 53 <= units g <= B ->
  units x <= 2 ^ k * units g ->
  exists q,
    fdiv x g = Ok q
    /\ units g <= 2 * units (0.5 * (g + q)) /\ units (0.5 * (g + q)) <= B.
Proof.
  intros Hk HB HkB Hx [Hg HgB] Hxg.
  destruct (units_pos x Hx) as (mx & ex & Ex).
  destruct (units_pos g ltac:(lia)) as (mg & eg & Eg).
  pose proof (Prim2SF_valid x) as Hvx. pose proof (Prim2SF_valid g) as Hvg.
  assert (0 < 2 ^ (k + 1074)) as HPk by (apply pow2_pos; lia).
  (* the division *)
  exists (x / g)%float. split.
  { unfold fdiv. cbn [feqb fquot zero binary64_arith].
    rewrite FloatAxioms.eqb_spec, Eg. reflexivity. }
  pose proof (Prim2SF_valid (x / g)) as Hvq.
  assert (sf_finite (Prim2SF (x / g)) = true
          /\ 0 <= units (x / g) <= 2 ^ (k + 1074)
          /\ sf_signed false (Prim2SF (x / g)) = true) as (Hfq & Hq & Hsq).
  { unfold units in *. rewrite div_spec. unfold SF64div. rewrite Ex, Eg in *.
    destruct (SFdiv_bounded mx ex mg eg k Hvx Hvg ltac:(lia) Hxg) as [H1 H2].
    split; [done|]. split; [done|]. by apply SFdiv_signed. }
  (* the sum *)
  pose proof (Prim2SF_valid (g + x / g)) as Hvs.
  pose proof (valid_units_max _ Hvg) as Hgmax. fold (units g) in Hgmax.
  assert (sf_finite (Prim2SF (g + x / g)) = true) as Hfs.
  { rewrite add_spec. unfold SF64add.
    apply SFadd_finite_bound; try done; try (by rewrite Eg).
    fold (units g) (units (x / g)).
    assert (2 ^ (k + 1074) < 2 ^ 2044) as Hlt by (apply Z.pow_lt_mono_r; lia).
    assert (2 ^ 2045 = 2 * 2 ^ 2044) as H45 by done.
    change (2 ^ 53) with 9007199254740992 in *.
    change (2 ^ 54) with 18014398509481984 in *. lia. }
  assert (units g <= units (g + x / g) <= 2 * B) as Hs.
  { unfold units in *. revert Hfs. rewrite add_spec. unfold SF64add.
    apply SFadd_between; try done; try (by rewrite Eg).
    - rewrite Z.abs_eq by lia. destruct (valid_in_format _ Hvg) as [H _].
      by rewrite Z.abs_eq in H by lia.
    - apply in_format_double. by rewrite Z.abs_eq by lia.
    - lia. }
  (* the half *)
  destruct (units_pos (g + x / g) ltac:(lia)) as (ms & es & Es).
  assert (Prim2SF (0.5 * (g + x / g)) = S754_finite false ms (es - 1)) as Eh.
  { rewrite mul_spec. unfold SF64mul. rewrite Es.
    change (Prim2SF 0.5) with (S754_finite false 4503599627370496 (-52 - 1)).
    apply SFmul_pow2; [lia|by rewrite <- Es|].
    unfold units in Hs, Hg. rewrite Es in Hs. cbn [sf_units cond_Zopp] in Hs.
    change (2 ^ (52 + 1)) with (2 ^ 53). lia. }
  assert (2 * units (0.5 * (g + x / g)) = units (g + x / g)) as Hhalf.
  { unfold units. rewrite Eh, Es. cbn [sf_units cond_Zopp].
    assert (-1074 <= es - 1).
    { pose proof (Prim2SF_valid (0.5 * (g + x / g))) as Hvh. rewrite Eh in Hvh.
      destruct (valid_binary_bounds _ _ _ Hvh); lia. }
    replace (es + 1074) with (Z.succ (es - 1 + 1074)) by lia.
    rewrite Z.pow_succ_r by lia. lia. }
  lia.
Qed.

(** ** The loop of sqrt_newton on binary64 *)

(** After [k] steps the guess is at least [max(x, 1) / 2^k], and it never
    exceeds [B], a float that is at least [max(x, 2^25)]. *)
Lemma newton_loop_float (x : float) B n : forall k g,
  0 <= k -> k + Z.of_nat n <= 25 ->
  in_format B -> 2 ^ 1099 <= B -> 0 < units x ->
  2 ^ 1074 <= 2 ^ k * units g -> units x <= 2 ^ k * units g -> units g <= B ->
  exists r, newton_loop n x g = Ok r
    /\ 2 ^ 1074 <= 2 ^ (k + Z.of_nat n) * units r
    /\ units x <= 2 ^ (k + Z.of_nat n) * units r
    /\ units r <= B.
Proof.
  induction n as [|n IH]; intros k g Hk Hn HB HBb Hx H1 Hxg HgB.
  - exists g. simpl. by rewrite Z.add_0_r.
  - cbn [newton_loop].
    assert (0 < 2 ^ k <= 2 ^ 25) as Hpk by (split; [apply pow2_pos|apply pow2_le]; lia).
    assert (2 ^ 53 <= units g) as Hg.
    { destruct (Z.le_gt_cases (2 ^ 53) (units g)) as [|Hlt]; [done|]. exfalso.
      assert (2 ^ k * units g <= 2 ^ 25 * 2 ^ 53) by nia.
      assert (2 ^ 25 * 2 ^ 53 < 2 ^ 1074) by done. lia. }
    assert (2 ^ (k + 1074) <= B) as HkB.
    { pose proof (pow2_le (k + 1074) 1099 ltac:(lia)). lia. }
    destruct (newton_step_float x g k B ltac:(lia) HB HkB Hx (conj Hg HgB) Hxg)
      as (q & -> & Hlow & Hup).
    cbn [mbind result_bind fmul fadd half binary64_arith].
    assert (2 ^ (k + 1) = 2 * 2 ^ k) as Hk1.
    { replace (k + 1) with (Z.succ k) by lia. rewrite Z.pow_succ_r; lia. }
    destruct (IH (k + 1) (0.5 * (g + q))%float) as (r & Hrun & Hr1 & Hrx & HrB);
      try done; try lia; try (rewrite Hk1; nia).
    exists r. split; [done|].
    by replace (k + Z.of_nat (S n)) with (k + 1 + Z.of_nat n) by lia.
Qed.

(** X17: on binary64, [sqrt_newton] of a finite [x > 0] never divides by
    zero and returns a finite number [r > 0], at least [max(x, 1) / 2^25]
    and at most [max(x, 2^25)]: each of the 25 steps at most halves the
    guess, no quotient exceeds [2^25], and no sum overflows. *)
Theorem sqrt_newton_positive :
  forall x : float,
    is_finite x = true -> fltb zero x = true ->
    exists r, sqrt_newton x = Ok r
      /\ is_finite r = true /\ fltb zero r = true
      /\ fleb (fmul 0x1p-25%float (fmax x one)) r = true
      /\ fleb r (fmax x 33554432%float) = true.
Proof.
  intros x Hfx Hx. cbn [fltb fleb fmul zero one binary64_arith] in *.
  assert (is_finite 0%float = true) as Hf0 by reflexivity.
  assert (is_finite 1%float = true) as Hf1 by reflexivity.
  assert (is_finite 33554432%float = true) as Hfc by reflexivity.
  rewrite (float_ltb_units 0%float x Hf0 Hfx) in Hx. apply Z.ltb_lt in Hx.
  change (units 0%float) with 0 in Hx.
  (* the first guess *)
  set (g := if PrimFloat.leb 1%float x then x else 1%float).
  assert (is_finite g = true /\ units g = Z.max (units x) (2 ^ 1074)) as [Hfg Hg].
  { unfold g. rewrite (float_leb_units 1%float x Hf1 Hfx), units_one.
    destruct (Z.leb_spec (2 ^ 1074) (units x)); (split; [done|]);
      rewrite ?units_one; lia. }
  assert (fmax x 1%float = g) as Hmax1.
  { unfold fmax, g. cbn [fltb one binary64_arith].
    rewrite (float_ltb_units x 1%float Hfx Hf1), (float_leb_units 1%float x Hf1 Hfx), units_one.
    destruct (Z.ltb_spec (units x) (2 ^ 1074)), (Z.leb_spec (2 ^ 1074) (units x));
      try done; lia. }
  assert (is_finite (fmax x 33554432%float) = true
          /\ units (fmax x 33554432%float) = Z.max (units x) (2 ^ 1099)) as [HfB HB].
  { unfold fmax. cbn [fltb binary64_arith].
    rewrite (float_ltb_units x 33554432%float Hfx Hfc).
    change (units 33554432%float) with (2 ^ 1099).
    destruct (Z.ltb_spec (units x) (2 ^ 1099)); (split; [done|]);
      [change (units 33554432%float) with (2 ^ 1099)|]; lia. }
  set (B := units (fmax x 33554432%float)) in *.
  assert (in_format B) as HBf.
  { destruct (valid_in_format _ (Prim2SF_valid (fmax x 33554432%float))) as [H _].
    fold (units (fmax x 33554432%float)) in H. fold B in H.
    by rewrite Z.abs_eq in H by lia. }
  destruct (newton_loop_float x B 25 0 g) as (r & Hrun & Hr1 & Hrx & HrB);
    try done; try lia.
  change (0 + Z.of_nat 25) with 25 in *.
  assert (0 < 2 ^ 25) as H25 by done.
  assert (0 < units r) as Hrpos by nia.
  pose proof (units_pos_finite r Hrpos) as Hfr.
  exists r. split; [|split; [done|split; [|split]]].
  - unfold sqrt_newton. cbn [feqb fleb zero one binary64_arith]. fold g.
    assert (PrimFloat.eqb x 0%float = false) as ->; [|exact Hrun].
    destruct (units_pos x Hx) as (m & e & Ex).
    by rewrite FloatAxioms.eqb_spec, Ex.
  - rewrite (float_ltb_units 0%float r Hf0 Hfr). by apply Z.ltb_lt.
  - rewrite Hmax1.
    destruct (units_pos g ltac:(lia)) as (m & e & Eg).
    pose proof (Prim2SF_valid g) as Hvg. rewrite Eg in Hvg.
    assert (Prim2SF (0x1p-25 * g)%float = S754_finite false m (e - 25)) as Eh.
    { rewrite mul_spec. unfold SF64mul. rewrite Eg.
      change (Prim2SF 0x1p-25%float) with (S754_finite false 4503599627370496 (-52 - 25)).
      apply SFmul_pow2; [lia|done|].
      unfold units in Hg. rewrite Eg in Hg. cbn [sf_units cond_Zopp] in Hg.
      assert (2 ^ (52 + 25) <= 2 ^ 1074) by done. lia. }
    assert (is_finite (0x1p-25 * g)%float = true) as Hfh by (unfold is_finite; by rewrite Eh).
    rewrite (float_leb_units _ r Hfh Hfr). apply Z.leb_le.
    assert (2 ^ 25 * units (0x1p-25 * g)%float = units g) as Hscale.
    { unfold units. rewrite Eh, Eg. cbn [sf_units cond_Zopp].
      assert (-1074 <= e - 25).
      { pose proof (Prim2SF_valid (0x1p-25 * g)%float) as Hvh. rewrite Eh in Hvh.
        destruct (valid_binary_bounds _ _ _ Hvh); lia. }
      replace (e + 1074) with (25 + (e - 25 + 1074)) by lia.
      rewrite (Z.pow_add_r 2 25 (e - 25 + 1074)) by lia. ring. }
    nia.
  - rewrite (float_leb_units r _ Hfr HfB). by apply Z.leb_le.
Qed.

Lemma sqrt_newton_positive_witness :
  exists r, sqrt_newton 2%float = Ok r
    /\ is_finite r = true /\ fltb zero r = true
    /\ fleb (fmul 0x1p-25%float (fmax 2%float one)) r = true
    /\ fleb r (fmax 2%float 33554432%float) = true.
Proof. apply (sqrt_newton_positive 2%float); reflexivity. Defined.

(** * convertNumbers.py *)

Section ConvertNumbersProofs.
Import ConvertNumbers.

Lemma radix_value_snoc base dv ds c :
  radix_value base dv (ds ++ [c]) = radix_value base dv ds * base + dv c.
Proof. unfold radix_value. by rewrite fold_left_app. Qed.

(** ** to_binary *)

Lemma to_binary_loop_step n digits :
  0 < n ->
  to_binary_loop n digits =
  to_binary_loop (n / 2) (digits ++ [if n mod 2 =? 1 then "1"%char else "0"%char]).
Proof.
  intros Hn. rewrite to_binary_loop_equation.
  by destruct (Z.ltb_spec 0 n); [|lia].
Qed.

Lemma to_binary_loop_stop n digits : n <= 0 -> to_binary_loop n digits = digits.
Proof.
  intros Hn. rewrite to_binary_loop_equation.
  by destruct (Z.ltb_spec 0 n); [lia|].
Qed.

(** The loop appends the binary digits of [n], the lowest first. *)
Lemma to_binary_loop_spec n : 0 <= n -> forall digits,
  exists bits, to_binary_loop n digits = digits ++ bits
               /\ forallb is_bit bits = true
               /\ radix_value 2 digit_value (rev bits) = n
               /\ (0 < n -> last bits = Some "1"%char
                            /\ Z.of_nat (length bits) = Z.log2 n + 1).
Proof.
  intros Hn. pattern n. apply Zlt_0_ind; [|exact Hn]. clear n Hn.
  intros n IH Hn digits. destruct (Z.eq_dec n 0) as [->|Hne].
  - exists []. rewrite to_binary_loop_stop, app_nil_r by lia.
    repeat split; try done; lia.
  - assert (0 < n) as Hpos by lia.
    assert (0 <= n / 2 < n) as Hhalf.
    { split; [apply Z.div_pos; lia|apply Z.div_lt; lia]. }
    destruct (IH (n / 2) Hhalf (digits ++ [if n mod 2 =? 1 then "1"%char else "0"%char]))
      as (bits & Hrun & Hbits & Hval & Hlast).
    exists ((if n mod 2 =? 1 then "1"%char else "0"%char) :: bits).
    rewrite to_binary_loop_step, Hrun, <- app_assoc by done.
    split; [done|]. split; [|split].
    + simpl. rewrite Hbits. by destruct (n mod 2 =? 1).
    + simpl. rewrite radix_value_snoc, Hval.
      pose proof (Z.div_mod n 2 ltac:(lia)) as Hdm.
      pose proof (Z.mod_pos_bound n 2 ltac:(lia)) as Hm.
      destruct (Z.eqb_spec (n mod 2) 1) as [E|E]; unfold digit_value;
        [change (ord "1" - ord "0") with 1|change (ord "0" - ord "0") with 0]; lia.
    + intros _. destruct (Z.eq_dec (n / 2) 0) as [Hz|Hnz].
      * assert (bits = []) as ->.
        { rewrite Hz, to_binary_loop_stop in Hrun by lia.
          apply (f_equal length) in Hrun. rewrite !length_app in Hrun.
          destruct bits; [done|simpl in Hrun; lia]. }
        assert (n = 1) as ->.
        { pose proof (Z.div_mod n 2 ltac:(lia)). pose proof (Z.mod_pos_bound n 2 ltac:(lia)). lia. }
        done.
      * destruct Hlast as [Hl Hlen]; [lia|]. split.
        -- destruct bits; [done|]. exact Hl.
        -- simpl length. rewrite Nat2Z.inj_succ, Hlen.
           pose proof (Z.div_mod n 2 ltac:(lia)) as Hdm.
           pose proof (Z.mod_pos_bound n 2 ltac:(lia)) as Hm.
           assert (n mod 2 = 0 \/ n mod 2 = 1) as [E|E] by lia.
           ++ replace (Z.log2 n) with (Z.log2 (2 * (n / 2))) by (f_equal; lia).
              rewrite Z.log2_double by lia. lia.
           ++ replace (Z.log2 n) with (Z.log2 (2 * (n / 2) + 1)) by (f_equal; lia).
              rewrite Z.log2_succ_double by lia. lia.
Qed.

(** ** to_hex *)

Lemma to_hex_loop_step n digits d :
  0 < n -> py_index HEX_DIGITS (n mod 16) = Ok d ->
  to_hex_loop n digits = to_hex_loop (n / 16) (digits ++ [d]).
Proof.
  intros Hn Hd. rewrite to_hex_loop_equation, Hd.
  by destruct (Z.ltb_spec 0 n); [|lia].
Qed.

Lemma to_hex_loop_stop n digits : n <= 0 -> to_hex_loop n digits = Ok digits.
Proof.
  intros Hn. rewrite to_hex_loop_equation.
  by destruct (Z.ltb_spec 0 n); [lia|].
Qed.

(** [HEX_DIGITS[r]] is the digit of value [r]. *)
Lemma hex_digit_lookup r :
  0 <= r < 16 ->
  exists d, py_index HEX_DIGITS r = Ok d /\ hex_digit_value d = r
            /\ is_hex_digit d = true /\ (r <> 0 -> d <> "0"%char).
Proof.
  intros Hr.
  assert (r = 0 \/ r = 1 \/ r = 2 \/ r = 3 \/ r = 4 \/ r = 5 \/ r = 6 \/ r = 7 \/
          r = 8 \/ r = 9 \/ r = 10 \/ r = 11 \/ r = 12 \/ r = 13 \/ r = 14 \/ r = 15)
    as Hcases by lia.
  repeat destruct Hcases as [->|Hcases]; [..|subst r];
    (eexists; split; [vm_compute; reflexivity|]; repeat split; done).
Qed.

(** The loop appends the hexadecimal digits of [n], the lowest first. *)
Lemma to_hex_loop_spec n : 0 <= n -> forall digits,
  exists ds, to_hex_loop n digits = Ok (digits ++ ds)
             /\ forallb is_hex_digit ds = true
             /\ radix_value 16 hex_digit_value (rev ds) = n
             /\ (0 < n -> (exists c, last ds = Some c /\ c <> "0"%char)
                          /\ Z.of_nat (length ds) = Z.log2 n / 4 + 1).
Proof.
  intros Hn. pattern n. apply Zlt_0_ind; [|exact Hn]. clear n Hn.
  intros n IH Hn digits. destruct (Z.eq_dec n 0) as [->|Hne].
  - exists []. rewrite to_hex_loop_stop, app_nil_r by lia.
    repeat split; try done; lia.
  - assert (0 < n) as Hpos by lia.
    assert (0 <= n / 16 < n) as Hdiv.
    { split; [apply Z.div_pos; lia|apply Z.div_lt; lia]. }
    pose proof (Z.div_mod n 16 ltac:(lia)) as Hdm.
    pose proof (Z.mod_pos_bound n 16 ltac:(lia)) as Hm.
    destruct (hex_digit_lookup (n mod 16) Hm) as (d & Hd & Hdv & Hdx & Hd0).
    destruct (IH (n / 16) Hdiv (digits ++ [d])) as (ds & Hrun & Hds & Hval & Hlast).
    exists (d :: ds).
    rewrite (to_hex_loop_step n digits d Hpos Hd), Hrun, <- app_assoc.
    split; [done|]. split; [|split].
    + simpl. by rewrite Hdx, Hds.
    + simpl. rewrite radix_value_snoc, Hval, Hdv. lia.
    + intros _. destruct (Z.eq_dec (n / 16) 0) as [Hz|Hnz].
      * assert (ds = []) as ->.
        { rewrite Hz, to_hex_loop_stop in Hrun by lia. injection Hrun as Hrun.
          apply (f_equal length) in Hrun. rewrite !length_app in Hrun.
          destruct ds; [done|simpl in Hrun; lia]. }
        split; [exists d; split; [done|apply Hd0; lia]|].
        assert (Z.log2 n < 4) as Hlog by (apply Z.log2_lt_pow2; lia).
        pose proof (Z.log2_nonneg n).
        rewrite Z.div_small by lia. done.
      * destruct Hlast as [(c & Hc & Hc0) Hlen]; [lia|]. split.
        -- exists c. split; [|done]. destruct ds; [done|]. exact Hc.
        -- simpl length. rewrite Nat2Z.inj_succ, Hlen.
           assert (Z.log2 (n / 16) = Z.log2 n - 4) as ->.
           { change 16 with (2 ^ 4). rewrite <- Z.shiftr_div_pow2, Z.log2_shiftr by lia.
             assert (2 ^ 4 <= n) as Hge by (change (2 ^ 4) with 16; lia).
             apply Z.log2_le_pow2 in Hge; lia. }
           replace (Z.log2 n) with (1 * 4 + (Z.log2 n - 4)) at 2 by lia.
           rewrite Z.div_add_l by lia. lia.
Qed.

Lemma to_binary_pos n :
  0 < n -> to_binary n = string_of_list_ascii (rev (to_binary_loop n [])).
Proof.
  intros Hn. unfold to_binary.
  destruct (Z.eqb_spec n 0); [lia|]. by destruct (Z.ltb_spec n 0); [lia|].
Qed.

Lemma to_binary_neg n :
  n < 0 -> to_binary n = String "-" (string_of_list_ascii (rev (to_binary_loop (- n) []))).
Proof.
  intros Hn. unfold to_binary.
  destruct (Z.eqb_spec n 0); [lia|]. by destruct (Z.ltb_spec n 0); [|lia].
Qed.

Lemma rev_last_head {A} (l : list A) : head (rev l) = last l.
Proof.
  induction l as [|x l IH] using rev_ind; [done|].
  by rewrite rev_app_distr, last_snoc.
Qed.

(** X18: for [n <> 0], [to_binary] writes a minus sign when [n < 0],
    then the binary digits of the absolute value: only 0 and 1, the first
    one a 1 (no leading zero), [log2 |n| + 1] of them. *)
Theorem to_binary_numeral :
  forall n : Z,
    n <> 0 ->
    exists body,
      list_ascii_of_string (to_binary n) = (if n <? 0 then ["-"%char] else []) ++ body
      /\ head body = Some "1"%char
      /\ forallb is_bit body = true
      /\ Z.of_nat (length body) = Z.log2 (Z.abs n) + 1.
Proof.
  intros n Hne.
  assert (0 < Z.abs n) as Habs by lia.
  destruct (to_binary_loop_spec (Z.abs n) ltac:(lia) [])
    as (bits & Hrun & Hbits & _ & Hlast).
  destruct (Hlast Habs) as [Hl Hlen]. simpl in Hrun.
  exists (rev bits).
  rewrite rev_last_head, length_rev, forallb_rev.
  split; [|done].
  destruct (Z.ltb_spec n 0).
  - rewrite to_binary_neg by done. simpl.
    rewrite list_ascii_of_string_of_list_ascii. replace (- n) with (Z.abs n) by lia.
    by rewrite Hrun.
  - rewrite to_binary_pos by lia. simpl.
    rewrite list_ascii_of_string_of_list_ascii. replace n with (Z.abs n) at 1 by lia.
    by rewrite Hrun.
Qed.

Lemma to_binary_numeral_witness :
  exists body,
    list_ascii_of_string (to_binary (-10)) = (if -10 <? 0 then ["-"%char] else []) ++ body
    /\ head body = Some "1"%char
    /\ forallb is_bit body = true
    /\ Z.of_nat (length body) = Z.log2 (Z.abs (-10)) + 1.
Proof. apply (to_binary_numeral (-10)). discriminate. Defined.

(** X19: the binary numeral denotes the number: reading the digits
    [to_binary] wrote, and its sign, gives [n] back. *)
Theorem to_binary_round_trip :
  forall n : Z, signed_value 2 digit_value (to_binary n) = n.
Proof.
  intros n. destruct (Z.lt_trichotomy n 0) as [Hn|[->|Hn]]; [| done |].
  - destruct (to_binary_loop_spec (- n) ltac:(lia) []) as (bits & Hrun & _ & Hval & _).
    simpl in Hrun. rewrite to_binary_neg by done. unfold signed_value. simpl.
    rewrite list_ascii_of_string_of_list_ascii, Hrun, Hval. lia.
  - destruct (to_binary_loop_spec n ltac:(lia) []) as (bits & Hrun & _ & Hval & Hlast).
    destruct (Hlast Hn) as [Hl _]. simpl in Hrun.
    rewrite to_binary_pos by done. unfold signed_value.
    rewrite list_ascii_of_string_of_list_ascii, Hrun.
    rewrite <- rev_last_head in Hl. destruct (rev bits) as [|c r] eqn:E; [done|].
    injection Hl as ->. simpl. exact Hval.
Qed.

Lemma to_hex_pos n :
  0 < n ->
  to_hex n = digits ← to_hex_loop n []; Ok (string_of_list_ascii (rev digits)).
Proof.
  intros Hn. unfold to_hex.
  destruct (Z.eqb_spec n 0); [lia|]. by destruct (Z.ltb_spec n 0); [lia|].
Qed.

Lemma to_hex_neg n :
  n < 0 ->
  to_hex n = digits ← to_hex_loop (- n) [];
             Ok (String "-" (string_of_list_ascii (rev digits))).
Proof.
  intros Hn. unfold to_hex.
  destruct (Z.eqb_spec n 0); [lia|]. by destruct (Z.ltb_spec n 0); [|lia].
Qed.

(** X20: [to_hex] never fails (the index into [HEX_DIGITS] is always in
    range); for [n <> 0] it writes a minus sign when [n < 0], then the
    hexadecimal digits of the absolute value: digits 0-9 and capitals A-F,
    no leading zero, [log2 |n| / 4 + 1] of them. *)
Theorem to_hex_numeral :
  forall n : Z,
    n <> 0 ->
    exists body c,
      to_hex n =
      Ok (string_of_list_ascii ((if n <? 0 then ["-"%char] else []) ++ body))
      /\ head body = Some c /\ c <> "0"%char
      /\ forallb is_hex_digit body = true
      /\ Z.of_nat (length body) = Z.log2 (Z.abs n) / 4 + 1.
Proof.
  intros n Hne.
  assert (0 < Z.abs n) as Habs by lia.
  destruct (to_hex_loop_spec (Z.abs n) ltac:(lia) [])
    as (ds & Hrun & Hds & _ & Hlast).
  destruct (Hlast Habs) as [(c & Hc & Hc0) Hlen]. simpl in Hrun.
  exists (rev ds), c.
  rewrite rev_last_head, length_rev, forallb_rev.
  split; [|done].
  destruct (Z.ltb_spec n 0).
  - rewrite to_hex_neg by done. replace (- n) with (Z.abs n) by lia.
    by rewrite Hrun.
  - rewrite to_hex_pos by lia. replace n with (Z.abs n) at 1 by lia.
    by rewrite Hrun.
Qed.

Lemma to_hex_numeral_witness :
  exists body c,
    to_hex 255 =
    Ok (string_of_list_ascii ((if 255 <? 0 then ["-"%char] else []) ++ body))
    /\ head body = Some c /\ c <> "0"%char
    /\ forallb is_hex_digit body = true
    /\ Z.of_nat (length body) = Z.log2 (Z.abs 255) / 4 + 1.
Proof. apply (to_hex_numeral 255). discriminate. Defined.

(** X21: the hexadecimal numeral denotes the number: for every [n],
    [to_hex] returns a string, and reading its digits and its sign gives
    [n] back. *)
Theorem to_hex_round_trip :
  forall n : Z,
    exists s, to_hex n = Ok s /\ signed_value 16 hex_digit_value s = n.
Proof.
  intros n. destruct (Z.lt_trichotomy n 0) as [Hn|[->|Hn]].
  - destruct (to_hex_loop_spec (- n) ltac:(lia) []) as (ds & Hrun & _ & Hval & _).
    simpl in Hrun. rewrite to_hex_neg, Hrun by done. eexists. split; [done|].
    unfold signed_value. simpl.
    rewrite list_ascii_of_string_of_list_ascii, Hval. lia.
  - by exists "0"%string.
  - destruct (to_hex_loop_spec n ltac:(lia) []) as (ds & Hrun & Hds & Hval & Hlast).
    destruct (Hlast Hn) as [(c & Hc & Hc0) _]. simpl in Hrun.
    rewrite to_hex_pos, Hrun by done. eexists. split; [done|].
    unfold signed_value. simpl.
    rewrite list_ascii_of_string_of_list_ascii.
    rewrite <- rev_last_head in Hc. destruct (rev ds) as [|c' r] eqn:E; [done|].
    injection Hc as ->.
    assert (is_hex_digit c = true) as Hx.
    { rewrite <- forallb_rev, E in Hds. simpl in Hds. by apply andb_true_iff in Hds as [? _]. }
    destruct (Ascii.eqb_spec c "-") as [->|_]; [done|]. exact Hval.
Qed.

(** ** build_report of convertNumbers.py *)

Lemma to_hex_returns n : exists s, to_hex n = Ok s.
Proof.
  destruct (Z.lt_trichotomy n 0) as [Hn|[->|Hn]].
  - destruct (to_hex_loop_spec (- n) ltac:(lia) []) as (ds & Hrun & _).
    rewrite to_hex_neg, Hrun by done. eauto.
  - by exists "0"%string.
  - destruct (to_hex_loop_spec n ltac:(lia) []) as (ds & Hrun & _).
    rewrite to_hex_pos, Hrun by done. eauto.
Qed.






(** A token whose number cannot be formatted gets an error line. *)
Lemma build_report_too_long max_str_digits t n :
  parse_int t = Ok n -> exceeds_str_digits max_str_digits n = true ->
  build_report max_str_digits [t] = Ok ([ErrorLine t], 0, 1).
Proof.
  intros Hp Hex. unfold build_report. cbn [build_report_loop].
  assert (convert max_str_digits t = Raise ValueError) as ->; [|done].
  unfold convert. rewrite Hp. cbn [mbind result_bind].
  destruct (to_hex_returns n) as [h ->]. cbn [mbind result_bind].
  by rewrite Hex.
Qed.

(** With the limit CPython starts with, a one followed by 4300 zeros is
    parsed and converted, but its row cannot be formatted: the token is
    counted as invalid. *)
Lemma build_report_long_token :
  let t := String "1" (string_of_list_ascii (repeat "0"%char 4300)) in
  parse_int t = Ok (10 ^ 4300)
  /\ build_report 4300 [t] = Ok ([ErrorLine t], 0, 1).
Proof.
  intros t.
  assert (parse_int t = Ok (10 ^ 4300)) as Hp by (vm_compute; reflexivity).
  split; [exact Hp|].
  apply (build_report_too_long 4300 t (10 ^ 4300) Hp).
  vm_compute. reflexivity.
Qed.

(** ** parse_int and parse_number *)

Lemma parse_int_loop_digits rest : forall value v,
  parse_int_loop rest value = Ok v ->
  forallb is_digit rest = true /\ v = decimal rest value.
Proof.
  induction rest as [|ch rest IH]; simpl; intros value v.
  - by intros [= <-].
  - unfold is_digit at 1.
    destruct (Z.ltb_spec (ord ch) (ord "0")); [done|].
    destruct (Z.ltb_spec (ord "9") (ord ch)); [done|]. simpl.
    intros Hrun. destruct (IH _ _ Hrun) as [Hd ->].
    split; [|done]. rewrite Hd.
    destruct (Z.leb_spec (ord "0") (ord ch)); [|lia].
    by destruct (Z.leb_spec (ord ch) (ord "9")); [|lia].
Qed.

(** What [parse_int] accepts: an optional sign and digits. *)
Lemma parse_int_Ok t n :
  parse_int t = Ok n ->
  exists ds, ds <> [] /\ forallb is_digit ds = true /\
    ((strip (list_ascii_of_string t) = "-"%char :: ds /\ n = - decimal ds 0)
     \/ (strip (list_ascii_of_string t) = "+"%char :: ds /\ n = decimal ds 0)
     \/ (strip (list_ascii_of_string t) = ds /\ n = decimal ds 0)).
Proof.
  unfold parse_int. destruct (strip (list_ascii_of_string t)) as [|c r]; [done|].
  cbn [is_nil].
  destruct (Ascii.eqb_spec c "-") as [->|Hm]; [|destruct (Ascii.eqb_spec c "+") as [->|Hp]].
  - destruct r as [|d r]; [done|]. cbn [is_nil].
    destruct (parse_int_loop (d :: r) 0) as [v|] eqn:E; [|done]. simpl.
    intros [= <-]. destruct (parse_int_loop_digits _ _ _ E) as [Hd ->].
    exists (d :: r). split; [done|]. split; [done|]. left. split; [done|lia].
  - destruct r as [|d r]; [done|]. cbn [is_nil].
    destruct (parse_int_loop (d :: r) 0) as [v|] eqn:E; [|done]. simpl.
    intros [= <-]. destruct (parse_int_loop_digits _ _ _ E) as [Hd ->].
    exists (d :: r). split; [done|]. split; [done|]. right. left. split; [done|].
    by destruct (decimal (d :: r) 0).
  - cbn [is_nil].
    destruct (parse_int_loop (c :: r) 0) as [v|] eqn:E; [|done]. simpl.
    intros [= <-]. destruct (parse_int_loop_digits _ _ _ E) as [Hd ->].
    exists (c :: r). split; [done|]. split; [done|]. right. right. split; [done|].
    by destruct (decimal (c :: r) 0).
Qed.

Lemma scan_signed_digits ds :
  ds <> [] -> forallb is_digit ds = true ->
  scan ("+"%char :: ds) = scan ds /\
  scan ("-"%char :: ds) =
  {| sc_negative := true; sc_int_part := decimal ds 0;
     sc_frac_part := 0; sc_frac_div := 1;
     sc_has_digit := true; sc_rest := [] |}.
Proof.
  intros Hne Hd.
  assert (scan ("+"%char :: ds) = scan ds) as Hplus.
  { apply scan_plus. destruct ds as [|c r]; [done|]. simpl in Hd.
    apply andb_true_iff in Hd as [Hc _]. by apply is_digit_not_sign. }
  split; [done|]. by rewrite scan_minus, Hplus, (scan_digits ds Hne Hd).
Qed.

(** The float of a small integer is that integer. *)
Lemma float_of_int_exact n :
  0 <= n < 2 ^ 53 ->
  exists y, float_of_int n = Ok y /\ nonneg y = true /\ float_is_int y n.
Proof.
  intros [Hn Hlt]. destruct n as [|p|p]; [| |lia].
  - exists 0%float. by repeat split.
  - destruct (Z_to_sf_small_exact p Hlt) as (m & e & Hsf & Hv & He & Hm).
    pose proof (Prim2SF_SF2Prim _ Hv) as Hy.
    unfold float_of_int, Z_to_sf. rewrite Hsf.
    generalize dependent (SF2Prim (S754_finite false m e)). intros y Hy.
    exists y. split; [done|]. unfold nonneg, float_is_int. rewrite Hy. simpl.
    split; [done|]. split; [done|lia].
Qed.

Lemma float_is_int_opp y n : float_is_int y n -> float_is_int (- y) (- n).
Proof.
  unfold float_is_int. rewrite opp_spec.
  destruct (Prim2SF y) as [s|s| |s m e]; simpl; try done; [lia|].
  intros [He Hm]. split; [done|]. destruct s; simpl in *; lia.
Qed.

(** X23: on a token that [parse_int] of convertNumbers.py accepts with
    the value [n], [parse_number] of computeStatistics.py does what the
    conversion [float(abs(n))] does: it returns that float, with a minus
    sign when the token has one, or raises [OverflowError] when [n] is too
    large for a float.  It never raises [ValueError], and below 2^53 in
    absolute value the float is [n] itself. *)
Theorem parse_int_parse_number :
  forall (t : string) (n : Z),
    parse_int t = Ok n ->
    parse_number (F:=float) t =
      (m ← float_of_int (Z.abs n);
       Ok (if negative (strip (list_ascii_of_string t)) then PrimFloat.opp m else m))
    /\ (forall e, parse_number (F:=float) t = Raise e -> e = OverflowError)
    /\ (Z.abs n < 2 ^ 53 ->
        exists y : float, parse_number (F:=float) t = Ok y /\ float_is_int y n).
Proof.
  intros t n (ds & Hne & Hd & Hcases)%parse_int_Ok.
  destruct (scan_signed_digits ds Hne Hd) as [Hplus Hminus].
  pose proof (scan_digits ds Hne Hd) as Hscan.
  pose proof (decimal_nonneg ds 0 Hd ltac:(lia)) as Hpos.
  assert (negative ds = false) as Hnd.
  { destruct ds as [|c r]; [done|]. simpl in Hd. apply andb_true_iff in Hd as [Hc _].
    apply is_digit_not_sign in Hc. unfold is_sign in Hc.
    by apply orb_false_iff in Hc as [Hc _]. }
  assert (exists neg : bool,
            n = (if neg then - decimal ds 0 else decimal ds 0)
            /\ negative (strip (list_ascii_of_string t)) = neg
            /\ parse_number (F:=float) t =
               (q ← int_truediv 0 1; m ← of_int (decimal ds 0);
                Ok (fmul (if neg then fopp one else one) (fadd m q))))
    as (neg & -> & -> & Hparse).
  { destruct Hcases as [[Hs ->]|[[Hs ->]|[Hs ->]]];
      [exists true|exists false|exists false];
      (split; [done|]); rewrite Hs; (split; [done|]);
      unfold parse_number; rewrite Hs; cbn [is_nil].
    - by rewrite Hminus.
    - by rewrite Hplus, Hscan.
    - by rewrite Hscan, (is_nil_false ds Hne). }
  assert (Z.abs (if neg then - decimal ds 0 else decimal ds 0) = decimal ds 0) as ->
    by (destruct neg; lia).
  assert (parse_number (F:=float) t =
          (m ← float_of_int (decimal ds 0);
           Ok (if neg then PrimFloat.opp m else m))) as Heq.
  { rewrite Hparse. cbn [int_truediv of_int binary64_arith].
    change (float_int_truediv 0 1) with (Ok 0%float). cbn [mbind result_bind].
    destruct (float_of_int (decimal ds 0)) as [m|e] eqn:Em; [|done].
    cbn [mbind result_bind fmul fadd fopp one binary64_arith].
    destruct (float_of_int_Prim2SF _ _ Em) as [Hm _].
    assert (nonneg m = true) as Hnn.
    { unfold nonneg. rewrite Hm. by apply Z_to_sf_signed. }
    rewrite (float_add_zero m Hnn).
    destruct neg; [by rewrite float_mul_opp_one|by rewrite float_mul_one]. }
  split; [exact Heq|]. split.
  - intros e. rewrite Heq.
    destruct (float_of_int (decimal ds 0)) as [m|e'] eqn:Em; [done|].
    cbn [mbind result_bind]. intros [= <-]. by apply float_of_int_raises in Em.
  - intros Hsmall.
    destruct (float_of_int_exact (decimal ds 0) ltac:(destruct neg; lia))
      as (y & Hy & Hnn & Hint).
    rewrite Heq, Hy. cbn [mbind result_bind].
    destruct neg; eexists; (split; [done|]); [by apply float_is_int_opp|done].
Qed.

Lemma parse_int_parse_number_witness :
  parse_number (F:=float) "-42" =
    (m ← float_of_int (Z.abs (-42));
     Ok (if negative (strip (list_ascii_of_string "-42")) then PrimFloat.opp m else m))
  /\ (forall e, parse_number (F:=float) "-42" = Raise e -> e = OverflowError)
  /\ (Z.abs (-42) < 2 ^ 53 ->
      exists y : float, parse_number (F:=float) "-42" = Ok y /\ float_is_int y (-42)).
Proof. apply (parse_int_parse_number "-42"%string (-42)). reflexivity. Defined.

(** A one followed by 309 zeros is an int for [parse_int] and too large
    for [parse_number]. *)
Lemma parse_int_accepts_more :
  parse_int huge_token = Ok (10 ^ 309)
  /\ parse_number (F:=float) huge_token = Raise OverflowError.
Proof. vm_compute. done. Qed.

End ConvertNumbersProofs.

(** * wordCount.py *)

Section WordCountProofs.
Import WordCount.

Ltac each_char c := destruct c as [[] [] [] [] [] [] [] []].

Lemma lower_char_space c : is_space (lower_char c) = is_space c.
Proof. each_char c; vm_compute; reflexivity. Qed.

Lemma lower_char_alnum c : is_letter_or_digit (lower_char c) = is_letter_or_digit c.
Proof. each_char c; vm_compute; reflexivity. Qed.

Lemma lower_char_idem c : lower_char (lower_char c) = lower_char c.
Proof. each_char c; vm_compute; reflexivity. Qed.

Lemma lower_char_small c :
  is_letter_or_digit c = true -> is_small_or_digit (lower_char c) = true.
Proof. each_char c; vm_compute; done. Qed.

Lemma alnum_not_space c : is_letter_or_digit c = true -> is_space c = false.
Proof. each_char c; vm_compute; done. Qed.

Lemma lower_idem w : lower (lower w) = lower w.
Proof.
  unfold lower. rewrite map_map. apply map_ext. intros c. apply lower_char_idem.
Qed.

(** ** The loops and [lower] commute *)

Lemma lstrip_lower s : lstrip (lower s) = lower (lstrip s).
Proof.
  induction s as [|c s IH]; simpl; [done|].
  rewrite lower_char_space. by destruct (is_space c).
Qed.

Lemma lower_rev w : lower (rev w) = rev (lower w).
Proof. apply map_rev. Qed.

Lemma strip_lower s : strip (lower s) = lower (strip s).
Proof.
  unfold strip. by rewrite lstrip_lower, <- lower_rev, lstrip_lower, lower_rev.
Qed.

Lemma left_loop_lower w : left_loop (lower w) = lower (left_loop w).
Proof.
  induction w as [|c w IH]; simpl; [done|].
  rewrite lower_char_alnum. by destruct (is_letter_or_digit c).
Qed.

Lemma right_loop_rev_lower w : right_loop_rev (lower w) = lower (right_loop_rev w).
Proof.
  induction w as [|c w IH]; simpl; [done|].
  rewrite lower_char_alnum. by destruct (is_letter_or_digit c).
Qed.

Lemma right_loop_lower w : right_loop (lower w) = lower (right_loop w).
Proof.
  unfold right_loop. by rewrite <- lower_rev, right_loop_rev_lower, lower_rev.
Qed.

(** ** The window after the two loops *)

Lemma left_loop_head w c r : left_loop w = c :: r -> is_letter_or_digit c = true.
Proof.
  induction w as [|d w IH]; simpl; [done|].
  destruct (is_letter_or_digit d) eqn:E; simpl; [|done]. by intros [= <- _].
Qed.

Lemma right_loop_rev_head w c r :
  right_loop_rev w = c :: r -> is_letter_or_digit c = true.
Proof.
  induction w as [|d w IH]; simpl; [done|].
  destruct (is_letter_or_digit d) eqn:E; simpl; [|done]. by intros [= <- _].
Qed.

Lemma left_loop_fixed c r : is_letter_or_digit c = true -> left_loop (c :: r) = c :: r.
Proof. simpl. by intros ->. Qed.

Lemma right_loop_rev_fixed c r :
  is_letter_or_digit c = true -> right_loop_rev (c :: r) = c :: r.
Proof. simpl. by intros ->. Qed.

Lemma right_loop_rev_snoc w c :
  is_letter_or_digit c = true -> right_loop_rev (w ++ [c]) = right_loop_rev w ++ [c].
Proof.
  intros Hc. induction w as [|d w IH]; simpl; [by rewrite Hc|].
  by destruct (is_letter_or_digit d).
Qed.

Lemma window_trimmed s : trimmed (right_loop (left_loop s)).
Proof.
  destruct (left_loop s) as [|c r] eqn:E; [by split|].
  pose proof (left_loop_head s c r E) as Hc.
  unfold right_loop. simpl rev. rewrite right_loop_rev_snoc by done.
  rewrite rev_app_distr. simpl. split.
  - by intros c' [= <-].
  - destruct (right_loop_rev (rev r)) as [|d x] eqn:Ex.
    + by intros c' [= <-].
    + pose proof (right_loop_rev_head _ d x Ex) as Hd.
      simpl rev. intros c'. change (c :: rev x ++ [d]) with ((c :: rev x) ++ [d]).
      rewrite last_snoc. by intros [= <-].
Qed.

Lemma trimmed_fixed w :
  trimmed w -> left_loop w = w /\ right_loop w = w /\ strip w = w.
Proof.
  intros [Hhead Hlast]. destruct w as [|c r]; [done|].
  pose proof (Hhead c eq_refl) as Hc.
  destruct (c :: r) as [|d w' _] eqn:E using rev_ind; [done|].
  rewrite last_snoc in Hlast. pose proof (Hlast d eq_refl) as Hd.
  rewrite <- E at 1 2. rewrite (left_loop_fixed c r Hc), E.
  unfold right_loop, strip. split; [done|].
  assert (lstrip (w' ++ [d]) = w' ++ [d]) as ->.
  { rewrite <- E. simpl. by rewrite (alnum_not_space c Hc). }
  rewrite rev_app_distr. simpl. rewrite Hd, (alnum_not_space d Hd). simpl.
  by rewrite rev_involutive.
Qed.

Lemma trimmed_lower w : trimmed w -> trimmed (lower w).
Proof.
  intros [Hhead Hlast]. split; intros c.
  - destruct w as [|d r]; [done|]. simpl. intros [= <-].
    rewrite lower_char_alnum. by apply Hhead.
  - destruct w as [|d r _] using rev_ind; [done|].
    unfold lower. rewrite map_app. simpl. rewrite !last_snoc in *. intros [= <-].
    rewrite lower_char_alnum. by apply Hlast.
Qed.

(** [normalize_word] as one expression. *)
Lemma normalize_word_window raw :
  list_ascii_of_string (normalize_word raw) =
  lower (right_loop (left_loop (strip (list_ascii_of_string raw)))).
Proof.
  unfold normalize_word. destruct (strip _) as [|c s]; [done|]. cbn [is_nil].
  destruct (right_loop _) as [|d w]; [done|]. cbn [is_nil].
  by rewrite list_ascii_of_string_of_list_ascii.
Qed.

Lemma list_ascii_of_string_inj a b :
  list_ascii_of_string a = list_ascii_of_string b -> a = b.
Proof.
  intros E. by rewrite <- (string_of_list_ascii_of_string a),
                       <- (string_of_list_ascii_of_string b), E.
Qed.

Lemma normalize_word_fixed raw :
  normalize_word (normalize_word raw) = normalize_word raw.
Proof.
  apply list_ascii_of_string_inj.
  rewrite (normalize_word_window (normalize_word raw)), (normalize_word_window raw).
  set (w := right_loop (left_loop (strip (list_ascii_of_string raw)))).
  pose proof (trimmed_lower w (window_trimmed _)) as Ht.
  destruct (trimmed_fixed (lower w) Ht) as (Hl & Hr & Hs).
  by rewrite Hs, Hl, Hr, lower_idem.
Qed.

(** X24: [normalize_word] is idempotent: a normalized word is its own
    normal form. *)
Theorem normalize_word_idempotent :
  forall raw : string,
    normalize_word (normalize_word raw) = normalize_word raw.
Proof. exact normalize_word_fixed. Qed.

(** ** The case of the letters of ASCII *)

Lemma ascii_lower_space c : is_space (ascii_lower c) = is_space c.
Proof. each_char c; vm_compute; reflexivity. Qed.

Lemma ascii_lower_alnum c : is_letter_or_digit (ascii_lower c) = is_letter_or_digit c.
Proof. each_char c; vm_compute; reflexivity. Qed.

Lemma lower_char_ascii_lower c : lower_char (ascii_lower c) = lower_char c.
Proof. each_char c; vm_compute; reflexivity. Qed.

Lemma lstrip_ascii_lower s : lstrip (map ascii_lower s) = map ascii_lower (lstrip s).
Proof.
  induction s as [|c s IH]; simpl; [done|].
  rewrite ascii_lower_space. by destruct (is_space c).
Qed.

Lemma strip_ascii_lower s : strip (map ascii_lower s) = map ascii_lower (strip s).
Proof.
  unfold strip. by rewrite lstrip_ascii_lower, <- map_rev, lstrip_ascii_lower, map_rev.
Qed.

Lemma left_loop_ascii_lower w :
  left_loop (map ascii_lower w) = map ascii_lower (left_loop w).
Proof.
  induction w as [|c w IH]; simpl; [done|].
  rewrite ascii_lower_alnum. by destruct (is_letter_or_digit c).
Qed.

Lemma right_loop_rev_ascii_lower w :
  right_loop_rev (map ascii_lower w) = map ascii_lower (right_loop_rev w).
Proof.
  induction w as [|c w IH]; simpl; [done|].
  rewrite ascii_lower_alnum. by destruct (is_letter_or_digit c).
Qed.

Lemma right_loop_ascii_lower w :
  right_loop (map ascii_lower w) = map ascii_lower (right_loop w).
Proof.
  unfold right_loop. by rewrite <- map_rev, right_loop_rev_ascii_lower, map_rev.
Qed.

Lemma lower_ascii_lower w : lower (map ascii_lower w) = lower w.
Proof.
  unfold lower. rewrite map_map. apply map_ext. intros c. apply lower_char_ascii_lower.
Qed.

(** The normal form of a token is that of the token with its capitals of
    ASCII made small. *)
Lemma normalize_word_ascii_lower raw :
  list_ascii_of_string (normalize_word raw) =
  lower (right_loop (left_loop (strip (map ascii_lower (list_ascii_of_string raw))))).
Proof.
  rewrite normalize_word_window.
  by rewrite strip_ascii_lower, left_loop_ascii_lower, right_loop_ascii_lower,
             lower_ascii_lower.
Qed.

(** X25: the case of the letters of ASCII is not told apart: two tokens
    that differ only in the case of the letters A to Z have the same
    normal form. *)
Theorem normalize_word_ignores_case :
  forall a b : string,
    map ascii_lower (list_ascii_of_string a) = map ascii_lower (list_ascii_of_string b) ->
    normalize_word a = normalize_word b.
Proof.
  intros a b Hab. apply list_ascii_of_string_inj.
  by rewrite (normalize_word_ascii_lower a), (normalize_word_ascii_lower b), Hab.
Qed.

Lemma normalize_word_ignores_case_witness :
  normalize_word "The," = normalize_word "tHE,".
Proof. apply (normalize_word_ignores_case "The," "tHE,"). reflexivity. Defined.

Lemma existsb_rev {A} (f : A -> bool) l : existsb f (rev l) = existsb f l.
Proof.
  induction l as [|x l IH]; simpl; [done|].
  rewrite existsb_app, IH. simpl. destruct (f x), (existsb f l); reflexivity.
Qed.

Lemma lstrip_alnum s :
  existsb is_letter_or_digit (lstrip s) = existsb is_letter_or_digit s.
Proof.
  induction s as [|c s IH]; simpl; [done|].
  destruct (is_space c) eqn:E; [|done]. rewrite IH.
  destruct (is_letter_or_digit c) eqn:Ec; [|done].
  by rewrite (alnum_not_space c Ec) in E.
Qed.

Lemma left_loop_alnum s :
  existsb is_letter_or_digit (left_loop s) = existsb is_letter_or_digit s.
Proof.
  induction s as [|c s IH]; simpl; [done|].
  destruct (is_letter_or_digit c) eqn:E; simpl; [by rewrite E|done].
Qed.

Lemma right_loop_rev_alnum s :
  existsb is_letter_or_digit (right_loop_rev s) = existsb is_letter_or_digit s.
Proof.
  induction s as [|c s IH]; simpl; [done|].
  destruct (is_letter_or_digit c) eqn:E; simpl; [by rewrite E|done].
Qed.

Lemma window_alnum s :
  existsb is_letter_or_digit (right_loop (left_loop (strip s))) =
  existsb is_letter_or_digit s.
Proof.
  unfold right_loop, strip.
  by rewrite existsb_rev, right_loop_rev_alnum, existsb_rev, left_loop_alnum,
             existsb_rev, lstrip_alnum, existsb_rev, lstrip_alnum.
Qed.

(** X26: the normal form is empty exactly when the token holds no letter
    and no digit of ASCII; otherwise it starts and ends with a small letter
    or a digit, and it is in small letters. *)
Theorem normalize_word_shape :
  forall raw : string,
    let w := list_ascii_of_string (normalize_word raw) in
    (w = [] <-> existsb is_letter_or_digit (list_ascii_of_string raw) = false)
    /\ (forall c, head w = Some c \/ last w = Some c -> is_small_or_digit c = true)
    /\ lower w = w.
Proof.
  intros raw. cbv zeta. rewrite normalize_word_window.
  set (w := right_loop (left_loop (strip (list_ascii_of_string raw)))).
  pose proof (window_trimmed (strip (list_ascii_of_string raw))) as Ht. fold w in Ht.
  pose proof (window_alnum (list_ascii_of_string raw)) as Hex. fold w in Hex.
  split; [|split].
  - rewrite <- Hex. split.
    + intros E. by destruct w.
    + intros E. destruct w as [|c r]; [done|]. simpl in E.
      rewrite (proj1 Ht c eq_refl) in E. done.
  - intros c [Hc|Hc].
    + destruct w as [|d r]; [done|]. simpl in Hc. injection Hc as <-.
      apply lower_char_small, (proj1 Ht d eq_refl).
    + destruct w as [|d r _] using rev_ind; [done|].
      unfold lower in Hc. rewrite map_app in Hc. simpl in Hc.
      rewrite last_snoc in Hc. injection Hc as <-.
      apply lower_char_small, (proj2 Ht d). by rewrite last_snoc.
  - apply lower_idem.
Qed.

(** ** count_words *)

(** The update of the dictionary for a word. *)
Lemma contains_keys counts word :
  contains counts word = true <-> word ∈ map fst counts.
Proof.
  induction counts as [|[k c] counts IH]; simpl.
  - split; [done|]. by intros ?%elem_of_nil.
  - rewrite orb_true_iff, IH, elem_of_cons, String.eqb_eq. split; intros [|]; auto.
Qed.

Lemma increment_keys counts word : map fst (increment counts word) = map fst counts.
Proof.
  induction counts as [|[k c] counts IH]; simpl; [done|].
  destruct (String.eqb k word); simpl; by rewrite ?IH.
Qed.

Lemma increment_total counts word :
  contains counts word = true ->
  total_count (increment counts word) = total_count counts + 1.
Proof.
  unfold total_count. induction counts as [|[k c] counts IH]; simpl; [done|].
  destruct (String.eqb k word); simpl; [lia|]. intros Hc. rewrite IH by done. lia.
Qed.

Lemma increment_count_of counts word w :
  contains counts word = true ->
  count_of (increment counts word) w =
  count_of counts w + (if String.eqb word w then 1 else 0).
Proof.
  induction counts as [|[k c] counts IH]; simpl; [done|].
  destruct (String.eqb_spec k word) as [->|Hk]; simpl.
  - intros _. destruct (String.eqb word w); lia.
  - intros Hc. destruct (String.eqb_spec k w) as [->|Hw].
    + destruct (String.eqb_spec word w) as [->|]; [done|lia].
    + by apply IH.
Qed.

Lemma append_count_of counts word w :
  contains counts word = false ->
  count_of (counts ++ [(word, 1)]) w =
  count_of counts w + (if String.eqb word w then 1 else 0).
Proof.
  induction counts as [|[k c] counts IH]; simpl.
  - intros _. destruct (String.eqb word w); lia.
  - intros [Hk Hc]%orb_false_iff. destruct (String.eqb_spec k w) as [->|Hw].
    + rewrite String.eqb_sym, Hk. lia.
    + by apply IH.
Qed.

Lemma total_count_app {F} (a b : list (F * Z)) :
  total_count (a ++ b) = total_count a + total_count b.
Proof.
  unfold total_count. induction a as [|[k c] a IH]; simpl; [done|]. rewrite IH. lia.
Qed.

Lemma increment_entries counts word :
  Forall entry_ok counts -> Forall entry_ok (increment counts word).
Proof.
  induction 1 as [|[k c] counts [H1 H2] Hall IH]; simpl; [done|].
  destruct (String.eqb k word); constructor; try done.
  split; [simpl in *; lia|done].
Qed.

Lemma count_words_loop_spec tokens : forall counts valid invalid,
  exists counts' valid' invalid',
    count_words_loop tokens counts valid invalid = (counts', valid', invalid')
    /\ invalid' = invalid + occurrences_of EmptyString tokens
    /\ valid' - valid + (invalid' - invalid) = Z.of_nat (length tokens)
    /\ total_count counts' = total_count counts + (valid' - valid)
    /\ (NoDup (map fst counts) -> NoDup (map fst counts'))
    /\ (Forall entry_ok counts -> Forall entry_ok counts')
    /\ (forall w, w <> EmptyString ->
                  count_of counts' w = count_of counts w + occurrences_of w tokens).
Proof.
  unfold occurrences_of.
  induction tokens as [|t tokens IH]; intros counts valid invalid.
  - exists counts, valid, invalid. simpl. repeat split; try done; intros; lia.
  - cbn [count_words_loop List.filter].
    destruct (String.eqb_spec (normalize_word t) EmptyString) as [E|E].
    + destruct (IH counts valid (invalid + 1))
        as (c' & v' & i' & -> & Hi & Hlen & Htot & Hnd & Hok & Hcount).
      exists c', v', i'. split; [done|]. simpl length.
      split; [lia|]. split; [lia|]. do 3 (split; [done|]).
      intros w Hw. rewrite (Hcount w Hw).
      destruct (String.eqb_spec (normalize_word t) w); [congruence|done].
    + set (counts1 := if contains counts (normalize_word t)
                      then increment counts (normalize_word t)
                      else counts ++ [(normalize_word t, 1)]).
      destruct (IH counts1 (valid + 1) invalid)
        as (c' & v' & i' & -> & Hi & Hlen & Htot & Hnd & Hok & Hcount).
      exists c', v', i'. split; [done|]. split; [done|]. simpl length.
      split; [lia|].
      assert (total_count counts1 = total_count counts + 1) as Ht1.
      { subst counts1. destruct (contains counts _) eqn:Ec.
        - by apply increment_total.
        - rewrite total_count_app. unfold total_count. simpl. lia. }
      split; [lia|]. split; [|split].
      * intros Hk. apply Hnd. subst counts1. destruct (contains counts _) eqn:Ec.
        -- by rewrite increment_keys.
        -- rewrite map_app. simpl. apply NoDup_app. split; [done|]. split.
           ++ intros x Hx ->%list_elem_of_singleton.
              apply contains_keys in Hx. congruence.
           ++ apply NoDup_singleton.
      * intros Hall. apply Hok. subst counts1. destruct (contains counts _).
        -- by apply increment_entries.
        -- apply Forall_app. split; [done|]. constructor; [|done].
           split; [done|]. split; [done|]. apply normalize_word_fixed.
      * intros w Hw. rewrite (Hcount w Hw). subst counts1.
        destruct (contains counts _) eqn:Ec.
        -- rewrite increment_count_of by done.
           destruct (String.eqb (normalize_word t) w); simpl length; lia.
        -- rewrite append_count_of by done.
           destruct (String.eqb (normalize_word t) w); simpl length; lia.
Qed.

(** X27: [count_words] counts every token once: the valid and the
    invalid count add up to the number of tokens, the invalid tokens are
    those with an empty normal form, and the counts of the dictionary add
    up to the valid count.  Its keys are pairwise different, not empty and
    normalized, and no count is below 1. *)
Theorem count_words_totals :
  forall tokens : list string,
    exists counts valid invalid,
      count_words tokens = (counts, valid, invalid)
      /\ invalid = occurrences_of EmptyString tokens
      /\ valid + invalid = Z.of_nat (length tokens)
      /\ total_count counts = valid
      /\ NoDup (map fst counts)
      /\ Forall entry_ok counts.
Proof.
  intros tokens.
  destruct (count_words_loop_spec tokens [] 0 0)
    as (c & v & i & Hrun & Hi & Hlen & Htot & Hnd & Hok & _).
  exists c, v, i. split; [done|]. split; [lia|]. split; [lia|].
  split; [unfold total_count in *; simpl in Htot; lia|].
  split; [apply Hnd; constructor|apply Hok; constructor].
Qed.

(** X28: the count [count_words] stores for a word is the number of
    tokens with that normal form; a word no token normalizes to has no
    entry. *)
Theorem count_words_counts :
  forall (tokens : list string) (w : string),
    w <> EmptyString ->
    count_of (fst (fst (count_words tokens))) w = occurrences_of w tokens
    /\ (contains (fst (fst (count_words tokens))) w = true <-> 0 < occurrences_of w tokens).
Proof.
  intros tokens w Hw.
  destruct (count_words_loop_spec tokens [] 0 0)
    as (c & v & i & Hrun & _ & _ & _ & _ & Hok & Hcount).
  unfold count_words. rewrite Hrun. simpl.
  specialize (Hcount w Hw). simpl in Hcount. rewrite ?Z.add_0_l in Hcount.
  split; [done|].
  rewrite <- Hcount. specialize (Hok ltac:(constructor)).
  clear Hrun Hcount. induction Hok as [|[k n] c [H1 _] Hall IH]; simpl; [lia|].
  destruct (String.eqb k w); simpl in *; [|done]. split; [lia|done].
Qed.

Lemma count_words_counts_witness :
  count_of (fst (fst (count_words ["The"; "the,"; "cat"; "!!"]%string))) "the"
  = occurrences_of "the" ["The"; "the,"; "cat"; "!!"]%string
  /\ (contains (fst (fst (count_words ["The"; "the,"; "cat"; "!!"]%string))) "the" = true
      <-> 0 < occurrences_of "the" ["The"; "the,"; "cat"; "!!"]%string).
Proof. apply (count_words_counts ["The"; "the,"; "cat"; "!!"]%string "the"%string). discriminate. Defined.

End WordCountProofs.
